(** * yamm: the mod catalog (lib/moddb.py)

    A shallow embedding of [lib/moddb.py]: the dependency record
    ([ModDependencies]), the per-mod operations ([ModInstance]), the
    catalog refresh ([ServiceUpdater], [ModDb.update_services]) and the
    file digest check, followed by the properties the specification
    states about them.

    Python values are modelled by [value]; the peewee tables of the
    [storage] module are lists of rows in row order; code that writes to
    the database runs in a state-and-exception monad over [World]. *)

From Stdlib Require Import List String Ascii Strings.Byte ZArith Lia Bool Arith PeanoNat.
From Stdlib Require Import Relations.Relation_Operators Sorting.Permutation.
Import ListNotations.
Local Open Scope string_scope.
Local Open Scope list_scope.

Set Implicit Arguments.

(* ================================================================= *)
(** ** Python values *)

(** The JSON scalars a manifest carries, as Python sees them. *)
Inductive value : Type :=
  | VNone
  | VBool (b : bool)
  | VInt (n : Z)
  | VStr (s : string).

(** Python truthiness, as used by [if mod.get(field):] and
    [if self.mod.filehash:]. *)
Definition truthy (v : value) : bool :=
  match v with
  | VNone => false
  | VBool b => b
  | VInt n => negb (n =? 0)%Z
  | VStr s => negb (s =? "")
  end.

(** [h == v] for a byte string [h]: only a string with the same
    characters is equal to it. *)
Definition str_eq_value (h : string) (v : value) : bool :=
  match v with
  | VStr s => (h =? s)
  | _ => false
  end.

(** [d.get(k)] yields [None] for an absent key. *)
Definition get_or_none (o : option value) : value :=
  match o with
  | Some v => v
  | None => VNone
  end.

(** [d.get(k, [])]. *)
Definition get_or_empty (o : option (list string)) : list string :=
  match o with
  | Some l => l
  | None => []
  end.

(** Exceptions the code can raise. *)
Inductive exn : Type :=
  | KeyError (key : string)
  | IOError
  | DoesNotExist.

Inductive result (A : Type) : Type :=
  | Ok (a : A)
  | Raise (e : exn).
Arguments Ok {A} a.
Arguments Raise {A} e.

(* ================================================================= *)
(** ** The [storage] module *)

(** Relation codes of [ModDependency.relation]. *)
Definition Requires : Z := 0.
Definition Provides : Z := 1.
Definition Conflicts : Z := 2.
Definition Recommends : Z := 3.

(** Modelled from the spec: the [storage] module ([ModService],
    [ModEntry], [ModDependency], [db]) is not part of the sources; rows
    carry the attributes of section 3, tables keep their rows in row
    order, and a fresh row gets the next row id. *)
Record ModService : Type := {
  svc_id : nat;
  svc_url : string;
  svc_name : string;
  svc_mirrors : list string
}.

Record ModEntry : Type := {
  e_id : nat;
  e_name : string;
  e_service : nat;
  e_version : value;
  e_filename : value;
  e_description : value;
  e_filehash : value;
  e_filesize : value;
  e_homepage : value;
  e_author : value
}.

Record ModDependency : Type := {
  dep_mod : nat;
  dep_relation : Z;
  dep_dependency : string
}.

Record Store : Type := {
  modservices : list ModService;
  modentries : list ModEntry;
  moddependencies : list ModDependency
}.

(** Messages sent to the ["moddb"] logger. *)
Inductive LogRecord : Type :=
  | LWarn (dep : string)
  | LInfo (service_name : string) (new updated : nat).

(** What a run can change: the database and the log. *)
Record World : Type := {
  db : Store;
  logged : list LogRecord
}.

(** The optional attributes of an entry, the list of
    [save_mod_instance]. *)
Inductive Field : Type :=
  | description
  | filehash
  | filesize
  | homepage
  | author.

Definition getattr (e : ModEntry) (f : Field) : value :=
  match f with
  | description => e_description e
  | filehash => e_filehash e
  | filesize => e_filesize e
  | homepage => e_homepage e
  | author => e_author e
  end.

Definition setattr (e : ModEntry) (f : Field) (v : value) : ModEntry :=
  {| e_id := e_id e; e_name := e_name e; e_service := e_service e;
     e_version := e_version e; e_filename := e_filename e;
     e_description := match f with description => v | _ => e_description e end;
     e_filehash := match f with filehash => v | _ => e_filehash e end;
     e_filesize := match f with filesize => v | _ => e_filesize e end;
     e_homepage := match f with homepage => v | _ => e_homepage e end;
     e_author := match f with author => v | _ => e_author e end |}.

Definition set_version (e : ModEntry) (v : value) : ModEntry :=
  {| e_id := e_id e; e_name := e_name e; e_service := e_service e;
     e_version := v; e_filename := e_filename e;
     e_description := e_description e; e_filehash := e_filehash e;
     e_filesize := e_filesize e; e_homepage := e_homepage e;
     e_author := e_author e |}.

Definition set_filename (e : ModEntry) (v : value) : ModEntry :=
  {| e_id := e_id e; e_name := e_name e; e_service := e_service e;
     e_version := e_version e; e_filename := v;
     e_description := e_description e; e_filehash := e_filehash e;
     e_filesize := e_filesize e; e_homepage := e_homepage e;
     e_author := e_author e |}.

Definition set_service (e : ModEntry) (s : nat) : ModEntry :=
  {| e_id := e_id e; e_name := e_name e; e_service := s;
     e_version := e_version e; e_filename := e_filename e;
     e_description := e_description e; e_filehash := e_filehash e;
     e_filesize := e_filesize e; e_homepage := e_homepage e;
     e_author := e_author e |}.

(** A row as [ModEntry.create(name=..., service=...)] makes it. *)
Definition new_entry (i : nat) (n : string) (s : nat) : ModEntry :=
  {| e_id := i; e_name := n; e_service := s;
     e_version := VNone; e_filename := VNone;
     e_description := VNone; e_filehash := VNone; e_filesize := VNone;
     e_homepage := VNone; e_author := VNone |}.

(** *** The monad of database code *)

Definition M (A : Type) : Type := World -> World * result A.

Definition ret {A} (a : A) : M A := fun w => (w, Ok a).

Definition throw {A} (e : exn) : M A := fun w => (w, Raise e).

Definition bind {A B} (c : M A) (k : A -> M B) : M B :=
  fun w =>
    match c w with
    | (w', Ok a) => k a w'
    | (w', Raise e) => (w', Raise e)
    end.

Declare Scope db_scope.
Delimit Scope db_scope with db.
Notation "x <- c ;; k" := (bind c (fun x => k))
  (at level 61, c at next level, right associativity) : db_scope.
Notation "' p <- c ;; k" := (bind c (fun x => let p := x in k))
  (at level 61, p pattern, c at next level, right associativity) : db_scope.
Notation "c ;;; k" := (bind c (fun _ => k))
  (at level 61, right associativity) : db_scope.

(** [d[k]]: the value, or [KeyError]. *)
Definition item {A} (k : string) (o : option A) : M A :=
  match o with
  | Some a => ret a
  | None => throw (KeyError k)
  end.

Definition get_db : M Store := fun w => (w, Ok (db w)).

Definition put_db (s : Store) : M unit :=
  fun w => ({| db := s; logged := logged w |}, Ok tt).

Definition emit (r : LogRecord) : M unit :=
  fun w => ({| db := db w; logged := logged w ++ [r] |}, Ok tt).

(** A loop whose body may raise. *)
Fixpoint for_each {A S} (body : S -> A -> M S) (l : list A) (s : S) : M S :=
  match l with
  | [] => ret s
  | x :: l' => bind (body s x) (for_each body l')
  end.

(** Modelled from the spec: [db.transaction()] of the absent [storage]
    module, "execute a unit of work as one atomic transaction (all writes
    inside commit together or none do)": when the block raises, the
    database is put back as it was on entry and the exception goes on;
    what was logged stays. *)
Definition transaction {A} (block : M A) : M A :=
  fun w =>
    match block w with
    | (w', Ok a) => (w', Ok a)
    | (w', Raise e) => ({| db := db w; logged := logged w' |}, Raise e)
    end.

(** *** Queries *)

(** Modelled from the spec: the store operations of section 4.1, which
    the absent [storage] module (peewee models) provides. A new row
    takes the id after the largest one in use. *)
Definition next_id (tbl : list ModEntry) : nat :=
  S (list_max (map e_id tbl)).

Definition entry_matches (n : string) (s : nat) (e : ModEntry) : bool :=
  (e_name e =? n) && (e_service e =? s)%nat.

(** Modelled from the spec: [ModEntry.get_or_create(name=n, service=s)]
    of the absent [storage] module, "get-or-create Entry by (name,
    service)": the first row with that name and service, or a new one,
    and whether it is new. *)
Definition get_or_create (n : string) (s : nat) : M (ModEntry * bool) :=
  fun w =>
    match find (entry_matches n s) (modentries (db w)) with
    | Some e => (w, Ok (e, false))
    | None =>
        let e := new_entry (next_id (modentries (db w))) n s in
        ({| db := {| modservices := modservices (db w);
                     modentries := modentries (db w) ++ [e];
                     moddependencies := moddependencies (db w) |};
            logged := logged w |}, Ok (e, true))
    end.

(** Modelled from the spec: [modentry.save()] of the absent [storage]
    module: the row with that id takes the object's attributes. *)
Definition replace_entry (e : ModEntry) (tbl : list ModEntry) : list ModEntry :=
  map (fun r => if (e_id r =? e_id e)%nat then e else r) tbl.

Definition save_entry (e : ModEntry) : M unit :=
  fun w =>
    ({| db := {| modservices := modservices (db w);
                 modentries := replace_entry e (modentries (db w));
                 moddependencies := moddependencies (db w) |};
        logged := logged w |}, Ok tt).

(** Modelled from the spec: [service.save()] of the absent [storage]
    module, likewise. *)
Definition replace_service (s : ModService) (tbl : list ModService) : list ModService :=
  map (fun r => if (svc_id r =? svc_id s)%nat then s else r) tbl.

Definition save_service (s : ModService) : M unit :=
  fun w =>
    ({| db := {| modservices := replace_service s (modservices (db w));
                 modentries := modentries (db w);
                 moddependencies := moddependencies (db w) |};
        logged := logged w |}, Ok tt).

(** Modelled from the spec: [ModEntry.get(id=i)] of the absent
    [storage] module; a missing row raises. *)
Definition get_entry (st : Store) (i : nat) : result ModEntry :=
  match find (fun e => (e_id e =? i)%nat) (modentries st) with
  | Some e => Ok e
  | None => Raise DoesNotExist
  end.

Definition owned_by (i : nat) (r : Z) (d : ModDependency) : bool :=
  (dep_mod d =? i)%nat && (dep_relation d =? r)%Z.

(** Modelled from the spec:
    [ModDependency.select().where(mod == e, relation == r)], "list
    Relation edges by (owning Entry, relation kind)", in row order. *)
Definition select_owned (st : Store) (i : nat) (r : Z) : list ModDependency :=
  filter (owned_by i r) (moddependencies st).

(** Modelled from the spec:
    [ModDependency.select().where(relation == r, dependency == k)],
    "query Relation edges by (relation kind, keyword)", in row order. *)
Definition select_by_keyword (st : Store) (r : Z) (k : string) : list ModDependency :=
  filter (fun d => (dep_relation d =? r)%Z && (dep_dependency d =? k))
         (moddependencies st).

(** Modelled from the spec:
    [ModDependency.delete().where(mod == e, relation == r).execute()],
    "delete Relation edges by (owning Entry, relation kind)". *)
Definition delete_owned (i : nat) (r : Z) (tbl : list ModDependency) : list ModDependency :=
  filter (fun d => negb (owned_by i r d)) tbl.

Definition with_dependencies (st : Store) (tbl : list ModDependency) : Store :=
  {| modservices := modservices st; modentries := modentries st; moddependencies := tbl |}.

(** Modelled from the spec:
    [ModDependency.create(mod=e, relation=r, dependency=k)]: the new row
    comes last. *)
Definition create_dependency (i : nat) (r : Z) (k : string) (tbl : list ModDependency)
  : list ModDependency :=
  tbl ++ [{| dep_mod := i; dep_relation := r; dep_dependency := k |}].

(* ================================================================= *)
(** ** [create_filehash] *)

Definition BLOCKSIZE : N := 65536.

(** [s.strip(chars)]: drop the characters of the class from both ends. *)
Fixpoint lstrip (p : ascii -> bool) (s : string) : string :=
  match s with
  | EmptyString => EmptyString
  | String c s' => if p c then lstrip p s' else s
  end.

Definition reverse (s : string) : string :=
  string_of_list_ascii (rev (list_ascii_of_string s)).

Definition strip (p : ascii -> bool) (s : string) : string :=
  reverse (lstrip p (reverse (lstrip p s))).

(** The default class of [strip()]: space, tab, newline, carriage
    return, vertical tab, form feed. *)
Definition is_whitespace (c : ascii) : bool :=
  let n := nat_of_ascii c in
  (n =? 32)%nat || ((9 <=? n)%nat && (n <=? 13)%nat).

Definition is_equals_sign (c : ascii) : bool := (c =? "=")%char.

Section Hashing.

(** [hashlib.sha256] and the ["base64"] codec come from the Python
    library; the file system is the environment. *)
Variable hash_state : Type.
Variable hasher : hash_state.
Variable hash_update : hash_state -> list byte -> hash_state.
Variable hash_digest : hash_state -> list byte.
Variable encode_base64 : list byte -> string.

(** [f.read(BLOCKSIZE)] on what is left of the file. *)
Definition read (n : N) (rest : list byte) : list byte * list byte :=
  (firstn (N.to_nat n) rest, skipn (N.to_nat n) rest).

(** The [while len(buf) > 0] loop, [buf] being the block just read. *)
Fixpoint hash_blocks (fuel : nat) (h : hash_state) (buf rest : list byte)
  : option hash_state :=
  match fuel with
  | O => None
  | S fuel' =>
      if (0 <? List.length buf)%nat then
        let h' := hash_update h buf in
        let (buf', rest') := read BLOCKSIZE rest in
        hash_blocks fuel' h' buf' rest'
      else Some h
  end.

(** The digest string of a file's content. *)
Definition filehash_of (content : list byte) : option string :=
  let (buf, rest) := read BLOCKSIZE content in
  match hash_blocks (S (List.length content)) hasher buf rest with
  | Some h =>
      Some (strip is_equals_sign (strip is_whitespace (encode_base64 (hash_digest h))))
  | None => None
  end.

(** [create_filehash(path)]; [open] raises [IOError] when the file
    cannot be read. The loop always ends within its fuel
    ([hash_blocks_ends] below), the last branch is never taken. *)
Definition create_filehash (fs : string -> option (list byte)) (path : string)
  : result string :=
  match fs path with
  | None => Raise IOError
  | Some content =>
      match filehash_of content with
      | Some s => Ok s
      | None => Raise IOError
      end
  end.

End Hashing.

(* ================================================================= *)
(** ** [class ModInstance], [class ModDependencies] *)

Record ModInstance : Type := { mod_ : ModEntry }.

(** [ModInstance(mod_id, instance)]. *)
Definition ModInstance_init (st : Store) (mod_id : nat) (instance : option ModEntry)
  : result ModInstance :=
  match instance with
  | Some e => Ok {| mod_ := e |}
  | None =>
      match get_entry st mod_id with
      | Ok e => Ok {| mod_ := e |}
      | Raise x => Raise x
      end
  end.

(** A recorded dependency: [(provider, source, relation)]. *)
Definition triple : Type := ModInstance * ModInstance * Z.

(** [self.depmap], a [defaultdict(list)]: what was stored, key by key
    in the order the keys were first stored, each with its list. This
    is the history of the dict, not the order it is iterated in: a loop
    over the dict takes the keys in the dict's own order
    ([simple_get_mods] below). *)
Record ModDependencies : Type := { depmap : list (string * list triple) }.

Definition ModDependencies_init : ModDependencies := {| depmap := [] |}.

(** [d[tag]] on a [defaultdict(list)]. *)
Fixpoint dd_get (tag : string) (d : list (string * list triple)) : list triple :=
  match d with
  | [] => []
  | (k, l) :: d' => if k =? tag then l else dd_get tag d'
  end.

(** [d[tag].append(t)]: a missing key is added at the end first. *)
Fixpoint dd_append (tag : string) (t : triple) (d : list (string * list triple))
  : list (string * list triple) :=
  match d with
  | [] => [(tag, [t])]
  | (k, l) :: d' =>
      if k =? tag then (k, l ++ [t]) :: d' else (k, l) :: dd_append tag t d'
  end.

Module ModDependencies_.

Definition add_dependency (self : ModDependencies) (tag : string)
    (provider : ModInstance) (relation : Z) (source : ModInstance)
  : ModDependencies :=
  {| depmap := dd_append tag (provider, source, relation) (depmap self) |}.

Fixpoint _filter (deplist : list triple) (relation : Z) : list triple :=
  match deplist with
  | [] => []
  | dep :: deplist' =>
      if (snd dep =? relation)%Z
      then dep :: _filter deplist' relation
      else _filter deplist' relation
  end.

(** [for dep in self.depmap] takes the keys in the order the dict
    hands them out, [iter_keys] of the keys as they were first stored.
    The language fixes that order only from Python 3.7 on, where it is
    the order of insertion; the source is Python 2, whose dicts go by
    the slots of their hash table ([Py2Dict.keys] below). *)
Definition simple_get_mods (iter_keys : list string -> list string)
    (self : ModDependencies) (relation : Z)
  : list ModInstance :=
  fold_left
    (fun l dep =>
       let filtered_deplist := _filter (dd_get dep (depmap self)) relation in
       match filtered_deplist with
       | first :: _ => l ++ [fst (fst first)]
       | [] => l
       end)
    (iter_keys (map fst (depmap self))) [].

End ModDependencies_.
Import ModDependencies_.

(** *** The key order of a Python 2 dict

    CPython 2.7 keeps a dict in an open-addressing hash table and
    iterates it slot by slot. Hash randomization is off unless asked
    for, so the order is a function of the keys and of the order they
    were stored in. The table below holds the keys only; a [long] and a
    [size_t] are 64-bit words. *)
Module Py2Dict.

Definition word (x : Z) : Z := (x mod 2 ^ 64)%Z.

Definition ord (c : ascii) : Z := Z.of_nat (nat_of_ascii c).

(** [string_hash]: [x = s[0] << 7], then [x = (1000003 * x) ^ c] for
    every character, then [x ^= len(s)]; -1 is kept for errors. The
    hash is given as the unsigned word. *)
Definition string_hash (s : string) : Z :=
  match s with
  | EmptyString => 0%Z
  | String c0 _ =>
      let x :=
        fold_left (fun x c => Z.lxor (word (1000003 * x)%Z) (ord c))
                  (list_ascii_of_string s) (Z.shiftl (ord c0) 7) in
      let x := Z.lxor x (Z.of_nat (String.length s)) in
      if (x =? 2 ^ 64 - 1)%Z then (2 ^ 64 - 2)%Z else x
  end.

Definition table : Type := list (option string).

Definition slot (t : table) (j : Z) : option string := nth (Z.to_nat j) t None.

Fixpoint set_slot (t : table) (j : nat) (key : string) : table :=
  match t, j with
  | [], _ => []
  | _ :: t', O => Some key :: t'
  | e :: t', S j' => e :: set_slot t' j' key
  end.

(** The probe loop of [lookdict_string]:
    [i = (i << 2) + i + perturb + 1], the slot is [i & mask], and
    [perturb >>= 5] after every round. It ends at the key or at a free
    slot; a table always has free slots, so the fuel is never used
    up. *)
Fixpoint probe (fuel : nat) (t : table) (mask : Z) (key : string) (i perturb : Z)
  : option Z :=
  match fuel with
  | O => None
  | S fuel' =>
      let i' := word (5 * i + perturb + 1)%Z in
      let j := Z.land i' mask in
      match slot t j with
      | None => Some j
      | Some k =>
          if k =? key then Some j
          else probe fuel' t mask key i' (Z.shiftr perturb 5)
      end
  end.

(** The slot of [key]: where it is, or where it goes. *)
Definition lookdict (t : table) (key : string) : option Z :=
  let mask := (Z.of_nat (List.length t) - 1)%Z in
  let hash := string_hash key in
  let i := Z.land hash mask in
  match slot t i with
  | None => Some i
  | Some k =>
      if k =? key then Some i
      else probe (64 + List.length t) t mask key i hash
  end.

Definition used (t : table) : nat :=
  List.length (filter (fun e => match e with Some _ => true | None => false end) t).

(** [for (newsize = 8; newsize <= minused; newsize <<= 1)]. *)
Fixpoint new_size (fuel : nat) (newsize minused : nat) : nat :=
  match fuel with
  | O => newsize
  | S fuel' =>
      if (newsize <=? minused)%nat then new_size fuel' (2 * newsize) minused
      else newsize
  end.

(** A key the table does not hold is put into its slot. *)
Definition insert_clean (t : table) (key : string) : table :=
  match lookdict t key with
  | Some j => set_slot t (Z.to_nat j) key
  | None => t
  end.

(** [dictresize]: a table of the new size, filled from the old one slot
    by slot. *)
Definition dictresize (t : table) (minused : nat) : table :=
  fold_left
    (fun t' e => match e with Some k => insert_clean t' k | None => t' end)
    t (repeat None (new_size 64 8 minused)).

(** [d[key] = value]: a key that is there keeps its slot; a new key is
    put in, and the table is resized when two thirds of it are in
    use. *)
Definition setitem (t : table) (key : string) : table :=
  match lookdict t key with
  | Some j =>
      match slot t j with
      | Some _ => t
      | None =>
          let t' := set_slot t (Z.to_nat j) key in
          if (2 * List.length t' <=? 3 * used t')%nat
          then dictresize t' ((if (50000 <? Z.of_nat (used t'))%Z then 2 else 4) * used t')
          else t'
      end
  | None => t
  end.

(** The keys of a dict that was given [stored], key by key, in the
    order a loop over the dict takes them. *)
Definition keys (stored : list string) : list string :=
  flat_map (fun e => match e with Some k => [k] | None => [] end)
           (fold_left setitem stored (repeat None 8)).

End Py2Dict.

(** Results of the recursive resolver: [None] when the recursion is cut
    off by the fuel. *)
Definition fueled (A : Type) : Type := option (result A).

Fixpoint fold_fueled {A S} (body : S -> A -> fueled S) (l : list A) (s : S)
  : fueled S :=
  match l with
  | [] => Some (Ok s)
  | x :: l' =>
      match body s x with
      | Some (Ok s') => fold_fueled body l' s'
      | other => other
      end
  end.

Module ModInstance_.

Section WithHasher.

Variable hash_state : Type.
Variable hasher : hash_state.
Variable hash_update : hash_state -> list byte -> hash_state.
Variable hash_digest : hash_state -> list byte.
Variable encode_base64 : list byte -> string.

Definition check_file (fs : string -> option (list byte))
    (self : ModInstance) (path : string) (approve_if_no_dbhash : bool)
  : result bool :=
  if truthy (e_filehash (mod_ self)) then
    match create_filehash hasher hash_update hash_digest encode_base64 fs path with
    | Ok h => Ok (str_eq_value h (e_filehash (mod_ self)))
    | Raise x => Raise x
    end
  else Ok approve_if_no_dbhash.

End WithHasher.

Definition get_dependency_info (st : Store) (self : ModInstance) (relation : Z)
  : list string :=
  map dep_dependency (select_owned st (e_id (mod_ self)) relation).

(** [entry.mod]: the row the foreign key points to. *)
Definition entry_mod (st : Store) (entry : ModDependency) : result ModEntry :=
  get_entry st (dep_mod entry).

(** The record and the warnings logged so far go through the calls;
    the recursive call is made without [relation], which then takes
    its default. *)
Fixpoint resolve_dependencies (fuel : nat) (st : Store) (self : ModInstance)
    (relation : Z) (depsObject : option ModDependencies) (log : list LogRecord)
  : fueled (ModDependencies * list LogRecord) :=
  match fuel with
  | O => None
  | S fuel' =>
      let depsObject :=
        match depsObject with
        | Some d => d
        | None => ModDependencies_init
        end in
      let deps := get_dependency_info st self relation in
      fold_fueled
        (fun acc dep =>
           let entries := select_by_keyword st 1 dep in
           let log :=
             if (List.length entries =? 0)%nat
             then snd acc ++ [LWarn dep] else snd acc in
           fold_fueled
             (fun acc entry =>
                match entry_mod st entry with
                | Raise x => Some (Raise x)
                | Ok m =>
                    let i := {| mod_ := m |} in
                    let depsObject :=
                      add_dependency (fst acc) dep i relation self in
                    resolve_dependencies fuel' st i 0 (Some depsObject) (snd acc)
                end)
             entries (fst acc, log))
        deps (depsObject, log)
  end.

Definition get_dependency_mods (iter_keys : list string -> list string)
    (fuel : nat) (st : Store) (self : ModInstance) (log : list LogRecord)
  : fueled (list ModInstance * list LogRecord) :=
  match resolve_dependencies fuel st self 0 None log with
  | Some (Ok (depsObject, log')) =>
      Some (Ok (simple_get_mods iter_keys depsObject 0, log'))
  | Some (Raise x) => Some (Raise x)
  | None => None
  end.

End ModInstance_.
Import ModInstance_.

(* ================================================================= *)
(** ** The manifest *)

(** One object of the manifest's ["mods"] list; a key may be absent. *)
Record ModJson : Type := {
  j_name : option string;
  j_version : option value;
  j_filename : option value;
  j_description : option value;
  j_filehash : option value;
  j_filesize : option value;
  j_homepage : option value;
  j_author : option value;
  j_depends : option (list string);
  j_provides : option (list string);
  j_conflict : option (list string);
  j_recommends : option (list string)
}.

(** [mod.get(field)] for an optional attribute. *)
Definition mod_get (m : ModJson) (f : Field) : value :=
  get_or_none
    match f with
    | description => j_description m
    | filehash => j_filehash m
    | filesize => j_filesize m
    | homepage => j_homepage m
    | author => j_author m
    end.

Record ServiceJson : Type := {
  j_service_name : option string;
  j_filelocations : option (list string)
}.

Record Manifest : Type := {
  j_service : option ServiceJson;
  j_mods : option (list ModJson)
}.

(* ================================================================= *)
(** ** [class ServiceUpdater] *)

Record ServiceUpdater : Type := {
  service : ModService;
  new : nat;
  updated : nat
}.

Definition ServiceUpdater_init (s : ModService) : ServiceUpdater :=
  {| service := s; new := 0; updated := 0 |}.

Definition optional_fields : list Field :=
  [description; filehash; filesize; homepage; author].

Module ServiceUpdater_.

Definition update_service_data (self : ServiceUpdater) (data : Manifest)
  : M ServiceUpdater :=
  (sj <- item "service" (j_service data) ;;
   n <- item "name" (j_service_name sj) ;;
   let s1 := {| svc_id := svc_id (service self); svc_url := svc_url (service self);
                svc_name := n; svc_mirrors := svc_mirrors (service self) |} in
   sj' <- item "service" (j_service data) ;;
   fl <- item "filelocations" (j_filelocations sj') ;;
   let s2 := {| svc_id := svc_id s1; svc_url := svc_url s1;
                svc_name := svc_name s1; svc_mirrors := fl |} in
   save_service s2 ;;;
   ret {| service := s2; new := new self; updated := updated self |})%db.

Definition set_dependency_relation (modentry : ModEntry)
    (dependencies : list string) (relation : Z) : M unit :=
  (st <- get_db ;;
   put_db (with_dependencies st
             (delete_owned (e_id modentry) relation (moddependencies st))) ;;;
   for_each
     (fun _ dep =>
        st <- get_db ;;
        put_db (with_dependencies st
                  (create_dependency (e_id modentry) relation dep
                                     (moddependencies st))))
     dependencies tt)%db.

(** The loop over the optional attributes: [mod[field]] is read only
    where [mod.get(field)] is truthy, so the key is there. *)
Definition set_optional (m : ModJson) (modentry : ModEntry) : ModEntry :=
  fold_left
    (fun e field =>
       if truthy (mod_get m field) then setattr e field (mod_get m field) else e)
    optional_fields modentry.

Definition save_mod_instance (self : ServiceUpdater) (m : ModJson)
  : M (ModEntry * bool) :=
  (n <- item "name" (j_name m) ;;
   r <- get_or_create n (svc_id (service self)) ;;
   let modentry := fst r in
   let created := snd r in
   v <- item "version" (j_version m) ;;
   let modentry := set_version modentry v in
   f <- item "filename" (j_filename m) ;;
   let modentry := set_filename modentry f in
   let modentry := set_service modentry (svc_id (service self)) in
   let modentry := set_optional m modentry in
   save_entry modentry ;;;
   ret (modentry, created))%db.

Definition update_mods (self : ServiceUpdater) (modlist : list ModJson)
  : M ServiceUpdater :=
  for_each
    (fun self m =>
       (r <- save_mod_instance self m ;;
        let modentry := fst r in
        let new_entry := snd r in
        let self :=
          if new_entry
          then {| service := service self; new := new self + 1;
                  updated := updated self |}
          else {| service := service self; new := new self;
                  updated := updated self + 1 |} in
        set_dependency_relation modentry (get_or_empty (j_depends m)) 0 ;;;
        set_dependency_relation modentry
          (e_name modentry :: get_or_empty (j_provides m)) 1 ;;;
        set_dependency_relation modentry (get_or_empty (j_conflict m)) 2 ;;;
        set_dependency_relation modentry (get_or_empty (j_recommends m)) 3 ;;;
        ret self)%db)
    modlist self.

Section WithNetwork.

(** [get_json]: what the URL serves, or the exception of
    [urllib.urlopen] or [json.load]. *)
Variable get_json : string -> result Manifest.

Definition update (self : ServiceUpdater) : M ServiceUpdater :=
  (data <- (fun w => (w, get_json (svc_url (service self)))) ;;
   self <- update_service_data self data ;;
   modlist <- item "mods" (j_mods data) ;;
   update_mods self modlist)%db.

End WithNetwork.

End ServiceUpdater_.
Import ServiceUpdater_.

(* ================================================================= *)
(** ** [class ModDb] *)

(** Modelled from the spec: [ModEntry.get(name=n)] of the absent
    [storage] module, "fetch Entry by name": the first row with that
    name; a missing row raises. *)
Definition get_entry_by_name (st : Store) (n : string) : result ModEntry :=
  match find (fun e => e_name e =? n) (modentries st) with
  | Some e => Ok e
  | None => Raise DoesNotExist
  end.

Module ModDb.

Definition get_module (st : Store) (modulename : string) : result ModInstance :=
  match get_entry_by_name st modulename with
  | Ok e => ModInstance_init st (e_id e) (Some e)
  | Raise x => Raise x
  end.

Section WithNetwork.

Variable get_json : string -> result Manifest.

Definition get_services : M (list ModService) :=
  fun w => (w, Ok (modservices (db w))).

Definition update_services : M unit :=
  transaction
    (svcs <- get_services ;;
     for_each
       (fun _ s =>
          let updater := ServiceUpdater_init s in
          updater <- update get_json updater ;;
          emit (LInfo (svc_name (service updater)) (new updater) (updated updater)))
       svcs tt)%db.

End WithNetwork.

End ModDb.

(* ================================================================= *)
(** ** Vocabulary of the statements *)

(** The rows one resync inserts. *)
Definition edges_of (i : nat) (r : Z) (keywords : list string) : list ModDependency :=
  map (fun k => {| dep_mod := i; dep_relation := r; dep_dependency := k |}) keywords.

(** One relation resync on the dependency table: the rows of that
    entry and kind go, the new ones come last. *)
Definition resync (i : nat) (r : Z) (keywords : list string)
    (tbl : list ModDependency) : list ModDependency :=
  delete_owned i r tbl ++ edges_of i r keywords.

(** The four resyncs [update_mods] makes for one manifest object. *)
Definition resync_all (i : nat) (n : string) (m : ModJson)
    (tbl : list ModDependency) : list ModDependency :=
  resync i 3 (get_or_empty (j_recommends m))
    (resync i 2 (get_or_empty (j_conflict m))
       (resync i 1 (n :: get_or_empty (j_provides m))
          (resync i 0 (get_or_empty (j_depends m)) tbl))).

(** A manifest object [save_mod_instance] can read: the three keys it
    indexes are there. *)
Definition readable (m : ModJson) : bool :=
  match j_name m, j_version m, j_filename m with
  | Some _, Some _, Some _ => true
  | _, _, _ => false
  end.

Definition name_of (m : ModJson) : string :=
  match j_name m with Some n => n | None => "" end.

(** The attributes [save_mod_instance] gives the row it found or made. *)
Definition updated_entry (m : ModJson) (s : nat) (e : ModEntry) : ModEntry :=
  set_optional m
    (set_service
       (set_filename (set_version e (get_or_none (j_version m)))
                     (get_or_none (j_filename m))) s).

(** The row [get_or_create] returns, and the table it leaves. *)
Definition found_or_new (n : string) (s : nat) (tbl : list ModEntry)
  : ModEntry * bool * list ModEntry :=
  match find (entry_matches n s) tbl with
  | Some e => (e, false, tbl)
  | None =>
      let e := new_entry (next_id tbl) n s in (e, true, tbl ++ [e])
  end.

(** What one round of the [update_mods] loop does to the database when
    the object is readable. *)
Definition sync_one (s : nat) (m : ModJson) (st : Store) : Store :=
  let r := found_or_new (name_of m) s (modentries st) in
  let e := updated_entry m s (fst (fst r)) in
  {| modservices := modservices st;
     modentries := replace_entry e (snd r);
     moddependencies := resync_all (e_id e) (e_name e) m (moddependencies st) |}.

Definition count_one (s : nat) (m : ModJson) (st : Store) (self : ServiceUpdater)
  : ServiceUpdater :=
  if snd (fst (found_or_new (name_of m) s (modentries st)))
  then {| service := service self; new := new self + 1; updated := updated self |}
  else {| service := service self; new := new self; updated := updated self + 1 |}.

Definition with_db (w : World) (st : Store) : World :=
  {| db := st; logged := logged w |}.

(** A whole pass of [update_mods] over readable objects. *)
Definition sync_all (s : nat) (modlist : list ModJson) (st : Store) : Store :=
  fold_left (fun st m => sync_one s m st) modlist st.

Fixpoint count_all (s : nat) (modlist : list ModJson) (st : Store)
    (self : ServiceUpdater) : ServiceUpdater :=
  match modlist with
  | [] => self
  | m :: modlist' =>
      count_all s modlist' (sync_one s m st) (count_one s m st self)
  end.

(** The primary key of the entry table: no two rows with one id. *)
Definition unique_ids (st : Store) : Prop := NoDup (map e_id (modentries st)).

(** Entry [n] of service [s] is stored and provides its own name. *)
Definition self_provided (s : nat) (st : Store) (n : string) : Prop :=
  exists e,
    find (entry_matches n s) (modentries st) = Some e
    /\ e_name e = n
    /\ In n (get_dependency_info st {| mod_ := e |} Provides).

(** One call of [add_dependency]. *)
Record Recorded : Type := {
  r_tag : string;
  r_provider : ModInstance;
  r_relation : Z;
  r_source : ModInstance
}.

(** The record a sequence of [add_dependency] calls builds, from an
    empty one. *)
Definition record_of (calls : list Recorded) : ModDependencies :=
  fold_left
    (fun d c => add_dependency d (r_tag c) (r_provider c) (r_relation c) (r_source c))
    calls ModDependencies_init.

(** [flatten(record, relation)] as section 4.3 words it: "iteration
    order = record's insertion order". *)
Definition flatten_as_specified (d : ModDependencies) (relation : Z)
  : list ModInstance :=
  simple_get_mods (fun stored => stored) d relation.

(** The keywords of a list, each once, in the order of their first
    occurrence. *)
Fixpoint first_seen (l : list string) : list string :=
  match l with
  | [] => []
  | k :: l' => k :: filter (fun k' => negb (k' =? k)) (first_seen l')
  end.

(** The provider of the first call recorded for keyword [k] with the
    relation asked for, if there is one. *)
Definition first_provider (calls : list Recorded) (relation : Z) (k : string)
  : list ModInstance :=
  match find (fun c => (r_tag c =? k) && (r_relation c =? relation)%Z) calls with
  | Some c => [r_provider c]
  | None => []
  end.

Definition triple_of (c : Recorded) : triple :=
  (r_provider c, r_source c, r_relation c).

(** The triples recorded under keyword [k], oldest first. *)
Definition triples_for (k : string) (calls : list Recorded) : list triple :=
  map triple_of (filter (fun c => r_tag c =? k) calls).

(** The body of the loop of [update_services]: one service's refresh
    and its log line. *)
Definition update_one (get_json : string -> result Manifest) (_ : unit)
    (s : ModService) : M unit :=
  (updater <- update get_json (ServiceUpdater_init s) ;;
   emit (LInfo (svc_name (service updater)) (new updater) (updated updater)))%db.

(* ================================================================= *)
(** ** The resolver as section 4.3 words it *)

(** The record and the diagnostics so far. *)
Definition rstate : Type := (ModDependencies * list LogRecord)%type.

Section AsSpecified.

(** The kind the recursive call is made with, from the kind of the
    call it is made in. *)
Variable recursion_kind : Z -> Z.

(** Step c: every candidate provider is recorded under the keyword,
    then expanded. *)
Fixpoint expand_candidates (expand : ModInstance -> rstate -> fueled rstate)
    (st : Store) (root : ModInstance) (relation : Z) (k : string)
    (candidates : list ModDependency) (s : rstate) : fueled rstate :=
  match candidates with
  | [] => Some (Ok s)
  | c :: candidates' =>
      match entry_mod st c with
      | Raise x => Some (Raise x)
      | Ok m =>
          let p := {| mod_ := m |} in
          match expand p (add_dependency (fst s) k p relation root, snd s) with
          | Some (Ok s') =>
              expand_candidates expand st root relation k candidates' s'
          | other => other
          end
      end
  end.

(** Step 1: the keywords of the root, one after the other; a keyword
    without candidates leaves a diagnostic. *)
Fixpoint expand_keywords (expand : ModInstance -> rstate -> fueled rstate)
    (st : Store) (root : ModInstance) (relation : Z)
    (keywords : list string) (s : rstate) : fueled rstate :=
  match keywords with
  | [] => Some (Ok s)
  | k :: keywords' =>
      let candidates := select_by_keyword st Provides k in
      let s1 :=
        match candidates with
        | [] => (fst s, snd s ++ [LWarn k])
        | _ :: _ => s
        end in
      match expand_candidates expand st root relation k candidates s1 with
      | Some (Ok s') => expand_keywords expand st root relation keywords' s'
      | other => other
      end
  end.

Fixpoint resolve_as_specified (fuel : nat) (st : Store) (root : ModInstance)
    (relation : Z) (s : rstate) : fueled rstate :=
  match fuel with
  | O => None
  | S fuel' =>
      expand_keywords
        (fun p s' => resolve_as_specified fuel' st p (recursion_kind relation) s')
        st root relation (get_dependency_info st root relation) s
  end.

End AsSpecified.

(** [resolve(root, relation, record)] of section 4.3: the recursive
    call passes [relation] on. *)
Definition resolve_spec : nat -> Store -> ModInstance -> Z -> rstate -> fueled rstate :=
  resolve_as_specified (fun relation => relation).

(** The same with every recursive call made for Requires. *)
Definition resolve_requires : nat -> Store -> ModInstance -> Z -> rstate -> fueled rstate :=
  resolve_as_specified (fun _ => Requires).

Definition record_or_new (depsObject : option ModDependencies) : ModDependencies :=
  match depsObject with
  | Some d => d
  | None => ModDependencies_init
  end.

(** A catalog for the resolver: A (1) recommends "b" and B (2) provides
    it; B recommends "c", provided by C (3), and requires "d", provided
    by D (4). *)
Definition entry_A : ModEntry := new_entry 1 "A" 1.
Definition entry_B : ModEntry := new_entry 2 "B" 1.
Definition entry_C : ModEntry := new_entry 3 "C" 1.
Definition entry_D : ModEntry := new_entry 4 "D" 1.

Definition edge (i : nat) (r : Z) (k : string) : ModDependency :=
  {| dep_mod := i; dep_relation := r; dep_dependency := k |}.

Definition catalog_recommends : Store :=
  {| modservices := [];
     modentries := [entry_A; entry_B; entry_C; entry_D];
     moddependencies :=
       [edge 1 Provides "A"; edge 1 Recommends "b";
        edge 2 Provides "B"; edge 2 Provides "b";
        edge 2 Recommends "c"; edge 2 Requires "d";
        edge 3 Provides "C"; edge 3 Provides "c";
        edge 4 Provides "D"; edge 4 Provides "d"] |}.

(** A catalog with a cycle: A requires "b", which B provides, and B
    requires "A". *)
Definition catalog_cycle : Store :=
  {| modservices := [];
     modentries := [entry_A; entry_B];
     moddependencies :=
       [edge 1 Provides "A"; edge 1 Requires "b";
        edge 2 Provides "B"; edge 2 Provides "b"; edge 2 Requires "A"] |}.

(** A record that got "b" before "a": B recorded as the provider of
    "b", then A as the provider of "a", both for C. *)
Definition calls_ba : list Recorded :=
  [{| r_tag := "b"; r_provider := {| mod_ := entry_B |};
      r_relation := Requires; r_source := {| mod_ := entry_C |} |};
   {| r_tag := "a"; r_provider := {| mod_ := entry_A |};
      r_relation := Requires; r_source := {| mod_ := entry_C |} |}].

(* ================================================================= *)
(** ** The provide/require graph *)

(** The keywords entry [a] requires, and the rows that provide a
    keyword. *)
Definition requires (st : Store) (a : nat) : list string :=
  map dep_dependency (select_owned st a Requires).

Definition providers (st : Store) (k : string) : list ModDependency :=
  select_by_keyword st Provides k.

(** Entry [a] requires a keyword that entry [b] provides. *)
Definition depends_on (st : Store) (a b : nat) : Prop :=
  exists k c, In k (requires st a) /\ In c (providers st k) /\ dep_mod c = b.

Inductive chain (st : Store) : nat -> nat -> Prop :=
  | chain_step a b : depends_on st a b -> chain st a b
  | chain_more a b c : depends_on st a b -> chain st b c -> chain st a c.

Definition acyclic (st : Store) : Prop := forall a, ~ chain st a a.

(** Keyword [k] is reachable from entry [a] through Requires rows: [a]
    requires it, or a provider of a keyword [a] requires reaches it. *)
Inductive reach (st : Store) : nat -> string -> Prop :=
  | reach_here a k : In k (requires st a) -> reach st a k
  | reach_via a k c k' :
      In k (requires st a) -> In c (providers st k) ->
      reach st (dep_mod c) k' -> reach st a k'.

(** Every dependency row belongs to a stored entry. *)
Definition referential (st : Store) : Prop :=
  forall c, In c (moddependencies st) -> exists m, entry_mod st c = Ok m.

(** Instance [p] is the entry of a row that provides [k]. *)
Definition provider_of (st : Store) (k : string) (p : ModInstance) : Prop :=
  exists c, In c (providers st k) /\ entry_mod st c = Ok (mod_ p).

Definition keywords_of (d : ModDependencies) : list string := map fst (depmap d).

(** A ranking of the entries that every require-provide step lowers, as
    a check on the rows. *)
Definition ranked (rank : nat -> nat) (st : Store) : bool :=
  forallb
    (fun r =>
       negb (dep_relation r =? Requires)%Z
       || forallb
            (fun c =>
               negb ((dep_relation c =? Provides)%Z
                     && (dep_dependency c =? dep_dependency r))
               || (rank (dep_mod c) <? rank (dep_mod r))%nat)
            (moddependencies st))
    (moddependencies st).

Definition referentialb (st : Store) : bool :=
  forallb
    (fun c => existsb (fun e => (e_id e =? dep_mod c)%nat) (modentries st))
    (moddependencies st).

(** A record of a Requires resolution: under every keyword at least one
    triple, each of kind Requires and with a provider of the keyword. *)
Definition sound_record (st : Store) (d : ModDependencies) : Prop :=
  forall k l, In (k, l) (depmap d) ->
    l <> []
    /\ Forall (fun t : triple => snd t = Requires /\ provider_of st k (fst (fst t))) l.

(** From [s] to [s'] the record gained the keywords [Q], the log the
    warnings [W], and nothing else changed hands. *)
Definition grows (st : Store) (Q W : string -> Prop) (s s' : rstate) : Prop :=
  (forall k, In k (keywords_of (fst s')) <-> In k (keywords_of (fst s)) \/ Q k)
  /\ (forall k, In (LWarn k) (snd s') <-> In (LWarn k) (snd s) \/ W k)
  /\ (NoDup (keywords_of (fst s)) -> NoDup (keywords_of (fst s')))
  /\ (sound_record st (fst s) -> sound_record st (fst s')).

(** The keywords a resolution from entry [a] has to settle: those with
    a provider, and those without. *)
Definition provided_from (st : Store) (a : nat) (k : string) : Prop :=
  reach st a k /\ providers st k <> [].

Definition unprovided_from (st : Store) (a : nat) (k : string) : Prop :=
  reach st a k /\ providers st k = [].

(* ================================================================= *)
(** ** A pass, table by table *)

(** The entry table after one round, and after a pass. *)
Definition upsert (s : nat) (m : ModJson) (tbl : list ModEntry) : list ModEntry :=
  let r := found_or_new (name_of m) s tbl in
  replace_entry (updated_entry m s (fst (fst r))) (snd r).

Definition upsert_all (s : nat) (modlist : list ModJson) (tbl : list ModEntry)
  : list ModEntry :=
  fold_left (fun tbl m => upsert s m tbl) modlist tbl.

(** The id under which a name of service [s] is stored. *)
Definition id_in (s : nat) (tbl : list ModEntry) (n : string) : nat :=
  match find (entry_matches n s) tbl with
  | Some e => e_id e
  | None => 0
  end.

(** A round seen from one row, when the object's entry has id [i]. *)
Definition rowstep (s : nat) (ids : string -> nat) (m : ModJson) (r : ModEntry)
  : ModEntry :=
  if (e_id r =? ids (name_of m))%nat then updated_entry m s r else r.

Definition rowfold (s : nat) (ids : string -> nat) (modlist : list ModJson)
    (r : ModEntry) : ModEntry :=
  fold_left (fun r m => rowstep s ids m r) modlist r.

(** The attributes a round may write, and what it writes. *)
Inductive attr : Type :=
  | AVersion
  | AFilename
  | AService
  | AOptional (f : Field).

Definition cell (e : ModEntry) (a : attr) : value :=
  match a with
  | AVersion => e_version e
  | AFilename => e_filename e
  | AService => VInt (Z.of_nat (e_service e))
  | AOptional f => getattr e f
  end.

Definition set_cell (m : ModJson) (s : nat) (a : attr) (v : value) : value :=
  match a with
  | AVersion => get_or_none (j_version m)
  | AFilename => get_or_none (j_filename m)
  | AService => VInt (Z.of_nat s)
  | AOptional f => if truthy (mod_get m f) then mod_get m f else v
  end.

(** The cell-wise form of [rowfold] on a row of id [i]. *)
Definition cellfold (s : nat) (ids : string -> nat) (i : nat) (a : attr)
    (modlist : list ModJson) (v : value) : value :=
  fold_left
    (fun v m => if (i =? ids (name_of m))%nat then set_cell m s a v else v)
    modlist v.

(** The resyncs of a pass in the order they are made, each with the
    entry id, the kind and the keywords. *)
Definition resync_op : Type := (nat * Z * list string)%type.

Definition run_ops (ops : list resync_op) (tbl : list ModDependency)
  : list ModDependency :=
  fold_left (fun tbl o => resync (fst (fst o)) (snd (fst o)) (snd o) tbl) ops tbl.

Definition ops_of (ids : string -> nat) (m : ModJson) : list resync_op :=
  let i := ids (name_of m) in
  [(i, 0%Z, get_or_empty (j_depends m));
   (i, 1%Z, name_of m :: get_or_empty (j_provides m));
   (i, 2%Z, get_or_empty (j_conflict m));
   (i, 3%Z, get_or_empty (j_recommends m))].

Definition touched (ops : list resync_op) (d : ModDependency) : bool :=
  existsb (fun o : resync_op => owned_by (fst (fst o)) (snd (fst o)) d) ops.

(** The service as [update_service_data] leaves it, and the database
    after it saved it. *)
Definition refreshed (s : ModService) (n : string) (fl : list string) : ModService :=
  {| svc_id := svc_id s; svc_url := svc_url s; svc_name := n; svc_mirrors := fl |}.

Definition with_service (st : Store) (s : ModService) : Store :=
  {| modservices := replace_service s (modservices st);
     modentries := modentries st;
     moddependencies := moddependencies st |}.

(* ================================================================= *)
(** ** A small catalog to run the code on *)

(** Two services; the manifest of the first lists Core, which provides
    "core-api", and AddonX, which needs "core-api" and "extras"; the
    second cannot be fetched. *)
Definition service_a : ModService :=
  {| svc_id := 1; svc_url := "http://a/mods.json"; svc_name := "a"; svc_mirrors := [] |}.

Definition service_b : ModService :=
  {| svc_id := 2; svc_url := "http://b/mods.json"; svc_name := "b"; svc_mirrors := [] |}.

Definition mod_json (n v : string) (desc home : option value)
    (depends provides : option (list string)) : ModJson :=
  {| j_name := Some n; j_version := Some (VStr v);
     j_filename := Some (VStr (String.append n ".zip"));
     j_description := desc; j_filehash := None; j_filesize := None;
     j_homepage := home; j_author := None;
     j_depends := depends; j_provides := provides;
     j_conflict := None; j_recommends := None |}.

Definition core_json : ModJson :=
  mod_json "Core" "1.0" (Some (VStr "X")) None None (Some ["core-api"]).

Definition addon_json : ModJson :=
  mod_json "AddonX" "1.0" None None (Some ["core-api"; "extras"]) None.

(** Core again, a version later, with an empty description and a
    homepage. *)
Definition core_json_2 : ModJson :=
  mod_json "Core" "2.0" (Some (VStr "")) (Some (VStr "http://core")) None
           (Some ["core-api"]).

Definition manifest_a : Manifest :=
  {| j_service :=
       Some {| j_service_name := Some "A";
               j_filelocations := Some ["http://a/files/"] |};
     j_mods := Some [core_json; addon_json] |}.

Definition get_json_a (url : string) : result Manifest :=
  if url =? "http://a/mods.json" then Ok manifest_a else Raise IOError.

Definition world_start : World :=
  {| db := {| modservices := [service_a; service_b];
              modentries := []; moddependencies := [] |};
     logged := [] |}.

Definition updater_a : ServiceUpdater := ServiceUpdater_init service_a.

(** The world after the first service was refreshed. *)
Definition world_a : World := fst (update get_json_a updater_a world_start).

Definition core_entry : ModEntry :=
  {| e_id := 1; e_name := "Core"; e_service := 1;
     e_version := VStr "1.0"; e_filename := VStr "Core.zip";
     e_description := VStr "X"; e_filehash := VNone; e_filesize := VNone;
     e_homepage := VNone; e_author := VNone |}.

Definition addon_entry : ModEntry :=
  {| e_id := 2; e_name := "AddonX"; e_service := 1;
     e_version := VStr "1.0"; e_filename := VStr "AddonX.zip";
     e_description := VNone; e_filehash := VNone; e_filesize := VNone;
     e_homepage := VNone; e_author := VNone |}.

(** A stand-in for the hash and the codec, to run [check_file]: the
    state counts the bytes and the text does not depend on them. *)
Definition toy_update (h : nat) (buf : list byte) : nat := h + List.length buf.
Definition toy_digest (h : nat) : list byte := repeat x00 h.
Definition toy_base64 (d : list byte) : string :=
  String.append (string_of_list_ascii (repeat "A"%char (List.length d)))
                (String "=" (String (ascii_of_nat 10) EmptyString)).

Definition files (path : string) : option (list byte) :=
  if path =? "Core.zip" then Some [x01; x02; x03] else None.

Definition with_filehash (e : ModEntry) (h : value) : ModEntry :=
  setattr e filehash h.

Definition updater_a_done : ServiceUpdater :=
  {| service := refreshed service_a "A" ["http://a/files/"]; new := 2; updated := 0 |}.

(** The world after [update_mods] alone went through the manifest's
    objects, and after Core was saved a second time. *)
Definition world_pass : World :=
  fst (update_mods updater_a [core_json; addon_json] world_start).

Definition world_core_2 : World :=
  fst (save_mod_instance updater_a core_json_2 world_a).

Definition core_entry_2 : ModEntry :=
  {| e_id := 1; e_name := "Core"; e_service := 1;
     e_version := VStr "2.0"; e_filename := VStr "Core.zip";
     e_description := VStr "X"; e_filehash := VNone; e_filesize := VNone;
     e_homepage := VStr "http://core"; e_author := VNone |}.

(** An object that depends on A and B, and the same depending on B
    only. *)
Definition needs_ab : ModJson :=
  mod_json "P" "1" None None (Some ["A"; "B"]) None.

Definition needs_b : ModJson :=
  mod_json "P" "2" None None (Some ["B"]) None.

Definition entry_P : ModEntry :=
  {| e_id := 1; e_name := "P"; e_service := 1;
     e_version := VStr "2"; e_filename := VStr "P.zip";
     e_description := VNone; e_filehash := VNone; e_filesize := VNone;
     e_homepage := VNone; e_author := VNone |}.

Definition updater_pass_done : ServiceUpdater :=
  {| service := service_a; new := 2; updated := 0 |}.

(* ================================================================= *)
(** ** Further vocabulary *)

(** The characters of a list from the first one outside the class. *)
Fixpoint drop_while {A} (p : A -> bool) (l : list A) : list A :=
  match l with
  | [] => []
  | a :: l' => if p a then drop_while p l' else l
  end.

(** A computation that leaves the part [f] of the world alone, whether
    it returns or raises. *)
Definition keeps {X A} (f : World -> X) (c : M A) : Prop :=
  forall w, f (fst (c w)) = f w.

(** The key of an entry row: what a pass never changes. *)
Definition row_key (e : ModEntry) : nat * string * nat :=
  (e_id e, e_name e, e_service e).

Definition upsert_key (e : ModEntry) : string * nat := (e_name e, e_service e).

(** (name, service) is unique in the entry table. *)
Definition unique_keys (st : Store) : Prop :=
  NoDup (map upsert_key (modentries st)).

(** A log line of [update_services] for service [s]: the name its
    manifest gives and two counts that add up to the manifest's
    objects. *)
Definition reports (get_json : string -> result Manifest) (s : ModService)
    (r : LogRecord) : Prop :=
  exists data sj n modlist a b,
    get_json (svc_url s) = Ok data
    /\ j_service data = Some sj /\ j_service_name sj = Some n
    /\ j_mods data = Some modlist
    /\ r = LInfo n a b /\ a + b = List.length modlist.

(** From entry [a] the require-provide steps lead into a cycle. *)
Definition loops (st : Store) (a : nat) : Prop :=
  exists b, chain st a b /\ chain st b b.

(** Some row that provides a keyword has no entry. *)
Definition dangling (st : Store) : Prop :=
  exists k c, In c (providers st k) /\ entry_mod st c = Raise DoesNotExist.

(** What a triple stored under keyword [k] by a resolution of [root]
    for kind [relation] says: its provider provides [k], its source
    lists [k] among its keywords of the triple's kind, and that kind is
    [relation] with [root] as the source, or Requires. *)
Definition recorded_ok (st : Store) (root : ModInstance) (relation : Z)
    (k : string) (t : triple) : Prop :=
  provider_of st k (fst (fst t))
  /\ In k (get_dependency_info st (snd (fst t)) (snd t))
  /\ ((snd t = relation /\ snd (fst t) = root) \/ snd t = Requires).

Definition record_ok (P : string -> triple -> Prop) (d : ModDependencies) : Prop :=
  forall k l, In (k, l) (depmap d) -> Forall (P k) l.

(** *** Further example data *)

(** An object without ["version"] and ["filename"]. *)
Definition half_json : ModJson :=
  {| j_name := Some "Half"; j_version := None; j_filename := None;
     j_description := None; j_filehash := None; j_filesize := None;
     j_homepage := None; j_author := None; j_depends := None;
     j_provides := None; j_conflict := None; j_recommends := None |}.

(** The second service lists P after the first service's pass. *)
Definition updater_b : ServiceUpdater := ServiceUpdater_init service_b.

Definition world_b : World := fst (update_mods updater_b [needs_ab] world_pass).

Definition updater_b_done : ServiceUpdater :=
  {| service := service_b; new := 1; updated := 0 |}.

(** A manifest that lists P twice, then Core. *)
Definition world_twice : World :=
  fst (update_mods updater_a ([needs_ab] ++ needs_b :: [core_json]) world_start).

Definition updater_twice_done : ServiceUpdater :=
  {| service := service_a; new := 2; updated := 1 |}.

(** What resolving the Recommends of A on [catalog_recommends] records. *)
Definition record_recommends_A : ModDependencies :=
  {| depmap :=
       [("b", [({| mod_ := entry_B |}, {| mod_ := entry_A |}, Recommends)]);
        ("d", [({| mod_ := entry_D |}, {| mod_ := entry_B |}, Requires)])] |}.

(** A catalog with a row left behind: A requires "b", and the row that
    provides "b" belongs to an entry that is gone. *)
Definition catalog_dangling : Store :=
  {| modservices := [];
     modentries := [entry_A];
     moddependencies := [edge 1 Requires "b"; edge 9 Provides "b"] |}.

(* ================================================================= *)
(** ** Running database code *)

Ltac run_db :=
  unfold bind, ret, throw, item, get_db, put_db, emit, save_entry,
    save_service, get_or_create, with_db in *; simpl in *.

Lemma world_eta (w : World) : {| db := db w; logged := logged w |} = w.
Proof. destruct w; reflexivity. Qed.

Lemma store_eta (st : Store) :
  {| modservices := modservices st; modentries := modentries st;
     moddependencies := moddependencies st |} = st.
Proof. destruct st; reflexivity. Qed.

Lemma create_loop_run (i : nat) (r : Z) (keywords : list string) :
  forall w,
    for_each
      (fun (_ : unit) dep =>
         (st <- get_db ;;
          put_db (with_dependencies st
                    (create_dependency i r dep (moddependencies st))))%db)
      keywords tt w
    = (with_db w (with_dependencies (db w)
                    (moddependencies (db w) ++ edges_of i r keywords)), Ok tt).
Proof.
  induction keywords as [|k ks IH]; intros w.
  - simpl. unfold ret, with_db, with_dependencies.
    rewrite app_nil_r, store_eta, world_eta. reflexivity.
  - simpl. unfold bind at 1. unfold bind at 1. unfold get_db, put_db.
    rewrite IH. unfold with_db, with_dependencies, create_dependency. simpl.
    rewrite <- app_assoc. reflexivity.
Qed.

Lemma set_dependency_relation_run (e : ModEntry) (keywords : list string) (r : Z)
    (w : World) :
  set_dependency_relation e keywords r w
  = (with_db w (with_dependencies (db w)
                  (resync (e_id e) r keywords (moddependencies (db w)))), Ok tt).
Proof.
  unfold set_dependency_relation.
  unfold bind at 1. unfold get_db at 1. unfold bind at 1. unfold put_db at 1.
  rewrite create_loop_run. reflexivity.
Qed.

(** *** Rows of one entry and kind *)

Lemma owned_by_edges_of (i : nat) (r : Z) (keywords : list string) :
  filter (owned_by i r) (edges_of i r keywords) = edges_of i r keywords.
Proof.
  induction keywords as [|k ks IH]; simpl; [reflexivity|].
  unfold owned_by at 1. simpl. rewrite Nat.eqb_refl, Z.eqb_refl. simpl.
  now rewrite IH.
Qed.

Lemma owned_by_edges_of_other (i i' : nat) (r r' : Z) (keywords : list string) :
  (i', r') <> (i, r) ->
  filter (owned_by i' r') (edges_of i r keywords) = [].
Proof.
  intros Hne. induction keywords as [|k ks IH]; simpl; [reflexivity|].
  unfold owned_by at 1. simpl.
  destruct (Nat.eqb_spec i i'); destruct (Z.eqb_spec r r'); simpl; auto.
  subst. now elim Hne.
Qed.

Lemma owned_by_delete_same (i : nat) (r : Z) (tbl : list ModDependency) :
  filter (owned_by i r) (delete_owned i r tbl) = [].
Proof.
  unfold delete_owned. induction tbl as [|d tbl IH]; simpl; [reflexivity|].
  destruct (owned_by i r d) eqn:E; simpl; [assumption|].
  now rewrite E.
Qed.

Lemma owned_by_delete_other (i i' : nat) (r r' : Z) (tbl : list ModDependency) :
  (i', r') <> (i, r) ->
  filter (owned_by i' r') (delete_owned i r tbl) = filter (owned_by i' r') tbl.
Proof.
  intros Hne. unfold delete_owned.
  induction tbl as [|d tbl IH]; simpl; [reflexivity|].
  destruct (owned_by i r d) eqn:E; simpl.
  - destruct (owned_by i' r' d) eqn:E'; [|assumption].
    unfold owned_by in E, E'.
    apply andb_prop in E as [E1 E2]. apply andb_prop in E' as [E1' E2'].
    apply Nat.eqb_eq in E1, E1'. apply Z.eqb_eq in E2, E2'.
    elim Hne. congruence.
  - destruct (owned_by i' r' d); [now rewrite IH | assumption].
Qed.

Lemma owned_by_resync_same (i : nat) (r : Z) (keywords : list string)
    (tbl : list ModDependency) :
  filter (owned_by i r) (resync i r keywords tbl) = edges_of i r keywords.
Proof.
  unfold resync. rewrite filter_app, owned_by_delete_same, owned_by_edges_of.
  reflexivity.
Qed.

Lemma owned_by_resync_other (i i' : nat) (r r' : Z) (keywords : list string)
    (tbl : list ModDependency) :
  (i', r') <> (i, r) ->
  filter (owned_by i' r') (resync i r keywords tbl) = filter (owned_by i' r') tbl.
Proof.
  intros Hne. unfold resync.
  rewrite filter_app, owned_by_delete_other, owned_by_edges_of_other by assumption.
  now rewrite app_nil_r.
Qed.

Lemma keywords_edges_of (i : nat) (r : Z) (keywords : list string) :
  map dep_dependency (edges_of i r keywords) = keywords.
Proof.
  unfold edges_of. rewrite map_map. simpl. apply map_id.
Qed.

(* ================================================================= *)
(** ** Entry upsert *)

Lemma set_optional_getattr (m : ModJson) (e : ModEntry) (f : Field) :
  getattr (set_optional m e) f
  = if truthy (mod_get m f) then mod_get m f else getattr e f.
Proof.
  unfold set_optional, optional_fields. simpl.
  destruct (truthy (mod_get m description)) eqn:E1;
    destruct (truthy (mod_get m filehash)) eqn:E2;
    destruct (truthy (mod_get m filesize)) eqn:E3;
    destruct (truthy (mod_get m homepage)) eqn:E4;
    destruct (truthy (mod_get m author)) eqn:E5;
    destruct f; simpl; rewrite ?E1, ?E2, ?E3, ?E4, ?E5; reflexivity.
Qed.

Lemma set_optional_fixed (m : ModJson) (e : ModEntry) :
  e_id (set_optional m e) = e_id e
  /\ e_name (set_optional m e) = e_name e
  /\ e_service (set_optional m e) = e_service e
  /\ e_version (set_optional m e) = e_version e
  /\ e_filename (set_optional m e) = e_filename e.
Proof.
  unfold set_optional, optional_fields. simpl.
  destruct (truthy (mod_get m description));
    destruct (truthy (mod_get m filehash));
    destruct (truthy (mod_get m filesize));
    destruct (truthy (mod_get m homepage));
    destruct (truthy (mod_get m author)); simpl; auto.
Qed.

Lemma updated_entry_id (m : ModJson) (s : nat) (e : ModEntry) :
  e_id (updated_entry m s e) = e_id e.
Proof. unfold updated_entry. now rewrite (proj1 (set_optional_fixed _ _)). Qed.

Lemma updated_entry_name (m : ModJson) (s : nat) (e : ModEntry) :
  e_name (updated_entry m s e) = e_name e.
Proof.
  unfold updated_entry.
  now rewrite (proj1 (proj2 (set_optional_fixed _ _))).
Qed.

Lemma updated_entry_service (m : ModJson) (s : nat) (e : ModEntry) :
  e_service (updated_entry m s e) = s.
Proof.
  unfold updated_entry.
  now rewrite (proj1 (proj2 (proj2 (set_optional_fixed _ _)))).
Qed.

Lemma updated_entry_version (m : ModJson) (s : nat) (e : ModEntry) :
  readable m = true -> j_version m = Some (e_version (updated_entry m s e)).
Proof.
  unfold readable, updated_entry. intros Hr.
  rewrite (proj1 (proj2 (proj2 (proj2 (set_optional_fixed _ _))))). simpl.
  destruct (j_name m); [|discriminate].
  destruct (j_version m); [reflexivity | discriminate].
Qed.

Lemma updated_entry_filename (m : ModJson) (s : nat) (e : ModEntry) :
  readable m = true -> j_filename m = Some (e_filename (updated_entry m s e)).
Proof.
  unfold readable, updated_entry. intros Hr.
  rewrite (proj2 (proj2 (proj2 (proj2 (set_optional_fixed _ _))))). simpl.
  destruct (j_name m); [|discriminate].
  destruct (j_version m); [|discriminate].
  destruct (j_filename m); [reflexivity | discriminate].
Qed.

Lemma updated_entry_getattr (m : ModJson) (s : nat) (e : ModEntry) (f : Field) :
  getattr (updated_entry m s e) f
  = if truthy (mod_get m f) then mod_get m f else getattr e f.
Proof.
  unfold updated_entry. rewrite set_optional_getattr.
  destruct (truthy (mod_get m f)); [reflexivity|]. now destruct f.
Qed.

Lemma find_matches_name (n : string) (s : nat) (tbl : list ModEntry) (e : ModEntry) :
  find (entry_matches n s) tbl = Some e -> e_name e = n /\ e_service e = s.
Proof.
  intros H. apply find_some in H as [_ H]. unfold entry_matches in H.
  apply andb_prop in H as [H1 H2].
  apply String.eqb_eq in H1. apply Nat.eqb_eq in H2. now split.
Qed.

Lemma found_or_new_key (n : string) (s : nat) (tbl : list ModEntry) :
  let e := fst (fst (found_or_new n s tbl)) in
  e_name e = n /\ e_service e = s.
Proof.
  unfold found_or_new. destruct (find (entry_matches n s) tbl) eqn:E; simpl.
  - now apply find_matches_name in E.
  - now split.
Qed.

(** What [save_mod_instance] does when the object has the keys it
    indexes. *)
Lemma save_mod_instance_run (self : ServiceUpdater) (m : ModJson) (w : World) :
  readable m = true ->
  let s := svc_id (service self) in
  let r := found_or_new (name_of m) s (modentries (db w)) in
  let e := updated_entry m s (fst (fst r)) in
  save_mod_instance self m w
  = (with_db w {| modservices := modservices (db w);
                  modentries := replace_entry e (snd r);
                  moddependencies := moddependencies (db w) |},
     Ok (e, snd (fst r))).
Proof.
  unfold readable, name_of. intros Hr.
  destruct (j_name m) as [n|] eqn:En; [|discriminate].
  destruct (j_version m) as [v|] eqn:Ev; [|discriminate].
  destruct (j_filename m) as [f|] eqn:Ef; [|discriminate].
  unfold save_mod_instance, found_or_new, updated_entry.
  rewrite En, Ev, Ef. run_db.
  destruct (find (entry_matches n (svc_id (service self))) (modentries (db w)));
    reflexivity.
Qed.

(** Without one of them it raises [KeyError]. *)
Lemma save_mod_instance_unreadable (self : ServiceUpdater) (m : ModJson) (w : World) :
  readable m = false ->
  exists k, snd (save_mod_instance self m w) = Raise (KeyError k).
Proof.
  unfold readable. intros Hr. unfold save_mod_instance.
  destruct (j_name m) as [n|] eqn:En.
  - destruct (j_version m) as [v|] eqn:Ev.
    + destruct (j_filename m) as [f|] eqn:Ef; [discriminate|].
      exists "filename". run_db.
      destruct (find _ _); reflexivity.
    + exists "version". run_db. destruct (find _ _); reflexivity.
  - exists "name". reflexivity.
Qed.

Lemma save_mod_instance_ok_readable (self : ServiceUpdater) (m : ModJson)
    (w w' : World) (r : ModEntry * bool) :
  save_mod_instance self m w = (w', Ok r) -> readable m = true.
Proof.
  intros H. destruct (readable m) eqn:E; [reflexivity|].
  destruct (save_mod_instance_unreadable self m w E) as [k Hk].
  rewrite H in Hk. discriminate.
Qed.

Lemma find_replace_entry (n : string) (s : nat) (e e' : ModEntry)
    (tbl : list ModEntry) :
  find (entry_matches n s) tbl = Some e ->
  e_id e' = e_id e -> entry_matches n s e' = true ->
  find (entry_matches n s) (replace_entry e' tbl) = Some e'.
Proof.
  intros Hf Hid Hm. induction tbl as [|r tbl IH]; simpl in *; [discriminate|].
  destruct (e_id r =? e_id e')%nat eqn:Er.
  - now rewrite Hm.
  - destruct (entry_matches n s r) eqn:Emr.
    + inversion Hf; subst r. rewrite Hid, Nat.eqb_refl in Er. discriminate.
    + now apply IH.
Qed.

Lemma find_app_none {A} (p : A -> bool) (l : list A) (x : A) :
  find p l = None -> find p (l ++ [x]) = if p x then Some x else None.
Proof.
  induction l as [|a l IH]; simpl; [reflexivity|].
  destruct (p a); [discriminate | exact IH].
Qed.

Lemma list_max_lt (l : list nat) (x : nat) : In x l -> x < S (list_max l).
Proof.
  intros H. apply Nat.lt_succ_r.
  pose proof (proj1 (list_max_le l (list_max l)) (Nat.le_refl _)) as Hall.
  rewrite Forall_forall in Hall. now apply Hall.
Qed.

Lemma next_id_fresh (tbl : list ModEntry) (e : ModEntry) :
  In e tbl -> e_id e <> next_id tbl.
Proof.
  intros H. unfold next_id.
  assert (e_id e < S (list_max (map e_id tbl))) by (apply list_max_lt, in_map, H).
  lia.
Qed.

Lemma replace_entry_fresh (e : ModEntry) (tbl : list ModEntry) :
  (forall r, In r tbl -> e_id r <> e_id e) -> replace_entry e tbl = tbl.
Proof.
  intros H. unfold replace_entry. rewrite <- (map_id tbl) at 2.
  apply map_ext_in. intros r Hr.
  destruct (Nat.eqb_spec (e_id r) (e_id e)); [now apply H in Hr | reflexivity].
Qed.

Lemma replace_entry_new (e' : ModEntry) (tbl : list ModEntry) (n : string) (s : nat) :
  e_id e' = next_id tbl ->
  replace_entry e' (tbl ++ [new_entry (next_id tbl) n s]) = tbl ++ [e'].
Proof.
  intros Hid. unfold replace_entry at 1. rewrite map_app. f_equal.
  - apply (replace_entry_fresh e' tbl).
    intros r Hr. rewrite Hid. now apply next_id_fresh.
  - cbn [map]. change (e_id (new_entry (next_id tbl) n s)) with (next_id tbl).
    now rewrite Hid, Nat.eqb_refl.
Qed.

Lemma stored_after_upsert (m : ModJson) (n : string) (s : nat) (tbl : list ModEntry) :
  let r := found_or_new n s tbl in
  let e := updated_entry m s (fst (fst r)) in
  find (entry_matches n s) (replace_entry e (snd r)) = Some e.
Proof.
  simpl. pose proof (found_or_new_key n s tbl) as [Hn Hs]. simpl in Hn, Hs.
  assert (Hm : entry_matches n s (updated_entry m s (fst (fst (found_or_new n s tbl)))) = true).
  { unfold entry_matches.
    rewrite updated_entry_name, updated_entry_service, Hn, String.eqb_refl, Nat.eqb_refl.
    reflexivity. }
  revert Hm. unfold found_or_new.
  destruct (find (entry_matches n s) tbl) eqn:E; simpl; intros Hm.
  - apply find_replace_entry with (e := m0); auto. apply updated_entry_id.
  - rewrite replace_entry_new by apply updated_entry_id.
    rewrite find_app_none by assumption. now rewrite Hm.
Qed.

(** C6. When [save_mod_instance] returns, the row it returns is the one
    now stored under (name, service); version, filename and service are
    the object's and the updater's whatever was stored; and each of
    description, filehash, filesize, homepage, author is the object's
    value when that value is present and truthy, and otherwise what the
    row held before (what a fresh row holds, when the entry is new). *)
Theorem save_mod_instance_fields :
  forall (self : ServiceUpdater) (m : ModJson) (w w' : World)
         (modentry : ModEntry) (created : bool),
    save_mod_instance self m w = (w', Ok (modentry, created)) ->
    let s := svc_id (service self) in
    let previous :=
      match find (entry_matches (name_of m) s) (modentries (db w)) with
      | Some e => e
      | None => new_entry (next_id (modentries (db w))) (name_of m) s
      end in
    find (entry_matches (name_of m) s) (modentries (db w')) = Some modentry
    /\ (forall f : Field,
          getattr modentry f
          = if truthy (mod_get m f) then mod_get m f else getattr previous f)
    /\ j_version m = Some (e_version modentry)
    /\ j_filename m = Some (e_filename modentry)
    /\ e_service modentry = s
    /\ e_name modentry = name_of m
    /\ e_id modentry = e_id previous
    /\ created = match find (entry_matches (name_of m) s) (modentries (db w)) with
                 | Some _ => false
                 | None => true
                 end.
Proof.
  intros self m w w' modentry created H s previous.
  pose proof (save_mod_instance_ok_readable _ _ _ H) as Hr.
  rewrite (save_mod_instance_run self m w Hr) in H.
  injection H as Hw He Hc. fold s in Hw, He, Hc.
  assert (Hprev : fst (fst (found_or_new (name_of m) s (modentries (db w)))) = previous).
  { unfold found_or_new, previous. now destruct (find _ _). }
  rewrite Hprev in He. subst modentry created w'. simpl.
  split; [rewrite <- Hprev; apply stored_after_upsert|].
  split; [intros f; apply updated_entry_getattr|].
  split; [now apply updated_entry_version|].
  split; [now apply updated_entry_filename|].
  split; [apply updated_entry_service|].
  split.
  { rewrite updated_entry_name, <- Hprev.
    apply (found_or_new_key (name_of m) s (modentries (db w))). }
  split; [apply updated_entry_id|].
  unfold found_or_new. now destruct (find _ _).
Qed.

(* ================================================================= *)
(** ** The [update_mods] loop *)

Lemma count_one_service (s : nat) (m : ModJson) (st : Store) (self : ServiceUpdater) :
  service (count_one s m st self) = service self.
Proof. unfold count_one. now destruct (snd _). Qed.

Lemma update_mods_cons (self : ServiceUpdater) (m : ModJson)
    (modlist : list ModJson) (w : World) :
  readable m = true ->
  let s := svc_id (service self) in
  update_mods self (m :: modlist) w
  = update_mods (count_one s m (db w) self) modlist
                (with_db w (sync_one s m (db w))).
Proof.
  intros Hr s. unfold update_mods at 1. cbn [for_each].
  unfold bind at 1. unfold bind at 1.
  rewrite (save_mod_instance_run self m w Hr). fold s. cbn [fst snd].
  unfold bind at 1. rewrite set_dependency_relation_run.
  unfold bind at 1. rewrite set_dependency_relation_run.
  unfold bind at 1. rewrite set_dependency_relation_run.
  unfold bind at 1. rewrite set_dependency_relation_run.
  unfold ret at 1. unfold with_db, with_dependencies. cbn [db logged modservices
    modentries moddependencies].
  unfold update_mods, sync_one, count_one, resync_all. reflexivity.
Qed.

Lemma update_mods_cons_unreadable (self : ServiceUpdater) (m : ModJson)
    (modlist : list ModJson) (w : World) :
  readable m = false ->
  exists k, snd (update_mods self (m :: modlist) w) = Raise (KeyError k).
Proof.
  intros Hr. destruct (save_mod_instance_unreadable self m w Hr) as [k Hk].
  exists k. unfold update_mods. cbn [for_each].
  unfold bind at 1. unfold bind at 1.
  destruct (save_mod_instance self m w) as [w1 [r|x]]; simpl in *;
    [discriminate | inversion Hk; reflexivity].
Qed.

Lemma update_mods_run (modlist : list ModJson) :
  forall (self : ServiceUpdater) (w : World),
    forallb readable modlist = true ->
    let s := svc_id (service self) in
    update_mods self modlist w
    = (with_db w (sync_all s modlist (db w)), Ok (count_all s modlist (db w) self)).
Proof.
  induction modlist as [|m ml IH]; intros self w Hall s.
  - unfold update_mods, with_db. simpl. unfold ret. now rewrite world_eta.
  - simpl in Hall. apply andb_prop in Hall as [Hm Hall].
    rewrite update_mods_cons by assumption. fold s.
    rewrite IH by assumption. rewrite count_one_service. reflexivity.
Qed.

Lemma update_mods_ok_readable (modlist : list ModJson) :
  forall (self self' : ServiceUpdater) (w w' : World),
    update_mods self modlist w = (w', Ok self') ->
    forallb readable modlist = true.
Proof.
  induction modlist as [|m ml IH]; intros self self' w w' H; [reflexivity|].
  simpl. destruct (readable m) eqn:Hm.
  - rewrite update_mods_cons in H by assumption. simpl. now apply IH in H.
  - destruct (update_mods_cons_unreadable self m ml w Hm) as [k Hk].
    rewrite H in Hk. discriminate.
Qed.

(* ================================================================= *)
(** ** Self-provision *)

Lemma ids_replace_entry (e : ModEntry) (tbl : list ModEntry) :
  map e_id (replace_entry e tbl) = map e_id tbl.
Proof.
  unfold replace_entry. rewrite map_map. apply map_ext.
  intros r. destruct (Nat.eqb_spec (e_id r) (e_id e)); congruence.
Qed.

Lemma found_or_new_ids (n : string) (s : nat) (tbl : list ModEntry) :
  NoDup (map e_id tbl) -> NoDup (map e_id (snd (found_or_new n s tbl))).
Proof.
  intros Hnd. unfold found_or_new.
  destruct (find (entry_matches n s) tbl); simpl; [assumption|].
  rewrite map_app. simpl. apply NoDup_app; [assumption | repeat constructor; simpl; tauto |].
  intros x Hx [Hn|[]]. subst x.
  apply in_map_iff in Hx as [r [Hr Hin]].
  now apply next_id_fresh in Hin.
Qed.

Lemma sync_one_unique_ids (s : nat) (m : ModJson) (st : Store) :
  unique_ids st -> unique_ids (sync_one s m st).
Proof.
  unfold unique_ids, sync_one. simpl. intros H.
  rewrite ids_replace_entry. now apply found_or_new_ids.
Qed.

Lemma sync_all_unique_ids (s : nat) (modlist : list ModJson) :
  forall st, unique_ids st -> unique_ids (sync_all s modlist st).
Proof.
  induction modlist as [|m ml IH]; intros st H; [assumption|].
  simpl. apply IH. now apply sync_one_unique_ids.
Qed.

Lemma same_id_same_row (tbl : list ModEntry) (a b : ModEntry) :
  NoDup (map e_id tbl) -> In a tbl -> In b tbl -> e_id a = e_id b -> a = b.
Proof.
  induction tbl as [|r tbl IH]; simpl; intros Hnd Ha Hb Hid; [contradiction|].
  inversion Hnd as [|? ? Hnotin Hnd']; subst.
  destruct Ha as [Ha|Ha], Hb as [Hb|Hb]; subst.
  - reflexivity.
  - elim Hnotin. rewrite Hid. now apply in_map.
  - elim Hnotin. rewrite <- Hid. now apply in_map.
  - now apply IH.
Qed.

Lemma find_replace_entry_other (p : ModEntry -> bool) (e' : ModEntry)
    (tbl : list ModEntry) :
  (forall r, In r tbl -> e_id r = e_id e' -> p r = false) ->
  p e' = false ->
  find p (replace_entry e' tbl) = find p tbl.
Proof.
  intros Hrows He'. induction tbl as [|r tbl IH]; simpl; [reflexivity|].
  destruct (Nat.eqb_spec (e_id r) (e_id e')) as [Heq|Hne].
  - rewrite He', (Hrows r (or_introl eq_refl) Heq).
    apply IH. intros r' Hr'. apply Hrows. now right.
  - destruct (p r); [reflexivity|].
    apply IH. intros r' Hr'. apply Hrows. now right.
Qed.

Lemma find_app_some {A} (p : A -> bool) (l l' : list A) (x : A) :
  find p l = Some x -> find p (l ++ l') = Some x.
Proof.
  induction l as [|a l IH]; simpl; [discriminate|].
  destruct (p a); [trivial | exact IH].
Qed.

Lemma entry_matches_other_name (n n' : string) (s : nat) (e : ModEntry) :
  e_name e = n' -> n <> n' -> entry_matches n s e = false.
Proof.
  intros He Hne. unfold entry_matches. rewrite He.
  destruct (String.eqb_spec n' n); [now elim Hne | reflexivity].
Qed.

(** The row another name's upsert finds or makes is not this one. *)
Lemma upsert_keeps_other (n : string) (s : nat) (m : ModJson) (tbl : list ModEntry)
    (e : ModEntry) :
  NoDup (map e_id tbl) ->
  find (entry_matches n s) tbl = Some e ->
  n <> name_of m ->
  let r := found_or_new (name_of m) s tbl in
  let e' := updated_entry m s (fst (fst r)) in
  find (entry_matches n s) (replace_entry e' (snd r)) = Some e
  /\ e_id e <> e_id e'.
Proof.
  intros Hnd Hfind Hne. simpl.
  pose proof (find_some _ _ Hfind) as [Hin _].
  pose proof (find_matches_name _ _ _ Hfind) as [Hname _].
  unfold found_or_new.
  destruct (find (entry_matches (name_of m) s) tbl) as [e0|] eqn:E0; simpl.
  - pose proof (find_some _ _ E0) as [Hin0 _].
    pose proof (find_matches_name _ _ _ E0) as [Hname0 _].
    assert (Hids : e_id e <> e_id e0).
    { intros Hid. apply (same_id_same_row _ _ _ Hnd Hin Hin0) in Hid. subst e0.
      congruence. }
    rewrite updated_entry_id. split; [|assumption].
    rewrite find_replace_entry_other; [assumption| |].
    + intros r Hr Hid. rewrite updated_entry_id in Hid.
      apply (same_id_same_row _ _ _ Hnd Hr Hin0) in Hid. subst r.
      now apply entry_matches_other_name with (n' := name_of m).
    + apply entry_matches_other_name with (n' := name_of m); [|assumption].
      now rewrite updated_entry_name.
  - rewrite updated_entry_id. simpl.
    split; [|now apply next_id_fresh].
    rewrite replace_entry_new by apply updated_entry_id.
    now apply find_app_some.
Qed.

Lemma in_resync_other (i : nat) (r : Z) (keywords : list string)
    (tbl : list ModDependency) (d : ModDependency) :
  In d tbl -> dep_mod d <> i -> In d (resync i r keywords tbl).
Proof.
  intros Hin Hne. unfold resync, delete_owned. apply in_or_app. left.
  apply filter_In. split; [assumption|].
  unfold owned_by. destruct (Nat.eqb_spec (dep_mod d) i); [contradiction | reflexivity].
Qed.

Lemma in_resync_all_other (i : nat) (n : string) (m : ModJson)
    (tbl : list ModDependency) (d : ModDependency) :
  In d tbl -> dep_mod d <> i -> In d (resync_all i n m tbl).
Proof.
  intros Hin Hne. unfold resync_all.
  repeat apply in_resync_other; assumption.
Qed.

Lemma in_resync_kept (i : nat) (r r' : Z) (keywords : list string)
    (tbl : list ModDependency) (d : ModDependency) :
  In d tbl -> dep_relation d <> r -> In d (resync i r keywords tbl).
Proof.
  intros Hin Hne. unfold resync, delete_owned. apply in_or_app. left.
  apply filter_In. split; [assumption|].
  unfold owned_by. destruct (Z.eqb_spec (dep_relation d) r); [contradiction|].
  now rewrite andb_false_r.
Qed.

Lemma provides_self_edge (i : nat) (n : string) (m : ModJson)
    (tbl : list ModDependency) :
  In {| dep_mod := i; dep_relation := 1; dep_dependency := n |}
     (resync_all i n m tbl).
Proof.
  unfold resync_all.
  apply in_resync_kept; [exact 0%Z| |simpl; lia].
  apply in_resync_kept; [exact 0%Z| |simpl; lia].
  unfold resync at 1. apply in_or_app. right. simpl. now left.
Qed.

Lemma in_get_dependency_info (st : Store) (e : ModEntry) (r : Z) (k : string) :
  In k (get_dependency_info st {| mod_ := e |} r)
  <-> In {| dep_mod := e_id e; dep_relation := r; dep_dependency := k |}
         (moddependencies st).
Proof.
  unfold get_dependency_info, select_owned. simpl. rewrite in_map_iff. split.
  - intros [d [Hk Hd]]. apply filter_In in Hd as [Hin Ho].
    unfold owned_by in Ho. apply andb_prop in Ho as [H1 H2].
    apply Nat.eqb_eq in H1. apply Z.eqb_eq in H2.
    destruct d; simpl in *. now subst.
  - intros Hin. eexists. split; [|apply filter_In; split; [exact Hin|]].
    + reflexivity.
    + unfold owned_by. simpl. now rewrite Nat.eqb_refl, Z.eqb_refl.
Qed.

(** One round gives the object's entry its self-provision... *)
Lemma sync_one_self_provided (s : nat) (m : ModJson) (st : Store) :
  self_provided s (sync_one s m st) (name_of m).
Proof.
  unfold self_provided.
  set (r := found_or_new (name_of m) s (modentries st)).
  set (e := updated_entry m s (fst (fst r))).
  assert (Hname : e_name e = name_of m).
  { unfold e. rewrite updated_entry_name.
    apply (found_or_new_key (name_of m) s (modentries st)). }
  exists e. split; [apply stored_after_upsert|]. split; [assumption|].
  apply in_get_dependency_info. unfold sync_one. fold r. fold e. simpl.
  rewrite <- Hname. apply provides_self_edge.
Qed.

(** ... and leaves the self-provision of the others. *)
Lemma sync_one_keeps_self_provided (s : nat) (m : ModJson) (st : Store) (n : string) :
  unique_ids st -> self_provided s st n -> self_provided s (sync_one s m st) n.
Proof.
  intros Hnd Hsp. destruct (string_dec n (name_of m)) as [->|Hne].
  - apply sync_one_self_provided.
  - destruct Hsp as [e [Hfind [Hname Hin]]].
    destruct (@upsert_keeps_other n s m _ e Hnd Hfind Hne) as [Hfind' Hid].
    exists e. split; [exact Hfind'|]. split; [assumption|].
    apply in_get_dependency_info. apply in_get_dependency_info in Hin.
    unfold sync_one. simpl. now apply in_resync_all_other.
Qed.

Lemma sync_all_keeps_self_provided (s : nat) (modlist : list ModJson) (n : string) :
  forall st,
    unique_ids st -> self_provided s st n ->
    self_provided s (sync_all s modlist st) n.
Proof.
  induction modlist as [|m ml IH]; intros st Hnd Hsp; [assumption|].
  simpl. apply IH.
  - now apply sync_one_unique_ids.
  - now apply sync_one_keeps_self_provided.
Qed.

Lemma sync_all_self_provided (s : nat) (modlist : list ModJson) (m : ModJson) :
  forall st,
    unique_ids st -> In m modlist ->
    self_provided s (sync_all s modlist st) (name_of m).
Proof.
  induction modlist as [|m0 ml IH]; intros st Hnd Hin; [contradiction|].
  simpl. destruct Hin as [->|Hin].
  - apply sync_all_keeps_self_provided.
    + now apply sync_one_unique_ids.
    + apply sync_one_self_provided.
  - apply IH; [now apply sync_one_unique_ids | assumption].
Qed.

(** C4. After a pass of [update_mods] that returns, on a table whose
    ids are unique, every object of the manifest has its entry stored
    under (name, service), and that entry's Provides rows contain a row
    whose keyword is the entry's own name, whatever the object's
    ["provides"] list holds. *)
Theorem self_provision_after_update_mods :
  forall (self self' : ServiceUpdater) (modlist : list ModJson) (w w' : World),
    unique_ids (db w) ->
    update_mods self modlist w = (w', Ok self') ->
    forall m, In m modlist ->
      exists e,
        find (entry_matches (name_of m) (svc_id (service self)))
             (modentries (db w')) = Some e
        /\ e_name e = name_of m
        /\ In (e_name e) (get_dependency_info (db w') {| mod_ := e |} Provides).
Proof.
  intros self self' modlist w w' Hnd H m Hin.
  pose proof (update_mods_ok_readable _ _ _ H) as Hall.
  rewrite (update_mods_run modlist self w Hall) in H.
  injection H as Hw _. subst w'. simpl.
  destruct (sync_all_self_provided (svc_id (service self)) modlist m Hnd Hin)
    as [e [Hf [Hn Hp]]].
  exists e. rewrite Hn. auto.
Qed.

(* ================================================================= *)
(** ** The digest check *)

Section CheckFile.

Variable hash_state : Type.
Variable hasher : hash_state.
Variable hash_update : hash_state -> list byte -> hash_state.
Variable hash_digest : hash_state -> list byte.
Variable encode_base64 : list byte -> string.

Lemma read_length (n : N) (rest : list byte) :
  List.length (fst (read n rest)) + List.length (snd (read n rest))
  = List.length rest.
Proof.
  unfold read. cbn [fst snd].
  rewrite <- (firstn_skipn (N.to_nat n) rest) at 3.
  now rewrite length_app.
Qed.

(** The read loop ends: every round takes a non-empty block off what
    is left of the file. *)
Lemma hash_blocks_ends (fuel : nat) :
  forall (h : hash_state) (buf rest : list byte),
    List.length buf + List.length rest < fuel ->
    exists h', hash_blocks hash_update fuel h buf rest = Some h'.
Proof.
  induction fuel as [|fuel IH]; intros h buf rest Hlt; [lia|].
  cbn [hash_blocks].
  destruct (Nat.ltb_spec 0 (List.length buf)) as [Hpos|Hzero].
  - pose proof (read_length BLOCKSIZE rest) as Hlen.
    destruct (read BLOCKSIZE rest) as [buf' rest']. cbn [fst snd] in Hlen.
    apply IH. lia.
  - now exists h.
Qed.

Lemma filehash_of_total (content : list byte) :
  exists s, filehash_of hasher hash_update hash_digest encode_base64 content = Some s.
Proof.
  unfold filehash_of.
  pose proof (read_length BLOCKSIZE content) as Hlen.
  destruct (read BLOCKSIZE content) as [buf rest]. cbn [fst snd] in Hlen.
  destruct (hash_blocks_ends (fuel := S (List.length content)) hasher buf rest)
    as [h' Hh]; [lia|].
  rewrite Hh. eauto.
Qed.

Lemma create_filehash_readable (fs : string -> option (list byte)) (path : string)
    (content : list byte) :
  fs path = Some content ->
  exists h,
    filehash_of hasher hash_update hash_digest encode_base64 content = Some h
    /\ create_filehash hasher hash_update hash_digest encode_base64 fs path = Ok h.
Proof.
  intros Hfs. destruct (filehash_of_total content) as [h Hh].
  exists h. split; [assumption|].
  unfold create_filehash. now rewrite Hfs, Hh.
Qed.

Lemma str_eq_value_true (h : string) (v : value) :
  str_eq_value h v = true <-> v = VStr h.
Proof.
  destruct v; simpl; try (split; [discriminate | intros H; discriminate]).
  rewrite String.eqb_eq. split; [intros ->; reflexivity | intros H; now inversion H].
Qed.

(** C10. Without a stored digest [check_file] does not look at the
    file: whatever the file system and the path, it returns
    [approve_if_no_dbhash], so two runs that differ only in those
    return the same. *)
Theorem check_file_ignores_file_without_digest :
  forall (fs1 fs2 : string -> option (list byte)) (self : ModInstance)
         (path1 path2 : string) (approve_if_no_dbhash : bool),
    truthy (e_filehash (mod_ self)) = false ->
    check_file hasher hash_update hash_digest encode_base64
               fs1 self path1 approve_if_no_dbhash
    = check_file hasher hash_update hash_digest encode_base64
                 fs2 self path2 approve_if_no_dbhash
    /\ check_file hasher hash_update hash_digest encode_base64
                  fs1 self path1 approve_if_no_dbhash
       = Ok approve_if_no_dbhash.
Proof.
  intros fs1 fs2 self path1 path2 approve Hf.
  unfold check_file. rewrite Hf. split; reflexivity.
Qed.

End CheckFile.

(* ================================================================= *)
(** ** Flattening a record *)

Lemma first_seen_in (l : list string) (k : string) :
  In k (first_seen l) <-> In k l.
Proof.
  induction l as [|a l IH]; simpl; [tauto|].
  rewrite filter_In, IH. split.
  - intros [H|[H _]]; auto.
  - intros [H|H]; [now left|].
    destruct (string_dec a k) as [->|Hne]; [now left|].
    right. split; [assumption|].
    destruct (String.eqb_spec k a); [congruence | reflexivity].
Qed.

Lemma NoDup_filter {A} (p : A -> bool) (l : list A) :
  NoDup l -> NoDup (filter p l).
Proof.
  induction 1 as [|a l Hnotin Hnd IH]; simpl; [constructor|].
  destruct (p a); [|assumption].
  constructor; [|assumption].
  intros Hin. apply filter_In in Hin. tauto.
Qed.

Lemma first_seen_NoDup (l : list string) : NoDup (first_seen l).
Proof.
  induction l as [|a l IH]; simpl; constructor.
  - intros Hin. apply filter_In in Hin as [_ H].
    now rewrite String.eqb_refl in H.
  - now apply NoDup_filter.
Qed.

Lemma first_seen_snoc (l : list string) (k : string) :
  first_seen (l ++ [k])
  = if in_dec string_dec k l then first_seen l else first_seen l ++ [k].
Proof.
  induction l as [|a l IH]; simpl; [reflexivity|].
  rewrite IH.
  destruct (in_dec string_dec k l) as [Hin|Hnotin].
  - destruct (string_dec a k); reflexivity.
  - destruct (string_dec a k) as [->|Hne].
    + rewrite filter_app. simpl. rewrite String.eqb_refl. simpl.
      now rewrite app_nil_r.
    + rewrite filter_app. simpl.
      destruct (String.eqb_spec k a); [congruence|]. reflexivity.
Qed.

(** [d[tag].append(t)] on a dict given key by key. *)
Lemma dd_append_keys (tag : string) (t : triple) (f : string -> list triple)
    (ks : list string) :
  NoDup ks ->
  dd_append tag t (map (fun k => (k, f k)) ks)
  = if in_dec string_dec tag ks
    then map (fun k => (k, if k =? tag then f k ++ [t] else f k)) ks
    else map (fun k => (k, f k)) ks ++ [(tag, [t])].
Proof.
  induction 1 as [|a ks Hnotin Hnd IH]; simpl; [reflexivity|].
  destruct (String.eqb_spec a tag) as [->|Hne].
  - destruct (string_dec tag tag); [|congruence].
    f_equal. apply map_ext_in. intros k Hk.
    destruct (String.eqb_spec k tag); [congruence | reflexivity].
  - rewrite IH. destruct (string_dec a tag); [congruence|].
    destruct (in_dec string_dec tag ks); reflexivity.
Qed.

Lemma triples_for_snoc (k : string) (calls : list Recorded) (c : Recorded) :
  triples_for k (calls ++ [c])
  = triples_for k calls ++ (if r_tag c =? k then [triple_of c] else []).
Proof.
  unfold triples_for. rewrite filter_app, map_app. simpl.
  now destruct (r_tag c =? k).
Qed.

Lemma triples_for_absent (k : string) (calls : list Recorded) :
  ~ In k (map r_tag calls) -> triples_for k calls = [].
Proof.
  intros H. unfold triples_for.
  induction calls as [|c calls IH]; simpl in *; [reflexivity|].
  destruct (String.eqb_spec (r_tag c) k); [tauto|]. apply IH. tauto.
Qed.

(** The record keeps the keywords in the order they were first
    recorded, each with its triples in the order of the calls. *)
Lemma depmap_record_of (calls : list Recorded) :
  depmap (record_of calls)
  = map (fun k => (k, triples_for k calls)) (first_seen (map r_tag calls)).
Proof.
  induction calls as [|c calls IH] using rev_ind; [reflexivity|].
  unfold record_of. rewrite fold_left_app. simpl.
  fold (record_of calls). rewrite IH.
  rewrite dd_append_keys by apply first_seen_NoDup.
  rewrite map_app. simpl. rewrite first_seen_snoc.
  destruct (in_dec string_dec (r_tag c) (first_seen (map r_tag calls))) as [Hin|Hnotin];
    destruct (in_dec string_dec (r_tag c) (map r_tag calls)) as [Hin'|Hnotin'];
    try (elim Hnotin'; exact (proj1 (first_seen_in _ _) Hin));
    try (elim Hnotin; exact (proj2 (first_seen_in _ _) Hin')).
  - apply map_ext. intros k. rewrite triples_for_snoc.
    rewrite (String.eqb_sym k). destruct (r_tag c =? k);
      [reflexivity | now rewrite app_nil_r].
  - rewrite map_app. simpl. f_equal.
    + apply map_ext_in. intros k Hk. rewrite triples_for_snoc.
      destruct (String.eqb_spec (r_tag c) k) as [Heq|Hne]; [|now rewrite app_nil_r].
      subst k. elim Hnotin'. exact (proj1 (first_seen_in _ _) Hk).
    + rewrite triples_for_snoc, triples_for_absent by assumption.
      now rewrite String.eqb_refl.
Qed.

Lemma dd_get_keys (f : string -> list triple) (ks : list string) (k : string) :
  In k ks -> dd_get k (map (fun k => (k, f k)) ks) = f k.
Proof.
  induction ks as [|a ks IH]; simpl; [contradiction|].
  intros [->|Hin].
  - now rewrite String.eqb_refl.
  - destruct (String.eqb_spec a k) as [->|Hne]; [reflexivity | now apply IH].
Qed.

Lemma filter_head_provider (calls : list Recorded) (relation : Z) (k : string) :
  match _filter (triples_for k calls) relation with
  | first :: _ => [fst (fst first)]
  | [] => []
  end = first_provider calls relation k.
Proof.
  unfold first_provider, triples_for.
  induction calls as [|c calls IH]; simpl; [reflexivity|].
  destruct (r_tag c =? k); simpl; [|exact IH].
  destruct (r_relation c =? relation)%Z; [reflexivity | exact IH].
Qed.

Lemma simple_get_mods_loop (d : list (string * list triple)) (relation : Z)
    (ks : list string) :
  forall acc,
    fold_left
      (fun l dep =>
         match _filter (dd_get dep d) relation with
         | first :: _ => l ++ [fst (fst first)]
         | [] => l
         end) ks acc
    = acc ++ flat_map
               (fun dep =>
                  match _filter (dd_get dep d) relation with
                  | first :: _ => [fst (fst first)]
                  | [] => []
                  end) ks.
Proof.
  induction ks as [|k ks IH]; intros acc; simpl; [now rewrite app_nil_r|].
  rewrite IH. destruct (_filter (dd_get k d) relation).
  - reflexivity.
  - now rewrite <- app_assoc.
Qed.

Lemma flat_map_ext_on {A B} (f g : A -> list B) (l : list A) :
  (forall x, In x l -> f x = g x) -> flat_map f l = flat_map g l.
Proof.
  induction l as [|a l IH]; intros H; simpl; [reflexivity|].
  rewrite (H a (or_introl eq_refl)), IH; [reflexivity|].
  intros x Hx. apply H. now right.
Qed.

Lemma dd_get_absent (f : string -> list triple) (ks : list string) (k : string) :
  ~ In k ks -> dd_get k (map (fun k => (k, f k)) ks) = [].
Proof.
  induction ks as [|a ks IH]; simpl; [reflexivity|].
  intros Hnotin. destruct (String.eqb_spec a k) as [->|Hne]; [tauto|].
  apply IH. tauto.
Qed.

(** Looking a keyword up in the record gives the triples recorded under
    it, none for a keyword that was never recorded. *)
Lemma dd_get_record_of (calls : list Recorded) (k : string) :
  dd_get k (depmap (record_of calls)) = triples_for k calls.
Proof.
  rewrite depmap_record_of.
  destruct (in_dec string_dec k (first_seen (map r_tag calls))) as [Hin|Hnotin].
  - now apply dd_get_keys.
  - rewrite dd_get_absent by assumption. symmetry. apply triples_for_absent.
    intros Hin. apply Hnotin. now apply first_seen_in.
Qed.

Lemma simple_get_mods_record_of (iter_keys : list string -> list string)
    (calls : list Recorded) (relation : Z) :
  simple_get_mods iter_keys (record_of calls) relation
  = flat_map (first_provider calls relation)
             (iter_keys (map fst (depmap (record_of calls)))).
Proof.
  unfold simple_get_mods. rewrite simple_get_mods_loop. simpl.
  apply flat_map_ext_on.
  intros k _. rewrite dd_get_record_of. apply filter_head_provider.
Qed.

(** The dict model on orders CPython 2.7 is known for: [hash('a')] on
    a 64-bit build, the keys of [{'a': 1, 'b': 2, 'c': 3}] and of
    [dict.fromkeys('abcdefgh')], the second after a resize. *)
Example py2_dict_orders :
  Py2Dict.string_hash "a" = 12416037344%Z
  /\ Py2Dict.keys ["a"; "b"; "c"] = ["a"; "c"; "b"]
  /\ Py2Dict.keys ["a"; "b"; "c"; "d"; "e"; "f"; "g"; "h"]
     = ["a"; "c"; "b"; "e"; "d"; "g"; "f"; "h"]
  /\ Py2Dict.keys ["b"; "a"] = ["a"; "b"].
Proof. vm_compute. repeat split. Qed.

(** C2 (as stated). On a record that got "b" before "a", the loop of
    [simple_get_mods] over a Python 2 dict takes "a" first and gives A
    before B, where the wording, going by the order of insertion, gives
    B before A. *)
Lemma simple_get_mods_not_insertion_order :
  simple_get_mods Py2Dict.keys (record_of calls_ba) Requires
  <> flatten_as_specified (record_of calls_ba) Requires.
Proof. vm_compute. discriminate. Qed.

(** The two lists there. *)
Example simple_get_mods_of_ba :
  simple_get_mods Py2Dict.keys (record_of calls_ba) Requires
  = [{| mod_ := entry_A |}; {| mod_ := entry_B |}]
  /\ flatten_as_specified (record_of calls_ba) Requires
     = [{| mod_ := entry_B |}; {| mod_ := entry_A |}].
Proof. vm_compute. split; reflexivity. Qed.

(** C2 (amended). For a record built by any sequence of
    [add_dependency] calls, the record's keywords are those of the
    calls, each once. [simple_get_mods] goes through them in the order
    the dict hands them out, whatever that order is, and gives, for each
    keyword that has a recorded triple of the relation asked for, the
    provider of the first such triple recorded, and nothing for the
    other keywords. When the dict hands out every key once, the result
    is the list the wording describes, up to the order of the
    keywords. *)
Theorem simple_get_mods_first_recorded :
  forall (iter_keys : list string -> list string) (calls : list Recorded)
         (relation : Z),
    map fst (depmap (record_of calls)) = first_seen (map r_tag calls)
    /\ simple_get_mods iter_keys (record_of calls) relation
       = flat_map (first_provider calls relation)
                  (iter_keys (first_seen (map r_tag calls)))
    /\ ((forall stored, NoDup stored -> Permutation stored (iter_keys stored)) ->
        Permutation (simple_get_mods iter_keys (record_of calls) relation)
                    (flatten_as_specified (record_of calls) relation)).
Proof.
  intros iter_keys calls relation.
  assert (Hkeys : map fst (depmap (record_of calls)) = first_seen (map r_tag calls)).
  { rewrite depmap_record_of, map_map. simpl. apply map_id. }
  split; [exact Hkeys|]. split.
  - now rewrite simple_get_mods_record_of, Hkeys.
  - intros Hperm. unfold flatten_as_specified.
    rewrite !simple_get_mods_record_of, Hkeys.
    apply Permutation_flat_map, Permutation_sym, Hperm, first_seen_NoDup.
Qed.

(* ================================================================= *)
(** ** The batch refresh *)

Lemma for_each_app {A S} (body : S -> A -> M S) (l1 l2 : list A) :
  forall (s : S) (w : World),
    for_each body (l1 ++ l2) s w
    = match for_each body l1 s w with
      | (w', Ok s') => for_each body l2 s' w'
      | (w', Raise e) => (w', Raise e)
      end.
Proof.
  induction l1 as [|x l1 IH]; intros s w; simpl; [reflexivity|].
  unfold bind. destruct (body s x w) as [w1 [s1|e]]; [apply IH | reflexivity].
Qed.

Lemma update_services_unfold (get_json : string -> result Manifest) (w : World) :
  ModDb.update_services get_json w
  = match for_each (update_one get_json) (modservices (db w)) tt w with
    | (w', Ok a) => (w', Ok a)
    | (w', Raise e) => ({| db := db w; logged := logged w' |}, Raise e)
    end.
Proof. reflexivity. Qed.

(** C3. [update_services] is all or nothing on the database. If the
    refresh of some service raises, after the services before it were
    refreshed, [update_services] raises the same exception and the
    database is the one it started from, the writes of the earlier
    services included; if no refresh raises, the database is the one
    the refreshes leave one after the other. In every case the result
    is one of the two. *)
Theorem update_services_all_or_nothing :
  forall (get_json : string -> result Manifest) (w : World),
    (forall pre s post w_mid w_fail e,
        modservices (db w) = pre ++ s :: post ->
        for_each (update_one get_json) pre tt w = (w_mid, Ok tt) ->
        update get_json (ServiceUpdater_init s) w_mid = (w_fail, Raise e) ->
        snd (ModDb.update_services get_json w) = Raise e
        /\ db (fst (ModDb.update_services get_json w)) = db w)
    /\ (forall w',
          for_each (update_one get_json) (modservices (db w)) tt w = (w', Ok tt) ->
          ModDb.update_services get_json w = (w', Ok tt))
    /\ (db (fst (ModDb.update_services get_json w)) = db w
        \/ ModDb.update_services get_json w
           = for_each (update_one get_json) (modservices (db w)) tt w).
Proof.
  intros get_json w. rewrite update_services_unfold.
  split; [|split].
  - intros pre s post w_mid w_fail e Hsvcs Hpre Hfail.
    assert (Hloop : for_each (update_one get_json) (modservices (db w)) tt w
                    = (w_fail, Raise e)).
    { rewrite Hsvcs, for_each_app, Hpre. cbn [for_each]. unfold bind at 1.
      unfold update_one at 1. unfold bind at 1. now rewrite Hfail. }
    rewrite Hloop. split; reflexivity.
  - intros w' H. now rewrite H.
  - destruct (for_each (update_one get_json) (modservices (db w)) tt w)
      as [w' [[]|e]]; [right; reflexivity | left; reflexivity].
Qed.

(* ================================================================= *)
(** ** The resolver and its wording *)

Lemma fold_fueled_candidates
    (expand' : ModInstance -> option ModDependencies -> list LogRecord -> fueled rstate)
    (expand : ModInstance -> rstate -> fueled rstate)
    (st : Store) (root : ModInstance) (relation : Z) (k : string) :
  (forall p d log, expand' p (Some d) log = expand p (d, log)) ->
  forall (candidates : list ModDependency) (s : rstate),
    fold_fueled
      (fun acc entry =>
         match entry_mod st entry with
         | Raise x => Some (Raise x)
         | Ok m =>
             let i := {| mod_ := m |} in
             let depsObject := add_dependency (fst acc) k i relation root in
             expand' i (Some depsObject) (snd acc)
         end) candidates s
    = expand_candidates expand st root relation k candidates s.
Proof.
  intros Hexp. induction candidates as [|c cs IH]; intros s; simpl; [reflexivity|].
  destruct (entry_mod st c) as [m|x]; [|reflexivity].
  rewrite Hexp. destruct (expand _ _) as [[s'|x]|]; auto.
Qed.

Lemma fold_fueled_keywords
    (expand' : ModInstance -> option ModDependencies -> list LogRecord -> fueled rstate)
    (expand : ModInstance -> rstate -> fueled rstate)
    (st : Store) (root : ModInstance) (relation : Z) :
  (forall p d log, expand' p (Some d) log = expand p (d, log)) ->
  forall (keywords : list string) (s : rstate),
    fold_fueled
      (fun acc dep =>
         let entries := select_by_keyword st 1 dep in
         let log :=
           if (List.length entries =? 0)%nat
           then snd acc ++ [LWarn dep] else snd acc in
         fold_fueled
           (fun acc entry =>
              match entry_mod st entry with
              | Raise x => Some (Raise x)
              | Ok m =>
                  let i := {| mod_ := m |} in
                  let depsObject := add_dependency (fst acc) dep i relation root in
                  expand' i (Some depsObject) (snd acc)
              end) entries (fst acc, log)) keywords s
    = expand_keywords expand st root relation keywords s.
Proof.
  intros Hexp. induction keywords as [|k ks IH]; intros s; simpl; [reflexivity|].
  rewrite (fold_fueled_candidates expand' expand st root relation k Hexp).
  unfold Provides.
  destruct (select_by_keyword st 1 k) as [|c cs] eqn:E; destruct s as [d log];
    cbn [List.length Nat.eqb fst snd].
  - simpl. apply IH.
  - destruct (expand_candidates _ _ _ _ _ _ _) as [[s'|x]|]; auto.
Qed.

(** The code is the wording of section 4.3 with the recursive call made
    for Requires. *)
Lemma resolve_dependencies_requires (fuel : nat) :
  forall (st : Store) (self : ModInstance) (relation : Z)
         (depsObject : option ModDependencies) (log : list LogRecord),
    resolve_dependencies fuel st self relation depsObject log
    = resolve_requires fuel st self relation (record_or_new depsObject, log).
Proof.
  unfold resolve_requires.
  induction fuel as [|fuel IH]; intros st self relation depsObject log;
    [reflexivity|].
  cbn [resolve_dependencies resolve_as_specified].
  apply (fold_fueled_keywords
           (fun p d l => resolve_dependencies fuel st p 0 d l)
           (fun p s' => resolve_as_specified (fun _ => Requires) fuel st p Requires s')).
  intros p d l. apply IH.
Qed.

Lemma resolve_spec_at_requires (fuel : nat) :
  forall (st : Store) (root : ModInstance) (s : rstate),
    resolve_spec fuel st root Requires s = resolve_requires fuel st root Requires s.
Proof.
  unfold resolve_spec, resolve_requires.
  induction fuel as [|fuel IH]; intros st root s; [reflexivity|].
  cbn [resolve_as_specified].
  generalize (get_dependency_info st root Requires). intros ks. revert s.
  induction ks as [|k ks IHk]; intros s; [reflexivity|].
  cbn [expand_keywords].
  assert (Hc : forall cs s0,
             expand_candidates
               (fun p s' => resolve_as_specified (fun r => r) fuel st p Requires s')
               st root Requires k cs s0
             = expand_candidates
                 (fun p s' => resolve_as_specified (fun _ => Requires) fuel st p Requires s')
                 st root Requires k cs s0).
  { induction cs as [|c cs IHc]; intros s0; [reflexivity|].
    cbn [expand_candidates]. destruct (entry_mod st c); [|reflexivity].
    rewrite IH. destruct (resolve_as_specified _ _ _ _ _ _) as [[s'|x]|]; auto. }
  rewrite Hc. destruct (expand_candidates _ _ _ _ _ _ _) as [[s'|x]|]; auto.
Qed.

(** On the catalog with a cycle no amount of fuel is enough. *)
Lemma resolve_cycle_A (fuel : nat) :
  forall s : rstate,
    resolve_requires fuel catalog_cycle {| mod_ := entry_A |} Requires s = None
    /\ resolve_requires fuel catalog_cycle {| mod_ := entry_B |} Requires s = None.
Proof.
  unfold resolve_requires.
  induction fuel as [|fuel IH]; intros s; [split; reflexivity|].
  split.
  - cbn. now rewrite (proj2 (IH _)).
  - cbn. now rewrite (proj1 (IH _)).
Qed.

(** C1 (as stated). On [catalog_recommends], resolving the Recommends
    of A, the code does not do what the wording says: it records D for
    "d", a Requires of B, where the wording records C for "c", a
    Recommends of B. *)
Lemma resolve_dependencies_not_same_kind :
  resolve_dependencies 6 catalog_recommends {| mod_ := entry_A |} Recommends None []
  <> resolve_spec 6 catalog_recommends {| mod_ := entry_A |} Recommends
       (ModDependencies_init, []).
Proof. vm_compute. discriminate. Qed.

(** What the code records there: B for "b" with kind Recommends, then D
    for "d" with kind Requires. *)
Example resolve_recommends_of_A :
  resolve_dependencies 6 catalog_recommends {| mod_ := entry_A |} Recommends None []
  = Some (Ok ({| depmap :=
                   [("b", [({| mod_ := entry_B |}, {| mod_ := entry_A |}, Recommends)]);
                    ("d", [({| mod_ := entry_D |}, {| mod_ := entry_B |}, Requires)])] |},
              [])).
Proof. vm_compute. reflexivity. Qed.

(** C1 (amended). [resolve_dependencies] walks the keywords of the root
    of kind [relation] and, for each candidate provider, appends
    (provider, root, relation) under the keyword and then expands the
    provider, with the record so far and always for Requires, whatever
    [relation] is: it equals the wording of section 4.3 with the
    recursive call made for Requires, so it is that wording exactly
    when called for Requires. Nothing guards against a cycle: on
    [catalog_cycle] the recursion does not end for any fuel. *)
Theorem resolve_dependencies_recurses_on_requires :
  (forall fuel st self relation depsObject log,
      resolve_dependencies fuel st self relation depsObject log
      = resolve_requires fuel st self relation (record_or_new depsObject, log))
  /\ (forall fuel st self depsObject log,
        resolve_dependencies fuel st self Requires depsObject log
        = resolve_spec fuel st self Requires (record_or_new depsObject, log))
  /\ (forall fuel,
        resolve_dependencies fuel catalog_cycle {| mod_ := entry_A |} Requires None []
        = None).
Proof.
  split; [|split].
  - intros. apply resolve_dependencies_requires.
  - intros. rewrite resolve_spec_at_requires. apply resolve_dependencies_requires.
  - intros fuel. rewrite resolve_dependencies_requires.
    apply (proj1 (resolve_cycle_A fuel _)).
Qed.

(* ================================================================= *)
(** ** Resolution on an acyclic catalog *)

Lemma entry_mod_id (st : Store) (c : ModDependency) (m : ModEntry) :
  entry_mod st c = Ok m -> e_id m = dep_mod c /\ In m (modentries st).
Proof.
  unfold entry_mod, get_entry.
  destruct (find _ _) as [e|] eqn:E; [|discriminate].
  intros H. injection H as ->. apply find_some in E as [Hin E].
  apply Nat.eqb_eq in E. now split.
Qed.

Lemma providers_in (st : Store) (k : string) (c : ModDependency) :
  In c (providers st k)
  <-> In c (moddependencies st) /\ dep_relation c = Provides /\ dep_dependency c = k.
Proof.
  unfold providers, select_by_keyword. rewrite filter_In.
  rewrite andb_true_iff, Z.eqb_eq, String.eqb_eq. tauto.
Qed.

Lemma requires_in (st : Store) (a : nat) (k : string) :
  In k (requires st a)
  <-> In {| dep_mod := a; dep_relation := Requires; dep_dependency := k |}
         (moddependencies st).
Proof.
  exact (in_get_dependency_info st (new_entry a "" 0) Requires k).
Qed.

Lemma chain_snoc (st : Store) (a b c : nat) :
  chain st a b -> depends_on st b c -> chain st a c.
Proof.
  induction 1 as [a b Hab|a b b' Hab Hbb' IH]; intros Hc.
  - eapply chain_more; [exact Hab | now apply chain_step].
  - eapply chain_more; [exact Hab | now apply IH].
Qed.

Lemma expand_candidates_total (expand : ModInstance -> rstate -> fueled rstate)
    (st : Store) (root : ModInstance) (relation : Z) (k : string)
    (candidates : list ModDependency) :
  (forall c m s, In c candidates -> entry_mod st c = Ok m ->
                 exists s', expand {| mod_ := m |} s = Some (Ok s')) ->
  (forall c, In c candidates -> exists m, entry_mod st c = Ok m) ->
  forall s, exists s',
    expand_candidates expand st root relation k candidates s = Some (Ok s').
Proof.
  induction candidates as [|c cs IH]; intros Hexp Href s; simpl; [eauto|].
  destruct (Href c (or_introl eq_refl)) as [m Hm]. rewrite Hm.
  destruct (Hexp c m (add_dependency (fst s) k {| mod_ := m |} relation root, snd s)
              (or_introl eq_refl) Hm) as [s1 Hs1].
  rewrite Hs1. apply IH.
  - intros c' m' s' Hin. apply Hexp. now right.
  - intros c' Hin. apply Href. now right.
Qed.

Lemma expand_keywords_total (expand : ModInstance -> rstate -> fueled rstate)
    (st : Store) (root : ModInstance) (relation : Z) (keywords : list string) :
  referential st ->
  (forall k c m s, In k keywords -> In c (providers st k) -> entry_mod st c = Ok m ->
                   exists s', expand {| mod_ := m |} s = Some (Ok s')) ->
  forall s, exists s',
    expand_keywords expand st root relation keywords s = Some (Ok s').
Proof.
  intros Href. induction keywords as [|k ks IH]; intros Hexp s; simpl; [eauto|].
  fold (providers st k).
  match goal with
  | |- context [expand_candidates expand st root relation k (providers st k) ?s1] =>
      destruct (@expand_candidates_total expand st root relation k (providers st k)) with (s := s1)
        as [s2 Hs2]
  end.
  - intros c m s' Hin. apply (Hexp k); [now left | assumption].
  - intros c Hin. apply Href. now apply providers_in in Hin.
  - rewrite Hs2. apply IH. intros k' c m s' Hin. apply Hexp. now right.
Qed.

(** With no cycle the calls in progress are for different entries, all
    of them owners of rows, so there are never more of them than
    rows. *)
Lemma resolve_requires_total (st : Store) :
  acyclic st -> referential st ->
  forall (fuel : nat) (a : ModInstance) (visited : list nat) (s : rstate),
    NoDup visited ->
    (forall v, In v visited -> In v (map dep_mod (moddependencies st))) ->
    (forall v, In v visited ->
               v = e_id (mod_ a) \/ chain st v (e_id (mod_ a))) ->
    List.length (moddependencies st) < fuel + List.length visited ->
    exists s', resolve_requires fuel st a Requires s = Some (Ok s').
Proof.
  intros Hacyc Href. unfold resolve_requires.
  induction fuel as [|fuel IH]; intros a visited s Hnd Hown Hanc Hlen.
  - exfalso. simpl in Hlen.
    pose proof (NoDup_incl_length Hnd Hown) as Hle.
    rewrite length_map in Hle. lia.
  - cbn [resolve_as_specified].
    apply expand_keywords_total; [assumption|].
    intros k c m s' Hk Hc Hm.
    destruct (entry_mod_id st c Hm) as [Hid _].
    assert (Hdep : depends_on st (e_id (mod_ a)) (e_id m)).
    { exists k, c. repeat split; [exact Hk | exact Hc | now symmetry]. }
    apply (IH {| mod_ := m |} (e_id m :: visited)); simpl.
    + constructor; [|assumption].
      intros Hin. destruct (Hanc _ Hin) as [Heq|Hch].
      * apply (Hacyc (e_id m)). apply chain_step. now rewrite Heq at 1.
      * apply (Hacyc (e_id m)). now apply chain_snoc with (b := e_id (mod_ a)).
    + intros v [<-|Hin]; [|now apply Hown].
      rewrite Hid. apply in_map. now apply providers_in in Hc.
    + intros v [<-|Hin]; [now left|]. right.
      destruct (Hanc _ Hin) as [->|Hch].
      * now apply chain_step.
      * now apply chain_snoc with (b := e_id (mod_ a)).
    + lia.
Qed.

(** *** What a resolution records *)

Lemma grows_refl (st : Store) (s : rstate) :
  grows st (fun _ => False) (fun _ => False) s s.
Proof. unfold grows. split; [|split; [|split]]; tauto. Qed.

Lemma grows_trans (st : Store) (Q1 W1 Q2 W2 : string -> Prop) (s1 s2 s3 : rstate) :
  grows st Q1 W1 s1 s2 -> grows st Q2 W2 s2 s3 ->
  grows st (fun k => Q1 k \/ Q2 k) (fun k => W1 k \/ W2 k) s1 s3.
Proof.
  intros (K1 & L1 & N1 & G1) (K2 & L2 & N2 & G2). unfold grows.
  split; [|split; [|split]].
  - intros k. rewrite K2, K1. tauto.
  - intros k. rewrite L2, L1. tauto.
  - auto.
  - auto.
Qed.

Lemma grows_ext (st : Store) (Q W Q' W' : string -> Prop) (s s' : rstate) :
  (forall k, Q k <-> Q' k) -> (forall k, W k <-> W' k) ->
  grows st Q W s s' -> grows st Q' W' s s'.
Proof.
  intros HQ HW (K & L & N & G). unfold grows.
  split; [|split; [|split]]; auto.
  - intros k. rewrite K, HQ. tauto.
  - intros k. rewrite L, HW. tauto.
Qed.

Lemma dd_append_keywords (k : string) (t : triple) (d : list (string * list triple)) :
  map fst (dd_append k t d)
  = if in_dec string_dec k (map fst d) then map fst d else map fst d ++ [k].
Proof.
  induction d as [|[k0 l0] d IH]; simpl; [reflexivity|].
  destruct (String.eqb_spec k0 k) as [->|Hne].
  - destruct (string_dec k k); [reflexivity | congruence].
  - simpl. rewrite IH. destruct (string_dec k0 k); [congruence|].
    destruct (in_dec string_dec k (map fst d)); reflexivity.
Qed.

Lemma dd_append_in (k : string) (t : triple) (d : list (string * list triple))
    (k' : string) (l : list triple) :
  In (k', l) (dd_append k t d) ->
  In (k', l) d
  \/ (k' = k /\ (l = [t] \/ exists l0, In (k, l0) d /\ l = l0 ++ [t])).
Proof.
  induction d as [|[k0 l0] d IH]; simpl.
  - intros [H|[]]. injection H as <- <-. right. auto.
  - destruct (String.eqb_spec k0 k) as [->|Hne]; simpl.
    + intros [H|H]; [|auto]. injection H as <- <-.
      right. split; [reflexivity|]. right. exists l0. auto.
    + intros [H|H]; [auto|].
      destruct (IH H) as [H'|[-> [H'|[l1 [H1 H2]]]]]; auto.
      right. split; [reflexivity|]. right. exists l1. auto.
Qed.

Lemma sound_record_append (st : Store) (d : ModDependencies) (k : string)
    (p root : ModInstance) :
  provider_of st k p ->
  sound_record st d ->
  sound_record st {| depmap := dd_append k (p, root, Requires) (depmap d) |}.
Proof.
  intros Hp Hd k' l Hin. cbn [depmap] in Hin.
  apply dd_append_in in Hin as [Hin|[-> [->|[l0 [Hin ->]]]]].
  - now apply Hd.
  - split; [discriminate|]. repeat constructor; assumption.
  - destruct (Hd _ _ Hin) as [Hne Hall]. split.
    + intros H. now apply app_eq_nil in H as [_ H].
    + apply Forall_app. split; [assumption|]. repeat constructor; assumption.
Qed.

Lemma grows_add_dependency (st : Store) (s : rstate) (k : string)
    (p root : ModInstance) :
  provider_of st k p ->
  grows st (fun k' => k' = k) (fun _ => False) s
        (add_dependency (fst s) k p Requires root, snd s).
Proof.
  intros Hp. unfold grows, keywords_of, add_dependency. cbn [fst snd depmap].
  rewrite dd_append_keywords.
  destruct (in_dec string_dec k (map fst (depmap (fst s)))) as [Hin|Hnotin].
  - split; [|split; [|split]]; try tauto.
    + intros k'. split; [tauto|]. intros [H| ->]; assumption.
    + apply sound_record_append; assumption.
  - split; [|split; [|split]]; try tauto.
    + intros k'. rewrite in_app_iff. simpl. split.
      * intros [H|[H|[]]]; auto.
      * intros [H| ->]; auto.
    + intros Hnd. apply NoDup_app; [assumption | repeat constructor; simpl; tauto|].
      intros x Hx [<-|[]]. contradiction.
    + apply sound_record_append; assumption.
Qed.

Lemma grows_warning (st : Store) (s : rstate) (k : string) :
  grows st (fun _ => False) (fun k' => k' = k) s (fst s, snd s ++ [LWarn k]).
Proof.
  unfold grows. cbn [fst snd]. split; [|split; [|split]]; try tauto.
  intros k'. rewrite in_app_iff. simpl. split.
  - intros [H|[H|[]]]; [now left|]. injection H as ->. now right.
  - intros [H| ->]; auto.
Qed.

Section Loops.

Variable st : Store.
Variable expand : ModInstance -> rstate -> fueled rstate.
Variables Q W : nat -> string -> Prop.

Hypothesis expand_grows :
  forall p s s',
    expand p s = Some (Ok s') ->
    grows st (Q (e_id (mod_ p))) (W (e_id (mod_ p))) s s'.

Lemma expand_candidates_grows (root : ModInstance) (k : string)
    (candidates : list ModDependency) :
  forall s s',
    (forall c, In c candidates -> In c (providers st k)) ->
    expand_candidates expand st root Requires k candidates s = Some (Ok s') ->
    grows st
      (fun k' => (candidates <> [] /\ k' = k)
                 \/ exists c, In c candidates /\ Q (dep_mod c) k')
      (fun k' => exists c, In c candidates /\ W (dep_mod c) k')
      s s'.
Proof.
  induction candidates as [|c cs IH]; intros s s' Hsub Hrun.
  - simpl in Hrun. injection Hrun as <-.
    apply grows_ext with (Q := fun _ => False) (W := fun _ => False);
      [| |apply grows_refl]; intros k'; split; try tauto.
    + intros [[H _]|[c [[] _]]]. now elim H.
    + intros [c [[] _]].
  - cbn [expand_candidates] in Hrun.
    destruct (entry_mod st c) as [m|x] eqn:Hm; [|discriminate].
    destruct (expand _ _) as [[s1|x]|] eqn:Hexp; try discriminate.
    destruct (entry_mod_id st c Hm) as [Hid _].
    assert (Hp : provider_of st k {| mod_ := m |}).
    { exists c. split; [apply Hsub; now left | exact Hm]. }
    pose proof (grows_add_dependency s root Hp) as G1.
    pose proof (expand_grows Hexp) as G2. cbn [mod_] in G2.
    rewrite Hid in G2.
    pose proof (IH s1 s' (fun c' H => Hsub c' (or_intror H)) Hrun) as G3.
    pose proof (grows_trans (grows_trans G1 G2) G3) as G.
    revert G. apply grows_ext; intros k'; split.
    + intros [[->|H]|[[_ ->]|[c' [Hin H]]]].
      * left. split; [discriminate | reflexivity].
      * right. exists c. split; [now left | assumption].
      * left. split; [discriminate | reflexivity].
      * right. exists c'. split; [now right | assumption].
    + intros [[_ ->]|[c' [[<-|Hin] H]]].
      * left. now left.
      * left. now right.
      * right. right. eauto.
    + intros [[[]|H]|[c' [Hin H]]].
      * exists c. split; [now left | assumption].
      * exists c'. split; [now right | assumption].
    + intros [c' [[<-|Hin] H]].
      * left. now right.
      * right. eauto.
Qed.

Lemma expand_keywords_grows (root : ModInstance) (keywords : list string) :
  forall s s',
    expand_keywords expand st root Requires keywords s = Some (Ok s') ->
    grows st
      (fun k' => exists k, In k keywords
                   /\ ((providers st k <> [] /\ k' = k)
                       \/ exists c, In c (providers st k) /\ Q (dep_mod c) k'))
      (fun k' => exists k, In k keywords
                   /\ ((providers st k = [] /\ k' = k)
                       \/ exists c, In c (providers st k) /\ W (dep_mod c) k'))
      s s'.
Proof.
  induction keywords as [|k ks IH]; intros s s' Hrun.
  - simpl in Hrun. injection Hrun as <-.
    apply grows_ext with (Q := fun _ => False) (W := fun _ => False);
      [| |apply grows_refl]; intros k'; split; try tauto;
      intros [k [[] _]].
  - cbn [expand_keywords] in Hrun. fold (providers st k) in Hrun.
    destruct (expand_candidates _ _ _ _ _ _ _) as [[s2|x]|] eqn:Hc;
      try discriminate.
    apply expand_candidates_grows in Hc; [|auto].
    apply IH in Hrun.
    destruct (providers st k) as [|c0 cs0] eqn:Hprov.
    + pose proof (grows_trans (grows_trans (grows_warning st s k) Hc) Hrun) as G.
      revert G. apply grows_ext; intros k'; split.
      * intros [[[]|[[H _]|[c [[] _]]]]|[k0 [Hin H]]]; [now elim H|].
        exists k0. split; [now right | assumption].
      * intros [k0 [[<-|Hin] H]].
        -- rewrite Hprov in H. destruct H as [[H _]|[c [[] _]]]. now elim H.
        -- right. eauto.
      * intros [[->|[c [[] _]]]|[k0 [Hin H]]].
        -- exists k. split; [now left|]. left. now rewrite Hprov.
        -- exists k0. split; [now right | assumption].
      * intros [k0 [[<-|Hin] H]].
        -- rewrite Hprov in H. destruct H as [[_ ->]|[c [[] _]]]. left. now left.
        -- right. eauto.
    + pose proof (grows_trans Hc Hrun) as G.
      revert G. apply grows_ext; intros k'; split.
      * intros [H|[k0 [Hin H]]].
        -- exists k. split; [now left|]. now rewrite Hprov.
        -- exists k0. split; [now right | assumption].
      * intros [k0 [[<-|Hin] H]].
        -- left. now rewrite Hprov in H.
        -- right. eauto.
      * intros [H|[k0 [Hin H]]].
        -- exists k. split; [now left|]. right. now rewrite Hprov.
        -- exists k0. split; [now right | assumption].
      * intros [k0 [[<-|Hin] H]].
        -- rewrite Hprov in H. destruct H as [[H _]|H]; [discriminate|].
           now left.
        -- right. eauto.
Qed.

End Loops.

(** A resolution for Requires from entry [a] adds to the record just
    the keywords reachable from [a] that have a provider, and to the
    log just a warning for those that have none. *)
Lemma resolve_requires_grows (st : Store) (fuel : nat) :
  forall (a : ModInstance) (s s' : rstate),
    resolve_requires fuel st a Requires s = Some (Ok s') ->
    grows st (provided_from st (e_id (mod_ a))) (unprovided_from st (e_id (mod_ a)))
          s s'.
Proof.
  unfold resolve_requires.
  induction fuel as [|fuel IH]; intros a s s' Hrun; [discriminate|].
  cbn [resolve_as_specified] in Hrun.
  pose proof (@expand_keywords_grows st _ (provided_from st) (unprovided_from st)
                (fun p s0 s0' H => IH p s0 s0' H) a _ s s' Hrun) as G.
  revert G. unfold provided_from, unprovided_from.
  apply grows_ext; intros k'; split.
  - intros [k [Hk [[Hp ->]|[c [Hc [Hr Hp]]]]]].
    + split; [now apply reach_here | assumption].
    + split; [now apply reach_via with (k := k) (c := c) | assumption].
  - intros [Hr Hp]. inversion Hr as [a0 k0 Hk|a0 k c k0 Hk Hc Hr']; subst.
    + exists k'. split; [assumption|]. now left.
    + exists k. split; [assumption|]. right. exists c. auto.
  - intros [k [Hk [[Hp ->]|[c [Hc [Hr Hp]]]]]].
    + split; [now apply reach_here | assumption].
    + split; [now apply reach_via with (k := k) (c := c) | assumption].
  - intros [Hr Hp]. inversion Hr as [a0 k0 Hk|a0 k c k0 Hk Hc Hr']; subst.
    + exists k'. split; [assumption|]. now left.
    + exists k. split; [assumption|]. right. exists c. auto.
Qed.

(** *** The flattened result *)

Lemma dd_get_NoDup (d : list (string * list triple)) (k : string) (l : list triple) :
  NoDup (map fst d) -> In (k, l) d -> dd_get k d = l.
Proof.
  induction d as [|[k0 l0] d IH]; simpl; intros Hnd Hin; [contradiction|].
  inversion Hnd as [|? ? Hnotin Hnd']; subst.
  destruct Hin as [H|Hin].
  - injection H as -> ->. now rewrite String.eqb_refl.
  - destruct (String.eqb_spec k0 k) as [->|Hne]; [|now apply IH].
    elim Hnotin. change k with (fst (k, l)). now apply in_map.
Qed.

Lemma _filter_all (l : list triple) (r : Z) :
  Forall (fun t : triple => snd t = r) l -> _filter l r = l.
Proof.
  induction 1 as [|t l Ht Hall IH]; simpl; [reflexivity|].
  rewrite Ht, Z.eqb_refl. now rewrite IH.
Qed.

Lemma Forall2_flat_map_singleton {A B} (P : A -> B -> Prop) (f : A -> list B)
    (l : list A) :
  (forall x, In x l -> exists y, f x = [y] /\ P x y) ->
  Forall2 P l (flat_map f l).
Proof.
  induction l as [|a l IH]; intros H; simpl; [constructor|].
  destruct (H a (or_introl eq_refl)) as [y [Hy HP]]. rewrite Hy. simpl.
  constructor; [assumption|]. apply IH. intros x Hx. apply H. now right.
Qed.

Lemma simple_get_mods_sound (iter_keys : list string -> list string)
    (st : Store) (d : ModDependencies) :
  (forall stored, NoDup stored -> Permutation stored (iter_keys stored)) ->
  sound_record st d -> NoDup (keywords_of d) ->
  Forall2 (provider_of st) (iter_keys (keywords_of d))
          (simple_get_mods iter_keys d Requires).
Proof.
  intros Hperm Hsound Hnd. unfold simple_get_mods. rewrite simple_get_mods_loop.
  simpl. apply Forall2_flat_map_singleton.
  intros k Hk. apply (Permutation_in k (Permutation_sym (Hperm _ Hnd))) in Hk.
  apply in_map_iff in Hk as [[k0 l] [Hfst Hin]]. simpl in Hfst. subst k0.
  rewrite (dd_get_NoDup _ _ _ Hnd Hin).
  destruct (Hsound _ _ Hin) as [Hne Hall].
  rewrite _filter_all by (eapply Forall_impl; [|exact Hall]; simpl; tauto).
  destruct l as [|t l]; [now elim Hne|].
  exists (fst (fst t)). split; [reflexivity|].
  inversion Hall as [|? ? [_ Hp] _]. exact Hp.
Qed.

(** *** More fuel changes nothing *)

Lemma expand_candidates_mono (e1 e2 : ModInstance -> rstate -> fueled rstate)
    (st : Store) (root : ModInstance) (relation : Z) (k : string)
    (candidates : list ModDependency) :
  (forall p s r, e1 p s = Some r -> e2 p s = Some r) ->
  forall s r,
    expand_candidates e1 st root relation k candidates s = Some r ->
    expand_candidates e2 st root relation k candidates s = Some r.
Proof.
  intros Hle. induction candidates as [|c cs IH]; intros s r; simpl; [trivial|].
  destruct (entry_mod st c) as [m|x]; [|trivial].
  destruct (e1 _ _) as [[s1|x]|] eqn:E1; intros H; try discriminate.
  - rewrite (Hle _ _ _ E1). now apply IH.
  - rewrite (Hle _ _ _ E1). assumption.
Qed.

Lemma expand_keywords_mono (e1 e2 : ModInstance -> rstate -> fueled rstate)
    (st : Store) (root : ModInstance) (relation : Z) (keywords : list string) :
  (forall p s r, e1 p s = Some r -> e2 p s = Some r) ->
  forall s r,
    expand_keywords e1 st root relation keywords s = Some r ->
    expand_keywords e2 st root relation keywords s = Some r.
Proof.
  intros Hle. induction keywords as [|k ks IH]; intros s r; simpl; [trivial|].
  destruct (expand_candidates e1 _ _ _ _ _ _) as [[s1|x]|] eqn:E1;
    intros H; try discriminate.
  - rewrite (@expand_candidates_mono e1 e2 _ _ _ _ _ Hle _ _ E1). now apply IH.
  - rewrite (@expand_candidates_mono e1 e2 _ _ _ _ _ Hle _ _ E1). assumption.
Qed.

Lemma resolve_requires_more_fuel (st : Store) (fuel : nat) :
  forall (extra : nat) (a : ModInstance) (relation : Z) (s : rstate) r,
    resolve_requires fuel st a relation s = Some r ->
    resolve_requires (fuel + extra) st a relation s = Some r.
Proof.
  unfold resolve_requires.
  induction fuel as [|fuel IH]; intros extra a relation s r H; [discriminate|].
  cbn [resolve_as_specified Nat.add] in *.
  revert H. apply expand_keywords_mono. intros p s0 r0. apply IH.
Qed.

(** *** Checks on a catalog *)

Lemma ranked_depends_on (rank : nat -> nat) (st : Store) (a b : nat) :
  ranked rank st = true -> depends_on st a b -> rank b < rank a.
Proof.
  unfold ranked. rewrite forallb_forall.
  intros Hr (k & c & Hk & Hc & <-).
  apply requires_in in Hk. apply providers_in in Hc as (Hc & Hrel & Hkw).
  specialize (Hr _ Hk). simpl in Hr.
  rewrite forallb_forall in Hr. specialize (Hr _ Hc).
  rewrite Hrel, Hkw, Z.eqb_refl, String.eqb_refl in Hr. simpl in Hr.
  now apply Nat.ltb_lt.
Qed.

Lemma ranked_acyclic (rank : nat -> nat) (st : Store) :
  ranked rank st = true -> acyclic st.
Proof.
  intros Hr.
  assert (Hch : forall a b, chain st a b -> rank b < rank a).
  { induction 1 as [a b Hab|a b c Hab Hbc IH].
    - now apply ranked_depends_on with (st := st).
    - apply (ranked_depends_on _ Hr) in Hab. lia. }
  intros a Ha. apply Hch in Ha. lia.
Qed.

Lemma referentialb_referential (st : Store) :
  referentialb st = true -> referential st.
Proof.
  unfold referentialb, referential. rewrite forallb_forall.
  intros Hall c Hc. specialize (Hall _ Hc).
  apply existsb_exists in Hall as [e [Hin He]].
  unfold entry_mod, get_entry.
  destruct (find _ _) as [m|] eqn:E; [eauto|].
  apply (find_none _ _ E) in Hin. rewrite He in Hin. discriminate.
Qed.

(** C9. On a catalog without a require-provide cycle, whose dependency
    rows all belong to stored entries, [get_dependency_mods] returns
    with any fuel above the number of dependency rows, in whatever
    order the dict of the record hands out its keys, each once. The
    list it returns has exactly one instance per keyword reachable from
    the root through Requires rows that has a provider, each a provider
    of its keyword, the keywords taken without repetition; a reachable
    keyword without a provider gives a warning and no instance, and the
    resolution goes on. *)
Theorem get_dependency_mods_complete :
  forall (iter_keys : list string -> list string)
         (st : Store) (root : ModInstance) (log : list LogRecord),
    (forall stored, NoDup stored -> Permutation stored (iter_keys stored)) ->
    acyclic st -> referential st ->
    exists (mods : list ModInstance) (log' : list LogRecord) (keywords : list string),
      (forall fuel, List.length (moddependencies st) < fuel ->
         get_dependency_mods iter_keys fuel st root log = Some (Ok (mods, log')))
      /\ NoDup keywords
      /\ (forall k, In k keywords
                    <-> reach st (e_id (mod_ root)) k /\ providers st k <> [])
      /\ Forall2 (provider_of st) keywords mods
      /\ (forall k, In (LWarn k) log'
                    <-> In (LWarn k) log
                        \/ (reach st (e_id (mod_ root)) k /\ providers st k = [])).
Proof.
  intros iter_keys st root log Hperm Hacyc Href.
  assert (Hrun : exists s',
             resolve_requires (S (List.length (moddependencies st))) st root
                              Requires (ModDependencies_init, log) = Some (Ok s')).
  { apply (@resolve_requires_total st Hacyc Href _ root []).
    - constructor.
    - intros v [].
    - intros v [].
    - simpl. lia. }
  destruct Hrun as [[d log'] Hrun].
  pose proof (@resolve_requires_grows _ _ _ _ _ Hrun) as (HK & HL & HN & HS).
  cbn [fst snd] in *.
  assert (Hnd : NoDup (keywords_of d)) by (apply HN; constructor).
  pose proof (Hperm _ Hnd) as Hp.
  exists (simple_get_mods iter_keys d Requires), log', (iter_keys (keywords_of d)).
  split; [|split; [|split; [|split]]].
  - intros fuel Hfuel. unfold get_dependency_mods.
    rewrite resolve_dependencies_requires. cbn [record_or_new].
    replace fuel with (S (List.length (moddependencies st))
                       + (fuel - S (List.length (moddependencies st)))) by lia.
    now rewrite (@resolve_requires_more_fuel _ _ _ _ _ _ _ Hrun).
  - exact (Permutation_NoDup Hp Hnd).
  - intros k. split.
    + intros Hk. apply (Permutation_in k (Permutation_sym Hp)) in Hk.
      apply HK in Hk. unfold provided_from in Hk. simpl in Hk. tauto.
    + intros Hk. apply (Permutation_in k Hp). apply HK.
      unfold provided_from. simpl. tauto.
  - apply simple_get_mods_sound; [exact Hperm | apply HS | exact Hnd].
    intros k l [].
  - intros k. rewrite HL. unfold unprovided_from. tauto.
Qed.

(* ================================================================= *)
(** ** A second pass over the same manifest *)

(** *** The entry table *)

Unset Implicit Arguments.

Lemma modentries_sync_one (s : nat) (m : ModJson) (st : Store) :
  modentries (sync_one s m st) = upsert s m (modentries st).
Proof. reflexivity. Qed.

Lemma modentries_sync_all (s : nat) (modlist : list ModJson) :
  forall st, modentries (sync_all s modlist st) = upsert_all s modlist (modentries st).
Proof.
  induction modlist as [|m ml IH]; intros st; [reflexivity|].
  simpl. now rewrite IH.
Qed.

Lemma modservices_sync_all (s : nat) (modlist : list ModJson) :
  forall st, modservices (sync_all s modlist st) = modservices st.
Proof.
  induction modlist as [|m ml IH]; intros st; [reflexivity|].
  simpl. now rewrite IH.
Qed.

Lemma entry_ext (e e' : ModEntry) :
  e_id e = e_id e' -> e_name e = e_name e' ->
  (forall a, cell e a = cell e' a) -> e = e'.
Proof.
  intros Hid Hname Hc.
  pose proof (Hc AVersion) as Hv. pose proof (Hc AFilename) as Hf.
  pose proof (Hc AService) as Hs.
  pose proof (Hc (AOptional description)) as H1.
  pose proof (Hc (AOptional filehash)) as H2.
  pose proof (Hc (AOptional filesize)) as H3.
  pose proof (Hc (AOptional homepage)) as H4.
  pose proof (Hc (AOptional author)) as H5.
  destruct e, e'. simpl in *.
  injection Hs as Hs. apply Nat2Z.inj in Hs. congruence.
Qed.

Lemma cell_updated_entry (m : ModJson) (s : nat) (e : ModEntry) (a : attr) :
  cell (updated_entry m s e) a = set_cell m s a (cell e a).
Proof.
  destruct a; simpl.
  - unfold updated_entry.
    now rewrite (proj1 (proj2 (proj2 (proj2 (set_optional_fixed _ _))))).
  - unfold updated_entry.
    now rewrite (proj2 (proj2 (proj2 (proj2 (set_optional_fixed _ _))))).
  - now rewrite updated_entry_service.
  - apply updated_entry_getattr.
Qed.

Lemma set_cell_const_or_id (m : ModJson) (s : nat) (a : attr) :
  (exists c, forall v, set_cell m s a v = c) \/ (forall v, set_cell m s a v = v).
Proof.
  destruct a; simpl; try (left; eexists; reflexivity).
  destruct (truthy (mod_get m f)); [left; eexists; reflexivity | now right].
Qed.

(** A chain of writes each of which sets a value or leaves it, sets a
    value or leaves it. *)
Lemma const_or_id_fold {A V} (g : A -> V -> V) (l : list A) :
  (forall a, (exists c, forall v, g a v = c) \/ (forall v, g a v = v)) ->
  (exists c, forall v, fold_left (fun v a => g a v) l v = c)
  \/ (forall v, fold_left (fun v a => g a v) l v = v).
Proof.
  intros Hg. induction l as [|a l IH]; simpl; [now right|].
  destruct IH as [[c Hc]|Hid].
  - left. exists c. intros v. apply Hc.
  - destruct (Hg a) as [[c Hc]|Ha].
    + left. exists c. intros v. now rewrite Hid, Hc.
    + right. intros v. now rewrite Hid, Ha.
Qed.

Lemma cellfold_const_or_id (s : nat) (ids : string -> nat) (i : nat) (a : attr)
    (modlist : list ModJson) :
  (exists c, forall v, cellfold s ids i a modlist v = c)
  \/ (forall v, cellfold s ids i a modlist v = v).
Proof.
  unfold cellfold.
  apply (const_or_id_fold
           (fun m v => if (i =? ids (name_of m))%nat then set_cell m s a v else v)).
  intros m. destruct (i =? ids (name_of m))%nat; [|now right].
  apply set_cell_const_or_id.
Qed.

Lemma rowstep_fixed (s : nat) (ids : string -> nat) (m : ModJson) (r : ModEntry) :
  e_id (rowstep s ids m r) = e_id r
  /\ e_name (rowstep s ids m r) = e_name r.
Proof.
  unfold rowstep. destruct (e_id r =? ids (name_of m))%nat; [|now split].
  now rewrite updated_entry_id, updated_entry_name.
Qed.

Lemma rowfold_fixed (s : nat) (ids : string -> nat) (modlist : list ModJson) :
  forall r,
    e_id (rowfold s ids modlist r) = e_id r
    /\ e_name (rowfold s ids modlist r) = e_name r.
Proof.
  unfold rowfold. induction modlist as [|m ml IH]; intros r; simpl; [now split|].
  destruct (IH (rowstep s ids m r)) as [H1 H2].
  destruct (rowstep_fixed s ids m r) as [H3 H4]. split; congruence.
Qed.

Lemma cell_rowfold (s : nat) (ids : string -> nat) (modlist : list ModJson) (a : attr) :
  forall r,
    cell (rowfold s ids modlist r) a
    = cellfold s ids (e_id r) a modlist (cell r a).
Proof.
  unfold rowfold, cellfold.
  induction modlist as [|m ml IH]; intros r; simpl; [reflexivity|].
  rewrite IH. rewrite (proj1 (rowstep_fixed s ids m r)).
  f_equal. unfold rowstep.
  destruct (e_id r =? ids (name_of m))%nat; [|reflexivity].
  apply cell_updated_entry.
Qed.

(** Writing an object's attributes twice is writing them once. *)
Lemma updated_entry_twice (m : ModJson) (s : nat) (e : ModEntry) :
  updated_entry m s (updated_entry m s e) = updated_entry m s e.
Proof.
  apply entry_ext.
  - apply updated_entry_id.
  - apply updated_entry_name.
  - intros a. rewrite !cell_updated_entry.
    destruct (set_cell_const_or_id m s a) as [[c Hc]|Hid].
    + now rewrite !Hc.
    + now rewrite !Hid.
Qed.

(** If a row is as the earlier rounds left it, then after one more
    round it is as the rounds before and that round leave it. *)
Lemma rowfold_after_update (s : nat) (ids : string -> nat) (modlist : list ModJson)
    (m : ModJson) (r : ModEntry) :
  rowfold s ids modlist r = r ->
  updated_entry m s (rowfold s ids modlist (updated_entry m s r))
  = updated_entry m s r.
Proof.
  intros Hfix. apply entry_ext.
  - now rewrite !updated_entry_id, (proj1 (rowfold_fixed _ _ _ _)), updated_entry_id.
  - now rewrite !updated_entry_name, (proj2 (rowfold_fixed _ _ _ _)), updated_entry_name.
  - intros a. rewrite cell_updated_entry, cell_rowfold, updated_entry_id.
    rewrite !cell_updated_entry.
    pose proof (cell_rowfold s ids modlist a r) as Hc. rewrite Hfix in Hc.
    destruct (set_cell_const_or_id m s a) as [[c Hconst]|Hid].
    + now rewrite !Hconst.
    + rewrite !Hid. now symmetry.
Qed.

Lemma find_map_rows (n : string) (s : nat) (g : ModEntry -> ModEntry)
    (tbl : list ModEntry) :
  (forall r, e_name (g r) = e_name r /\ e_service (g r) = e_service r) ->
  find (entry_matches n s) (map g tbl)
  = option_map g (find (entry_matches n s) tbl).
Proof.
  intros Hg. induction tbl as [|r tbl IH]; simpl; [reflexivity|].
  unfold entry_matches at 1. destruct (Hg r) as [-> ->].
  fold (entry_matches n s r).
  destruct (entry_matches n s r); [reflexivity | exact IH].
Qed.

(** On a table that has the entry, a round is a change of rows in
    place. *)
Lemma upsert_in_place (s : nat) (m : ModJson) (tbl : list ModEntry) (e : ModEntry) :
  NoDup (map e_id tbl) ->
  find (entry_matches (name_of m) s) tbl = Some e ->
  upsert s m tbl = map (rowstep s (id_in s tbl) m) tbl.
Proof.
  intros Hnd Hfind. unfold upsert, found_or_new, id_in. rewrite Hfind. simpl.
  unfold replace_entry. apply map_ext_in. intros r Hr.
  unfold rowstep. rewrite Hfind, updated_entry_id.
  destruct (Nat.eqb_spec (e_id r) (e_id e)) as [Heq|Hne]; [|reflexivity].
  pose proof (find_some _ _ Hfind) as [Hin _].
  now rewrite (same_id_same_row _ _ _ Hnd Hr Hin Heq).
Qed.

Lemma rowstep_matches (s : nat) (ids : string -> nat) (m : ModJson) (r : ModEntry) :
  entry_matches (name_of m) s r = true \/ (e_id r =? ids (name_of m))%nat = false ->
  e_name (rowstep s ids m r) = e_name r
  /\ e_service (rowstep s ids m r) = e_service r.
Proof.
  intros H. unfold rowstep.
  destruct (e_id r =? ids (name_of m))%nat eqn:E; [|now split].
  destruct H as [H|H]; [|discriminate].
  unfold entry_matches in H. apply andb_prop in H as [_ H].
  apply Nat.eqb_eq in H.
  now rewrite updated_entry_name, updated_entry_service.
Qed.

(** A round keeps the id of every name that is stored. *)
Lemma upsert_keeps_id (s : nat) (m : ModJson) (tbl : list ModEntry)
    (n : string) (e : ModEntry) :
  NoDup (map e_id tbl) ->
  find (entry_matches n s) tbl = Some e ->
  exists e', find (entry_matches n s) (upsert s m tbl) = Some e'
             /\ e_id e' = e_id e.
Proof.
  intros Hnd Hfind. destruct (string_dec n (name_of m)) as [->|Hne].
  - exists (updated_entry m s e). split.
    + pose proof (stored_after_upsert m (name_of m) s tbl) as H. simpl in H.
      unfold upsert. rewrite H. unfold found_or_new. now rewrite Hfind.
    + apply updated_entry_id.
  - exists e. split; [|reflexivity].
    apply (@upsert_keeps_other n s m tbl e Hnd Hfind Hne).
Qed.

Lemma upsert_id_in (s : nat) (m : ModJson) (tbl : list ModEntry) (n : string) :
  NoDup (map e_id tbl) ->
  find (entry_matches n s) tbl <> None ->
  id_in s (upsert s m tbl) n = id_in s tbl n
  /\ find (entry_matches n s) (upsert s m tbl) <> None.
Proof.
  intros Hnd Hpres. destruct (find (entry_matches n s) tbl) as [e|] eqn:E;
    [|now elim Hpres].
  destruct (upsert_keeps_id s m tbl n e Hnd E) as [e' [Hf Hid]].
  unfold id_in. rewrite Hf, E. split; [assumption | discriminate].
Qed.

Lemma upsert_unique_ids (s : nat) (m : ModJson) (tbl : list ModEntry) :
  NoDup (map e_id tbl) -> NoDup (map e_id (upsert s m tbl)).
Proof.
  intros H. unfold upsert. rewrite ids_replace_entry. now apply found_or_new_ids.
Qed.

Lemma upsert_all_unique_ids (s : nat) (modlist : list ModJson) :
  forall tbl, NoDup (map e_id tbl) -> NoDup (map e_id (upsert_all s modlist tbl)).
Proof.
  induction modlist as [|m ml IH]; intros tbl H; [assumption|].
  simpl. apply IH. now apply upsert_unique_ids.
Qed.

Lemma upsert_all_id_in (s : nat) (modlist : list ModJson) (n : string) :
  forall tbl,
    NoDup (map e_id tbl) ->
    find (entry_matches n s) tbl <> None ->
    id_in s (upsert_all s modlist tbl) n = id_in s tbl n
    /\ find (entry_matches n s) (upsert_all s modlist tbl) <> None.
Proof.
  induction modlist as [|m ml IH]; intros tbl Hnd Hpres; [now split|].
  simpl. destruct (upsert_id_in s m tbl n Hnd Hpres) as [Hid Hpres'].
  destruct (IH (upsert s m tbl) (upsert_unique_ids s m tbl Hnd) Hpres') as [Hid' Hp'].
  split; [congruence | assumption].
Qed.

Lemma upsert_stores (s : nat) (m : ModJson) (tbl : list ModEntry) :
  find (entry_matches (name_of m) s) (upsert s m tbl) <> None.
Proof.
  pose proof (stored_after_upsert m (name_of m) s tbl) as H. simpl in H.
  unfold upsert. rewrite H. discriminate.
Qed.

(** After a pass every object of the manifest has its entry. *)
Lemma upsert_all_stores (s : nat) (modlist : list ModJson) (m : ModJson) :
  forall tbl,
    NoDup (map e_id tbl) -> In m modlist ->
    find (entry_matches (name_of m) s) (upsert_all s modlist tbl) <> None.
Proof.
  induction modlist as [|m0 ml IH]; intros tbl Hnd Hin; [contradiction|].
  simpl. destruct Hin as [->|Hin].
  - apply upsert_all_id_in; [now apply upsert_unique_ids | apply upsert_stores].
  - apply IH; [now apply upsert_unique_ids | assumption].
Qed.

Lemma rowfold_ext (s : nat) (ids ids' : string -> nat) (modlist : list ModJson) :
  (forall m, In m modlist -> ids (name_of m) = ids' (name_of m)) ->
  forall r, rowfold s ids modlist r = rowfold s ids' modlist r.
Proof.
  unfold rowfold. induction modlist as [|m ml IH]; intros H r; simpl; [reflexivity|].
  unfold rowstep at 2 4. rewrite (H m (or_introl eq_refl)).
  apply IH. intros m' Hm'. apply H. now right.
Qed.

Lemma id_in_map_rows (s : nat) (g : ModEntry -> ModEntry) (tbl : list ModEntry)
    (n : string) :
  (forall r, e_id (g r) = e_id r) ->
  (forall r, In r tbl -> e_name (g r) = e_name r /\ e_service (g r) = e_service r) ->
  id_in s (map g tbl) n = id_in s tbl n
  /\ (find (entry_matches n s) tbl <> None ->
      find (entry_matches n s) (map g tbl) <> None).
Proof.
  intros Hid Hg. unfold id_in.
  induction tbl as [|r tbl IH]; simpl; [split; [reflexivity | trivial]|].
  assert (Hm : entry_matches n s (g r) = entry_matches n s r).
  { unfold entry_matches. now destruct (Hg r (or_introl eq_refl)) as [-> ->]. }
  rewrite Hm. destruct (entry_matches n s r).
  - split; [apply Hid | intros _; discriminate].
  - apply IH. intros r' Hr'. apply Hg. now right.
Qed.

(** A pass over a table that has all the entries is the change of each
    row by the rounds meant for its id. *)
Lemma upsert_all_in_place (s : nat) (modlist : list ModJson) :
  forall tbl,
    NoDup (map e_id tbl) ->
    (forall m, In m modlist -> find (entry_matches (name_of m) s) tbl <> None) ->
    upsert_all s modlist tbl = map (rowfold s (id_in s tbl) modlist) tbl.
Proof.
  induction modlist as [|m ml IH]; intros tbl Hnd Hpres.
  - simpl. symmetry. apply map_id.
  - cbn [upsert_all fold_left]. fold (upsert_all s ml (upsert s m tbl)).
    destruct (find (entry_matches (name_of m) s) tbl) as [e|] eqn:E;
      [|now elim (Hpres m (or_introl eq_refl))].
    pose proof (upsert_in_place s m tbl e Hnd E) as Hstep.
    assert (Hrows : forall r, In r tbl ->
               e_name (rowstep s (id_in s tbl) m r) = e_name r
               /\ e_service (rowstep s (id_in s tbl) m r) = e_service r).
    { intros r Hr. apply rowstep_matches.
      destruct (Nat.eqb_spec (e_id r) (id_in s tbl (name_of m))) as [Heq|Hne];
        [left | now right].
      unfold id_in in Heq. rewrite E in Heq.
      pose proof (find_some _ _ E) as [Hin Hm].
      now rewrite (same_id_same_row _ _ _ Hnd Hr Hin Heq). }
    assert (Hids : forall n, id_in s (upsert s m tbl) n = id_in s tbl n).
    { intros n. rewrite Hstep.
      apply id_in_map_rows; [|assumption].
      intros r. apply rowstep_fixed. }
    rewrite IH.
    + rewrite Hstep at 2. rewrite map_map. apply map_ext. intros r.
      unfold rowfold at 2. cbn [fold_left]. fold (rowfold s (id_in s tbl) ml).
      apply rowfold_ext. intros m' _. apply Hids.
    + now apply upsert_unique_ids.
    + intros m' Hm'. rewrite Hstep.
      apply id_in_map_rows; [intros r; apply rowstep_fixed | assumption |].
      apply Hpres. now right.
Qed.

Lemma rowfold_untouched (s : nat) (ids : string -> nat) (modlist : list ModJson)
    (r : ModEntry) :
  (forall m, In m modlist -> ids (name_of m) <> e_id r) ->
  rowfold s ids modlist r = r.
Proof.
  unfold rowfold. induction modlist as [|m ml IH]; intros H; simpl; [reflexivity|].
  unfold rowstep at 2.
  destruct (Nat.eqb_spec (e_id r) (ids (name_of m))) as [Heq|Hne].
  - elim (H m (or_introl eq_refl)). now symmetry.
  - apply IH. intros m' Hm'. apply H. now right.
Qed.

Lemma rowfold_snoc (s : nat) (ids : string -> nat) (modlist : list ModJson)
    (m : ModJson) (r : ModEntry) :
  rowfold s ids (modlist ++ [m]) r = rowstep s ids m (rowfold s ids modlist r).
Proof. unfold rowfold. now rewrite fold_left_app. Qed.

Lemma id_in_stored (s : nat) (tbl : list ModEntry) (n : string) :
  find (entry_matches n s) tbl <> None ->
  exists e, In e tbl /\ e_id e = id_in s tbl n.
Proof.
  unfold id_in. destruct (find (entry_matches n s) tbl) as [e|] eqn:E;
    [|intros H; now elim H].
  intros _. exists e. split; [|reflexivity]. now apply find_some in E.
Qed.

Lemma upsert_all_snoc (s : nat) (modlist : list ModJson) (m : ModJson)
    (tbl : list ModEntry) :
  upsert_all s (modlist ++ [m]) tbl = upsert s m (upsert_all s modlist tbl).
Proof. unfold upsert_all. now rewrite fold_left_app. Qed.

(** After a pass every row is as the rounds of the pass meant for it
    leave it. *)
Lemma upsert_all_rows_settled (s : nat) (modlist : list ModJson) :
  forall tbl,
    NoDup (map e_id tbl) ->
    forall r, In r (upsert_all s modlist tbl) ->
      rowfold s (id_in s (upsert_all s modlist tbl)) modlist r = r.
Proof.
  induction modlist as [|m ml IH] using rev_ind; intros tbl Hnd r Hr;
    [reflexivity|].
  rewrite upsert_all_snoc in Hr |- *.
  set (E' := upsert_all s ml tbl) in *.
  assert (Hnd' : NoDup (map e_id E')) by now apply upsert_all_unique_ids.
  assert (Hold : forall m', In m' ml ->
             id_in s (upsert s m E') (name_of m') = id_in s E' (name_of m')
             /\ find (entry_matches (name_of m') s) E' <> None).
  { intros m' Hm'.
    pose proof (upsert_all_stores s ml m' tbl Hnd Hm') as Hp. fold E' in Hp.
    split; [|assumption]. now apply upsert_id_in. }
  rewrite rowfold_snoc.
  rewrite (rowfold_ext s (id_in s (upsert s m E')) (id_in s E') ml)
    by (intros m' Hm'; now apply Hold).
  destruct (find (entry_matches (name_of m) s) E') as [e|] eqn:E.
  - assert (Hidm : id_in s (upsert s m E') (name_of m) = id_in s E' (name_of m)).
    { apply upsert_id_in; [assumption|]. rewrite E. discriminate. }
    rewrite (upsert_in_place s m E' e Hnd' E) in Hr.
    apply in_map_iff in Hr as [r' [Hr' Hin']].
    pose proof (IH tbl Hnd r' Hin') as Hfix. fold E' in Hfix.
    subst r. unfold rowstep at 2.
    destruct (Nat.eqb_spec (e_id r') (id_in s E' (name_of m))) as [Heq|Hne].
    + unfold rowstep.
      rewrite (proj1 (rowfold_fixed s (id_in s E') ml _)), updated_entry_id.
      rewrite Hidm, Heq, Nat.eqb_refl.
      now apply rowfold_after_update.
    + rewrite Hfix. unfold rowstep. rewrite Hidm.
      destruct (Nat.eqb_spec (e_id r') (id_in s E' (name_of m)));
        [contradiction | reflexivity].
  - set (fresh := new_entry (next_id E') (name_of m) s) in *.
    assert (Hup : upsert s m E' = E' ++ [updated_entry m s fresh]).
    { unfold upsert, found_or_new. rewrite E. cbn [fst snd].
      apply replace_entry_new. apply updated_entry_id. }
    assert (Hidm : id_in s (upsert s m E') (name_of m) = next_id E').
    { unfold id_in. rewrite Hup, find_app_none by assumption.
      unfold entry_matches.
      rewrite updated_entry_name, updated_entry_service. simpl.
      rewrite String.eqb_refl, Nat.eqb_refl. simpl. apply updated_entry_id. }
    rewrite Hup in Hr. apply in_app_or in Hr as [Hr|[<-|[]]].
    + pose proof (IH tbl Hnd r Hr) as Hfix. fold E' in Hfix.
      rewrite Hfix. unfold rowstep. rewrite Hidm.
      destruct (Nat.eqb_spec (e_id r) (next_id E')) as [Heq|Hne]; [|reflexivity].
      now apply next_id_fresh in Hr.
    + rewrite rowfold_untouched.
      * unfold rowstep. rewrite Hidm, updated_entry_id. simpl.
        rewrite Nat.eqb_refl. apply updated_entry_twice.
      * intros m' Hm'. rewrite updated_entry_id. simpl.
        destruct (id_in_stored s E' (name_of m') (proj2 (Hold m' Hm')))
          as [e' [Hin' <-]].
        now apply next_id_fresh.
Qed.

(** A second pass leaves the entry table as the first left it. *)
Lemma upsert_all_twice (s : nat) (modlist : list ModJson) (tbl : list ModEntry) :
  NoDup (map e_id tbl) ->
  upsert_all s modlist (upsert_all s modlist tbl) = upsert_all s modlist tbl.
Proof.
  intros Hnd. rewrite upsert_all_in_place.
  - rewrite <- (map_id (upsert_all s modlist tbl)) at 3.
    apply map_ext_in. intros r Hr. now apply upsert_all_rows_settled.
  - now apply upsert_all_unique_ids.
  - intros m Hm. now apply upsert_all_stores.
Qed.

(** *** The dependency table *)

Lemma run_ops_app (ops1 ops2 : list resync_op) (tbl : list ModDependency) :
  run_ops (ops1 ++ ops2) tbl = run_ops ops2 (run_ops ops1 tbl).
Proof. unfold run_ops. apply fold_left_app. Qed.

Lemma resync_all_ops (ids : string -> nat) (m : ModJson) (tbl : list ModDependency) :
  resync_all (ids (name_of m)) (name_of m) m tbl = run_ops (ops_of ids m) tbl.
Proof. reflexivity. Qed.

Lemma filter_filter {A} (f g : A -> bool) (l : list A) :
  filter f (filter g l) = filter (fun x => g x && f x) l.
Proof.
  induction l as [|a l IH]; simpl; [reflexivity|].
  destruct (g a); simpl; [|exact IH].
  destruct (f a); [now rewrite IH | exact IH].
Qed.

Lemma touched_snoc (ops : list resync_op) (o : resync_op) (d : ModDependency) :
  touched (ops ++ [o]) d
  = touched ops d || owned_by (fst (fst o)) (snd (fst o)) d.
Proof. unfold touched. rewrite existsb_app. simpl. now rewrite orb_false_r. Qed.

Lemma run_ops_snoc (ops : list resync_op) (o : resync_op) (tbl : list ModDependency) :
  run_ops (ops ++ [o]) tbl
  = resync (fst (fst o)) (snd (fst o)) (snd o) (run_ops ops tbl).
Proof. now rewrite run_ops_app. Qed.

(** The rows a pass leaves: those of the old table that no resync of
    the pass concerns, then those the pass itself inserted and kept. *)
Lemma run_ops_split (ops : list resync_op) :
  forall tbl,
    run_ops ops tbl
    = filter (fun d => negb (touched ops d)) tbl ++ run_ops ops [].
Proof.
  induction ops as [|o ops IH] using rev_ind; intros tbl.
  - cbn [run_ops fold_left]. rewrite app_nil_r.
    induction tbl as [|d tbl IHt]; simpl; [reflexivity | now f_equal].
  - rewrite !run_ops_snoc, IH. unfold resync, delete_owned.
    rewrite filter_app, filter_filter, <- app_assoc. f_equal.
    apply filter_ext. intros d. rewrite touched_snoc. now rewrite negb_orb.
Qed.

Lemma run_ops_rows_touched (ops : list resync_op) :
  forall d, In d (run_ops ops []) -> touched ops d = true.
Proof.
  induction ops as [|o ops IH] using rev_ind; intros d Hd; [contradiction|].
  rewrite run_ops_snoc in Hd. rewrite touched_snoc.
  unfold resync, delete_owned in Hd. apply in_app_or in Hd as [Hd|Hd].
  - apply filter_In in Hd as [Hd _]. now rewrite (IH d Hd).
  - unfold edges_of in Hd. apply in_map_iff in Hd as [k [<- _]].
    unfold owned_by. simpl. rewrite Nat.eqb_refl, Z.eqb_refl. apply orb_true_r.
Qed.

Lemma filter_none {A} (f : A -> bool) (l : list A) :
  (forall x, In x l -> f x = false) -> filter f l = [].
Proof.
  induction l as [|a l IH]; intros H; simpl; [reflexivity|].
  rewrite (H a (or_introl eq_refl)). apply IH. intros x Hx. apply H. now right.
Qed.

(** The same resyncs once more change nothing. *)
Lemma run_ops_twice (ops : list resync_op) (tbl : list ModDependency) :
  run_ops ops (run_ops ops tbl) = run_ops ops tbl.
Proof.
  rewrite (run_ops_split ops (run_ops ops tbl)).
  rewrite (run_ops_split ops tbl) at 1.
  rewrite filter_app, filter_filter.
  rewrite (filter_none (fun d => negb (touched ops d)) (run_ops ops []))
    by (intros d Hd; now rewrite (run_ops_rows_touched ops d Hd)).
  rewrite app_nil_r. rewrite (run_ops_split ops tbl). f_equal.
  apply filter_ext. intros d. now destruct (touched ops d).
Qed.

Lemma sync_one_stores_id (s : nat) (m : ModJson) (st : Store) :
  let e := updated_entry m s (fst (fst (found_or_new (name_of m) s (modentries st)))) in
  e_name e = name_of m
  /\ e_id e = id_in s (modentries (sync_one s m st)) (name_of m)
  /\ find (entry_matches (name_of m) s) (modentries (sync_one s m st)) <> None.
Proof.
  cbv zeta. pose proof (stored_after_upsert m (name_of m) s (modentries st)) as H.
  cbv zeta in H. rewrite modentries_sync_one. unfold upsert, id_in. rewrite H.
  repeat split; [|discriminate].
  rewrite updated_entry_name.
  apply (found_or_new_key (name_of m) s (modentries st)).
Qed.

(** The dependency table after a pass, by the ids the entries have
    when the pass is over. *)
Lemma moddependencies_sync_all (s : nat) (ids : string -> nat)
    (modlist : list ModJson) :
  forall st,
    unique_ids st ->
    (forall m, In m modlist ->
       ids (name_of m) = id_in s (modentries (sync_all s modlist st)) (name_of m)) ->
    moddependencies (sync_all s modlist st)
    = run_ops (flat_map (ops_of ids) modlist) (moddependencies st).
Proof.
  induction modlist as [|m ml IH]; intros st Hnd Hids; [reflexivity|].
  cbn [sync_all fold_left flat_map]. fold (sync_all s ml (sync_one s m st)).
  rewrite run_ops_app, IH.
  - f_equal. rewrite <- resync_all_ops.
    destruct (sync_one_stores_id s m st) as (Hname & Hid & Hpres).
    unfold sync_one at 1. cbn [moddependencies].
    rewrite Hname, Hid. f_equal.
    rewrite (Hids m (or_introl eq_refl)).
    cbn [sync_all fold_left]. fold (sync_all s ml (sync_one s m st)).
    rewrite modentries_sync_all. symmetry.
    apply upsert_all_id_in; [|assumption].
    now apply sync_one_unique_ids.
  - now apply sync_one_unique_ids.
  - intros m' Hm'. apply (Hids m' (or_intror Hm')).
Qed.

(** A second pass over the same list changes nothing in the
    database. *)
Lemma sync_all_twice (s : nat) (modlist : list ModJson) (st : Store) :
  unique_ids st ->
  sync_all s modlist (sync_all s modlist st) = sync_all s modlist st.
Proof.
  intros Hnd.
  set (st1 := sync_all s modlist st).
  assert (Hnd1 : unique_ids st1) by now apply sync_all_unique_ids.
  assert (HE : modentries (sync_all s modlist st1) = modentries st1).
  { rewrite modentries_sync_all. unfold st1. rewrite modentries_sync_all.
    now apply upsert_all_twice. }
  assert (HD : moddependencies (sync_all s modlist st1) = moddependencies st1).
  { rewrite (moddependencies_sync_all s (id_in s (modentries st1)) modlist st1 Hnd1)
      by (intros m _; now rewrite HE).
    unfold st1 at 2 3.
    rewrite (moddependencies_sync_all s (id_in s (modentries st1)) modlist st Hnd)
      by reflexivity.
    apply run_ops_twice. }
  pose proof (modservices_sync_all s modlist st1) as HS.
  destruct (sync_all s modlist st1) as [sv en de], st1 as [sv1 en1 de1].
  simpl in *. congruence.
Qed.

(** When every object has its entry, a pass counts them all as
    updated. *)
Lemma count_all_stored (s : nat) (modlist : list ModJson) :
  forall st self,
    unique_ids st ->
    (forall m, In m modlist ->
       find (entry_matches (name_of m) s) (modentries st) <> None) ->
    count_all s modlist st self
    = {| service := service self; new := new self;
         updated := updated self + List.length modlist |}.
Proof.
  induction modlist as [|m ml IH]; intros st self Hnd Hpres.
  - simpl. rewrite Nat.add_0_r. now destruct self.
  - cbn [count_all]. rewrite IH.
    + unfold count_one, found_or_new.
      destruct (find (entry_matches (name_of m) s) (modentries st)) eqn:E;
        [|now elim (Hpres m (or_introl eq_refl))].
      simpl. f_equal. lia.
    + now apply sync_one_unique_ids.
    + intros m' Hm'. rewrite modentries_sync_one.
      apply upsert_id_in; [assumption|]. apply Hpres. now right.
Qed.

(** *** The whole refresh of a service *)

Lemma update_service_data_run (self : ServiceUpdater) (data : Manifest)
    (sj : ServiceJson) (n : string) (fl : list string) (w : World) :
  j_service data = Some sj -> j_service_name sj = Some n ->
  j_filelocations sj = Some fl ->
  update_service_data self data w
  = (with_db w (with_service (db w) (refreshed (service self) n fl)),
     Ok {| service := refreshed (service self) n fl;
           new := new self; updated := updated self |}).
Proof.
  intros H1 H2 H3. unfold update_service_data. rewrite H1. run_db.
  rewrite H2. simpl. rewrite H3. reflexivity.
Qed.

(** What a refresh that returns has read and done. *)
Lemma update_ok (get_json : string -> result Manifest) (self self1 : ServiceUpdater)
    (w w1 : World) :
  update get_json self w = (w1, Ok self1) ->
  exists data sj n fl modlist,
    get_json (svc_url (service self)) = Ok data
    /\ j_service data = Some sj /\ j_service_name sj = Some n
    /\ j_filelocations sj = Some fl /\ j_mods data = Some modlist
    /\ update_mods {| service := refreshed (service self) n fl;
                      new := new self; updated := updated self |}
                   modlist
                   (with_db w (with_service (db w) (refreshed (service self) n fl)))
       = (w1, Ok self1).
Proof.
  unfold update. unfold bind at 1.
  destruct (get_json (svc_url (service self))) as [data|x] eqn:Hj; [|discriminate].
  unfold bind at 1.
  destruct (j_service data) as [sj|] eqn:H1;
    [|unfold update_service_data; rewrite H1; discriminate].
  destruct (j_service_name sj) as [n|] eqn:H2;
    [|unfold update_service_data; rewrite H1; run_db; rewrite H2; discriminate].
  destruct (j_filelocations sj) as [fl|] eqn:H3;
    [|unfold update_service_data; rewrite H1; run_db; rewrite H2; simpl;
      rewrite H3; discriminate].
  rewrite (update_service_data_run self data sj n fl w H1 H2 H3).
  unfold bind at 1.
  destruct (j_mods data) as [modlist|] eqn:H4; [|discriminate].
  cbn [item ret]. intros H.
  exists data, sj, n, fl, modlist. repeat split; assumption.
Qed.

Lemma update_run (get_json : string -> result Manifest) (self : ServiceUpdater)
    (w : World) (data : Manifest) (sj : ServiceJson) (n : string)
    (fl : list string) (modlist : list ModJson) :
  get_json (svc_url (service self)) = Ok data ->
  j_service data = Some sj -> j_service_name sj = Some n ->
  j_filelocations sj = Some fl -> j_mods data = Some modlist ->
  update get_json self w
  = update_mods {| service := refreshed (service self) n fl;
                   new := new self; updated := updated self |}
                modlist
                (with_db w (with_service (db w) (refreshed (service self) n fl))).
Proof.
  intros Hj H1 H2 H3 H4. unfold update. unfold bind at 1. rewrite Hj.
  unfold bind at 1. rewrite (update_service_data_run self data sj n fl w H1 H2 H3).
  unfold bind at 1. rewrite H4. reflexivity.
Qed.

Lemma count_all_service (s : nat) (modlist : list ModJson) :
  forall st self, service (count_all s modlist st self) = service self.
Proof.
  induction modlist as [|m ml IH]; intros st self; [reflexivity|].
  simpl. now rewrite IH, count_one_service.
Qed.

Lemma replace_service_twice (s : ModService) (tbl : list ModService) :
  replace_service s (replace_service s tbl) = replace_service s tbl.
Proof.
  unfold replace_service. rewrite map_map. apply map_ext. intros r.
  destruct (Nat.eqb_spec (svc_id r) (svc_id s)) as [Heq|Hne].
  - now rewrite Nat.eqb_refl.
  - destruct (Nat.eqb_spec (svc_id r) (svc_id s)); [contradiction | reflexivity].
Qed.

(** C7. When a refresh of a service returns, on a table whose ids are
    unique, a second refresh of the service with the same manifest
    (made with the service as the first left it, or with any object for
    the same id and URL) returns too, leaves the database and the log
    exactly as the first left them, every entry and every dependency
    row included, and counts no new entry and as many updated ones as
    the manifest has objects. *)
Theorem update_twice_same :
  forall (get_json : string -> result Manifest) (self self1 : ServiceUpdater)
         (w w1 : World),
    unique_ids (db w) ->
    update get_json self w = (w1, Ok self1) ->
    exists data modlist,
      get_json (svc_url (service self)) = Ok data
      /\ j_mods data = Some modlist
      /\ forall s' : ModService,
           svc_id s' = svc_id (service self) ->
           svc_url s' = svc_url (service self) ->
           update get_json (ServiceUpdater_init s') w1
           = (w1, Ok {| service := service self1; new := 0;
                        updated := List.length modlist |}).
Proof.
  intros get_json self self1 w w1 Hnd Hrun.
  destruct (update_ok get_json self self1 w w1 Hrun)
    as (data & sj & n & fl & modlist & Hj & H1 & H2 & H3 & H4 & Hmods).
  exists data, modlist. split; [assumption|]. split; [assumption|].
  intros s' Hid Hurl.
  pose proof (update_mods_ok_readable _ _ _ Hmods) as Hall.
  rewrite (update_mods_run modlist _ _ Hall) in Hmods.
  cbn [service svc_id refreshed] in Hmods.
  set (sid := svc_id (service self)) in *.
  set (s2 := refreshed (service self) n fl) in *.
  set (sta := with_service (db w) s2) in *.
  injection Hmods as Hw1 Hself1.
  assert (Hs2 : refreshed s' n fl = s2).
  { unfold s2, refreshed. now rewrite Hid, Hurl. }
  assert (Hsvc : service self1 = s2).
  { rewrite <- Hself1. now rewrite count_all_service. }
  assert (Hnda : unique_ids sta) by exact Hnd.
  assert (Hdb1 : db w1 = sync_all sid modlist sta) by now rewrite <- Hw1.
  rewrite (update_run get_json (ServiceUpdater_init s') w1 data sj n fl modlist)
    by (try assumption; simpl; now rewrite Hurl).
  cbn [service ServiceUpdater_init new updated]. rewrite Hs2.
  assert (Hback : with_db w1 (with_service (db w1) s2) = w1).
  { unfold with_db, with_service. rewrite Hdb1.
    rewrite modservices_sync_all. unfold sta at 1. cbn [modservices with_service].
    rewrite replace_service_twice.
    change (replace_service s2 (modservices (db w))) with (modservices sta).
    rewrite <- (modservices_sync_all sid modlist sta), store_eta.
    rewrite <- Hdb1. apply world_eta. }
  rewrite Hback, (update_mods_run modlist _ _ Hall).
  cbn [service svc_id]. unfold s2 at 1 3. cbn [refreshed svc_id]. fold sid.
  rewrite Hdb1, sync_all_twice by assumption.
  rewrite count_all_stored.
  - rewrite <- Hdb1. unfold with_db. rewrite world_eta. simpl.
    now rewrite Hsvc.
  - now apply sync_all_unique_ids.
  - intros m Hm. rewrite modentries_sync_all.
    now apply upsert_all_stores.
Qed.

(* ================================================================= *)
(** ** Relation resync *)

Lemma owned_by_resync_all (i : nat) (n : string) (m : ModJson)
    (tbl : list ModDependency) :
  filter (owned_by i 0) (resync_all i n m tbl)
  = edges_of i 0 (get_or_empty (j_depends m))
  /\ filter (owned_by i 1) (resync_all i n m tbl)
     = edges_of i 1 (n :: get_or_empty (j_provides m))
  /\ filter (owned_by i 2) (resync_all i n m tbl)
     = edges_of i 2 (get_or_empty (j_conflict m))
  /\ filter (owned_by i 3) (resync_all i n m tbl)
     = edges_of i 3 (get_or_empty (j_recommends m)).
Proof.
  unfold resync_all. repeat split.
  - rewrite !owned_by_resync_other by (intros H; inversion H).
    apply owned_by_resync_same.
  - rewrite !owned_by_resync_other by (intros H; inversion H).
    apply owned_by_resync_same.
  - rewrite !owned_by_resync_other by (intros H; inversion H).
    apply owned_by_resync_same.
  - apply owned_by_resync_same.
Qed.

(** C5. A relation resync replaces the entry's rows of that kind. After
    [set_dependency_relation modentry keywords relation], which never
    raises, the rows of that entry and kind are exactly one row per
    keyword of the new list, in the order of the list, so none of the
    earlier rows of that kind is left and an empty list leaves none;
    the rows of every other entry or kind, and the other tables, are as
    they were. And after [update_mods] has handled one manifest object,
    the stored entry's keywords are, kind by kind, the object's lists,
    an absent list counting as empty, with the entry's own name put
    before the ["provides"] list. *)
Theorem relation_resync_replaces :
  (forall (modentry : ModEntry) (keywords : list string) (relation : Z) (w : World),
      let w' := fst (set_dependency_relation modentry keywords relation w) in
      snd (set_dependency_relation modentry keywords relation w) = Ok tt
      /\ select_owned (db w') (e_id modentry) relation
         = edges_of (e_id modentry) relation keywords
      /\ get_dependency_info (db w') {| mod_ := modentry |} relation = keywords
      /\ (forall i' r', (i', r') <> (e_id modentry, relation) ->
            select_owned (db w') i' r' = select_owned (db w) i' r')
      /\ modentries (db w') = modentries (db w)
      /\ modservices (db w') = modservices (db w))
  /\ (forall (self self' : ServiceUpdater) (m : ModJson) (w w' : World),
        update_mods self [m] w = (w', Ok self') ->
        exists e,
          find (entry_matches (name_of m) (svc_id (service self)))
               (modentries (db w')) = Some e
          /\ get_dependency_info (db w') {| mod_ := e |} Requires
             = get_or_empty (j_depends m)
          /\ get_dependency_info (db w') {| mod_ := e |} Provides
             = e_name e :: get_or_empty (j_provides m)
          /\ get_dependency_info (db w') {| mod_ := e |} Conflicts
             = get_or_empty (j_conflict m)
          /\ get_dependency_info (db w') {| mod_ := e |} Recommends
             = get_or_empty (j_recommends m)).
Proof.
  split.
  - intros modentry keywords relation w. rewrite set_dependency_relation_run.
    simpl. unfold get_dependency_info, select_owned. simpl.
    rewrite owned_by_resync_same, keywords_edges_of.
    repeat split; try reflexivity.
    intros i' r' Hne. now apply owned_by_resync_other.
  - intros self self' m w w' H.
    pose proof (update_mods_ok_readable _ _ _ H) as Hall.
    rewrite (update_mods_run [m] self w Hall) in H.
    injection H as Hw _. subst w'. cbn [sync_all fold_left with_db db].
    set (s := svc_id (service self)).
    set (e := updated_entry m s
                (fst (fst (found_or_new (name_of m) s (modentries (db w)))))).
    exists e. split; [apply stored_after_upsert|].
    unfold get_dependency_info, select_owned, sync_one.
    cbn [moddependencies mod_]. fold s. fold e.
    destruct (owned_by_resync_all (e_id e) (e_name e) m (moddependencies (db w)))
      as (H0 & H1 & H2 & H3).
    unfold Requires, Provides, Conflicts, Recommends.
    rewrite H0, H1, H2, H3, !keywords_edges_of. auto.
Qed.

(* ================================================================= *)
(** ** The code on the small catalog *)

Lemma update_a_runs :
  update get_json_a updater_a world_start = (world_a, Ok updater_a_done).
Proof. vm_compute. reflexivity. Qed.

(** The scenario of section 8: AddonX needs Core through "core-api";
    nobody provides "extras", which is logged and left out. *)
Example required_entries_of_addon :
  get_dependency_mods Py2Dict.keys 6 (db world_a) {| mod_ := addon_entry |} []
  = Some (Ok ([{| mod_ := core_entry |}], [LWarn "extras"])).
Proof. vm_compute. reflexivity. Qed.

(** The second service cannot be fetched: the batch raises and the
    database is the one before the batch, although the first service's
    refresh had written to it; only the log line of the first stays. *)
Example batch_rolled_back :
  ModDb.update_services get_json_a world_start
  = ({| db := db world_start; logged := [LInfo "A" 2 0] |}, Raise IOError)
  /\ for_each (update_one get_json_a) [service_a] tt world_start
     = ({| db := db world_a; logged := [LInfo "A" 2 0] |}, Ok tt)
  /\ modentries (db world_a) = [core_entry; addon_entry].
Proof. vm_compute. repeat split. Qed.

(** Outside a transaction the writes made before the exception stay:
    an object without ["version"] leaves the entry it created. *)
Example update_alone_not_atomic :
  let broken :=
    {| j_name := Some "Half"; j_version := None; j_filename := None;
       j_description := None; j_filehash := None; j_filesize := None;
       j_homepage := None; j_author := None; j_depends := None;
       j_provides := None; j_conflict := None; j_recommends := None |} in
  snd (update_mods updater_a [broken] world_start) = Raise (KeyError "version")
  /\ modentries (db (fst (update_mods updater_a [broken] world_start)))
     = [new_entry 1 "Half" 1].
Proof. vm_compute. split; reflexivity. Qed.

(** Section 8, relation full-replace: depends [A, B], then depends [B],
    leaves B only. *)
Example depends_ab_then_b :
  let w1 := fst (update_mods updater_a [needs_ab] world_start) in
  let w2 := fst (update_mods updater_a [needs_b] w1) in
  get_dependency_info (db w1) {| mod_ := entry_P |} Requires = ["A"; "B"]
  /\ get_dependency_info (db w2) {| mod_ := entry_P |} Requires = ["B"]
  /\ get_dependency_info (db w2) {| mod_ := entry_P |} Provides = ["P"].
Proof. vm_compute. repeat split. Qed.

Example check_file_cases :
  check_file 0 toy_update toy_digest toy_base64 files
             {| mod_ := with_filehash core_entry (VStr "AAA") |} "Core.zip" false
  = Ok true
  /\ check_file 0 toy_update toy_digest toy_base64 files
                {| mod_ := with_filehash core_entry (VStr "AAB") |} "Core.zip" true
     = Ok false
  /\ check_file 0 toy_update toy_digest toy_base64 files
                {| mod_ := with_filehash core_entry (VStr "AAA") |} "gone.zip" true
     = Raise IOError
  /\ check_file 0 toy_update toy_digest toy_base64 files
                {| mod_ := core_entry |} "gone.zip" true
     = Ok true.
Proof. vm_compute. repeat split. Qed.

(** *** The theorems at these inputs *)

Lemma self_provision_after_update_mods_witness :
  unique_ids (db world_start)
  /\ update_mods updater_a [core_json; addon_json] world_start
     = (world_pass, Ok updater_pass_done)
  /\ exists e,
       find (entry_matches "AddonX" 1) (modentries (db world_pass)) = Some e
       /\ e_name e = "AddonX"
       /\ In (e_name e) (get_dependency_info (db world_pass) {| mod_ := e |} Provides).
Proof.
  assert (Hids : unique_ids (db world_start)) by constructor.
  assert (Hrun : update_mods updater_a [core_json; addon_json] world_start
                 = (world_pass, Ok updater_pass_done))
    by (vm_compute; reflexivity).
  split; [exact Hids|]. split; [exact Hrun|].
  apply (@self_provision_after_update_mods updater_a updater_pass_done
           [core_json; addon_json] world_start world_pass Hids Hrun addon_json).
  simpl. auto.
Defined.

Lemma save_mod_instance_fields_witness :
  save_mod_instance updater_a core_json_2 world_a
  = (world_core_2, Ok (core_entry_2, false))
  /\ mod_get core_json_2 description = VStr ""
  /\ getattr core_entry_2 description = VStr "X"
  /\ getattr core_entry_2 homepage = VStr "http://core"
  /\ j_version core_json_2 = Some (e_version core_entry_2).
Proof.
  assert (Hrun : save_mod_instance updater_a core_json_2 world_a
                 = (world_core_2, Ok (core_entry_2, false)))
    by (vm_compute; reflexivity).
  split; [exact Hrun|]. split; [reflexivity|].
  destruct (@save_mod_instance_fields updater_a core_json_2 world_a world_core_2
              core_entry_2 false Hrun)
    as (_ & Hfields & Hversion & _).
  split; [exact (Hfields description)|].
  split; [exact (Hfields homepage) | exact Hversion].
Defined.

Lemma update_twice_same_witness :
  unique_ids (db world_start)
  /\ update get_json_a updater_a world_start = (world_a, Ok updater_a_done)
  /\ update get_json_a (ServiceUpdater_init (service updater_a_done)) world_a
     = (world_a, Ok {| service := service updater_a_done; new := 0; updated := 2 |}).
Proof.
  assert (Hids : unique_ids (db world_start)) by constructor.
  split; [exact Hids|]. split; [exact update_a_runs|].
  destruct (@update_twice_same get_json_a updater_a updater_a_done
              world_start world_a Hids update_a_runs)
    as (data & modlist & Hdata & Hmods & Hagain).
  assert (Hlist : modlist = [core_json; addon_json]).
  { change (Ok manifest_a = Ok data) in Hdata. injection Hdata as <-.
    change (Some [core_json; addon_json] = Some modlist) in Hmods.
    now injection Hmods as <-. }
  subst modlist.
  exact (Hagain (service updater_a_done) eq_refl eq_refl).
Defined.

Lemma get_dependency_mods_complete_witness :
  (forall stored : list string, NoDup stored -> Permutation stored (rev stored))
  /\ acyclic (db world_a) /\ referential (db world_a)
  /\ exists mods log' keywords,
       (forall fuel, List.length (moddependencies (db world_a)) < fuel ->
          get_dependency_mods (@rev string) fuel (db world_a)
                              {| mod_ := addon_entry |} []
          = Some (Ok (mods, log')))
       /\ NoDup keywords
       /\ (forall k, In k keywords
                     <-> reach (db world_a) 2 k /\ providers (db world_a) k <> [])
       /\ Forall2 (provider_of (db world_a)) keywords mods
       /\ (forall k, In (LWarn k) log'
                     <-> In (LWarn k) []
                         \/ (reach (db world_a) 2 k /\ providers (db world_a) k = [])).
Proof.
  assert (Hacyc : acyclic (db world_a)).
  { apply (ranked_acyclic (fun i => i)). vm_compute. reflexivity. }
  assert (Href : referential (db world_a)).
  { apply referentialb_referential. vm_compute. reflexivity. }
  assert (Hperm : forall stored : list string,
             NoDup stored -> Permutation stored (rev stored))
    by (intros stored _; apply Permutation_rev).
  split; [exact Hperm|]. split; [exact Hacyc|]. split; [exact Href|].
  exact (@get_dependency_mods_complete (@rev string) (db world_a)
           {| mod_ := addon_entry |} [] Hperm Hacyc Href).
Defined.

Lemma check_file_ignores_file_without_digest_witness :
  truthy (e_filehash (mod_ {| mod_ := core_entry |})) = false
  /\ check_file 0 toy_update toy_digest toy_base64 files
                {| mod_ := core_entry |} "Core.zip" true
     = check_file 0 toy_update toy_digest toy_base64 (fun _ => None)
                  {| mod_ := core_entry |} "gone.zip" true
  /\ check_file 0 toy_update toy_digest toy_base64 files
                {| mod_ := core_entry |} "Core.zip" true
     = Ok true.
Proof.
  split; [reflexivity|].
  apply (@check_file_ignores_file_without_digest nat 0 toy_update toy_digest toy_base64
           files (fun _ => None) {| mod_ := core_entry |} "Core.zip" "gone.zip" true).
  reflexivity.
Defined.

(* ================================================================= *)
(** ** More on the digest *)

Lemma blocksize_positive : 0 < N.to_nat BLOCKSIZE.
Proof. unfold BLOCKSIZE. lia. Qed.

Lemma read_nothing (rest : list byte) :
  fst (read BLOCKSIZE rest) = [] -> snd (read BLOCKSIZE rest) = [].
Proof.
  unfold read. cbn [fst snd]. pose proof blocksize_positive as Hpos.
  destruct (N.to_nat BLOCKSIZE) as [|n]; [lia|].
  destruct rest; [reflexivity | discriminate].
Qed.

Lemma read_all (rest : list byte) :
  fst (read BLOCKSIZE rest) ++ snd (read BLOCKSIZE rest) = rest.
Proof. unfold read. apply firstn_skipn. Qed.

Section Streaming.

Variable hash_state : Type.
Variable hasher : hash_state.
Variable hash_update : hash_state -> list byte -> hash_state.
Variable hash_digest : hash_state -> list byte.
Variable encode_base64 : list byte -> string.

Hypothesis update_app :
  forall h a b, hash_update (hash_update h a) b = hash_update h (a ++ b).
Hypothesis update_nil : forall h, hash_update h [] = h.

Lemma hash_blocks_streaming (fuel : nat) :
  forall (h : hash_state) (buf rest : list byte),
    (buf = [] -> rest = []) ->
    List.length buf + List.length rest < fuel ->
    hash_blocks hash_update fuel h buf rest = Some (hash_update h (buf ++ rest)).
Proof.
  induction fuel as [|fuel IH]; intros h buf rest Hend Hlt; [lia|].
  cbn [hash_blocks].
  destruct (Nat.ltb_spec 0 (List.length buf)) as [Hpos|Hzero].
  - pose proof (read_length BLOCKSIZE rest) as Hlen.
    pose proof (read_nothing rest) as Hnil.
    pose proof (read_all rest) as Hall.
    destruct (read BLOCKSIZE rest) as [buf' rest']. cbn [fst snd] in *.
    rewrite IH by (assumption || lia).
    now rewrite update_app, Hall.
  - destruct buf; [|simpl in Hzero; lia].
    rewrite (Hend eq_refl). now rewrite update_nil.
Qed.

(** The digest string of [content]: the encoding of the digest after
    one update with all the bytes, stripped as [create_filehash]
    strips it. *)
Lemma create_filehash_streaming (fs : string -> option (list byte)) (path : string)
    (content : list byte) :
  fs path = Some content ->
  create_filehash hasher hash_update hash_digest encode_base64 fs path
  = Ok (strip is_equals_sign
          (strip is_whitespace
             (encode_base64 (hash_digest (hash_update hasher content))))).
Proof.
  intros Hfs. unfold create_filehash, filehash_of. rewrite Hfs.
  pose proof (read_length BLOCKSIZE content) as Hlen.
  pose proof (read_nothing content) as Hnil.
  pose proof (read_all content) as Hall.
  destruct (read BLOCKSIZE content) as [buf rest]. cbn [fst snd] in *.
  rewrite hash_blocks_streaming by (assumption || lia).
  now rewrite Hall.
Qed.

(** X1. With a hash whose [update] may be fed in pieces (feeding [a]
    then [b] is feeding [a ++ b], and feeding nothing changes nothing),
    the block-wise loop of [create_filehash] gives the digest of the
    whole content: the string is the stripped encoding of the digest
    after one update with all the bytes of the file. *)
Theorem create_filehash_whole_content :
  forall (fs : string -> option (list byte)) (path : string) (content : list byte),
    fs path = Some content ->
    create_filehash hasher hash_update hash_digest encode_base64 fs path
    = Ok (strip is_equals_sign
            (strip is_whitespace
               (encode_base64 (hash_digest (hash_update hasher content))))).
Proof. exact create_filehash_streaming. Qed.

(** C8. With a hash whose [update] may be fed in pieces: when the
    entry holds a digest (a truthy [filehash]) and the file can be
    read, [check_file] returns, without raising, whether the stored
    value is the digest string of the file's content, that is the
    stripped encoding of the digest of all the bytes of the file; a
    mismatch gives [False]. When the entry holds no digest, it returns
    [approve_if_no_dbhash] as given. *)
Theorem check_file_verifies :
  forall (fs : string -> option (list byte)) (self : ModInstance)
         (path : string) (approve_if_no_dbhash : bool),
    (truthy (e_filehash (mod_ self)) = true ->
     forall content, fs path = Some content ->
       exists b,
         check_file hasher hash_update hash_digest encode_base64
                    fs self path approve_if_no_dbhash = Ok b
         /\ (b = true <->
             e_filehash (mod_ self)
             = VStr (strip is_equals_sign
                       (strip is_whitespace
                          (encode_base64
                             (hash_digest (hash_update hasher content)))))))
    /\ (truthy (e_filehash (mod_ self)) = false ->
        check_file hasher hash_update hash_digest encode_base64
                   fs self path approve_if_no_dbhash = Ok approve_if_no_dbhash).
Proof.
  intros fs self path approve. split.
  - intros Ht content Hfs.
    exists (str_eq_value
              (strip is_equals_sign
                 (strip is_whitespace
                    (encode_base64 (hash_digest (hash_update hasher content)))))
              (e_filehash (mod_ self))).
    split.
    + unfold check_file. now rewrite Ht, (create_filehash_streaming fs path content Hfs).
    + apply str_eq_value_true.
  - intros Hf. unfold check_file. now rewrite Hf.
Qed.

End Streaming.

(** *** The two [strip]s *)

Lemma lstrip_list (p : ascii -> bool) (s : string) :
  list_ascii_of_string (lstrip p s) = drop_while p (list_ascii_of_string s).
Proof.
  induction s as [|c s IH]; simpl; [reflexivity|].
  destruct (p c); [exact IH | reflexivity].
Qed.

Lemma strip_list (p : ascii -> bool) (s : string) :
  list_ascii_of_string (strip p s)
  = rev (drop_while p (rev (drop_while p (list_ascii_of_string s)))).
Proof.
  unfold strip, reverse.
  rewrite list_ascii_of_string_of_list_ascii, lstrip_list.
  rewrite list_ascii_of_string_of_list_ascii, lstrip_list.
  reflexivity.
Qed.

Lemma drop_while_head {A} (p : A -> bool) (l : list A) (a : A) (t : list A) :
  drop_while p l = a :: t -> p a = false.
Proof.
  induction l as [|b l IH]; simpl; [discriminate|].
  destruct (p b) eqn:E; [exact IH|].
  intros H. injection H as <- _. exact E.
Qed.

Lemma drop_while_suffix {A} (p : A -> bool) (l : list A) :
  exists pre, l = pre ++ drop_while p l.
Proof.
  induction l as [|b l [pre IH]]; simpl; [now exists []|].
  destruct (p b); [|now exists []].
  exists (b :: pre). simpl. now rewrite <- IH.
Qed.

Lemma list_ascii_of_append (s t : string) :
  list_ascii_of_string (String.append s t)
  = list_ascii_of_string s ++ list_ascii_of_string t.
Proof. induction s as [|c s IH]; simpl; [reflexivity | now rewrite IH]. Qed.

(** What [s.strip(chars)] returns neither begins nor ends with a
    character of the class. *)
Lemma strip_ends (p : ascii -> bool) (s : string) :
  (forall c t, strip p s = String c t -> p c = false)
  /\ (forall t c, strip p s = String.append t (String c EmptyString) -> p c = false).
Proof.
  pose proof (strip_list p s) as Hl.
  set (m := drop_while p (list_ascii_of_string s)) in Hl.
  set (d := drop_while p (rev m)) in Hl.
  split.
  - intros c t Heq. rewrite Heq in Hl. simpl in Hl.
    assert (Hd : d = rev (list_ascii_of_string t) ++ [c]).
    { rewrite <- (rev_involutive d), <- Hl. reflexivity. }
    destruct (drop_while_suffix p (rev m)) as [pre Hpre]. fold d in Hpre.
    rewrite Hd, app_assoc in Hpre.
    assert (Hm : m = c :: rev (pre ++ rev (list_ascii_of_string t))).
    { rewrite <- (rev_involutive m), Hpre, rev_app_distr. reflexivity. }
    apply (drop_while_head p (list_ascii_of_string s) c _ Hm).
  - intros t c Heq. rewrite Heq, list_ascii_of_append in Hl. simpl in Hl.
    assert (Hd : d = c :: rev (list_ascii_of_string t)).
    { rewrite <- (rev_involutive d), <- Hl, rev_app_distr. reflexivity. }
    apply (drop_while_head p (rev m) c _ Hd).
Qed.

Section Outcome.

Variable hash_state : Type.
Variable hasher : hash_state.
Variable hash_update : hash_state -> list byte -> hash_state.
Variable hash_digest : hash_state -> list byte.
Variable encode_base64 : list byte -> string.

Lemma filehash_of_stripped (content : list byte) (h : string) :
  filehash_of hasher hash_update hash_digest encode_base64 content = Some h ->
  exists x, h = strip is_equals_sign x.
Proof.
  unfold filehash_of. destruct (read BLOCKSIZE content) as [buf rest].
  destruct (hash_blocks hash_update (S (List.length content)) hasher buf rest);
    intros H; [injection H as <-; eauto | discriminate].
Qed.

(** X2. [create_filehash] raises, and then [IOError], exactly when the
    file cannot be opened; for every file that can be read the loop
    ends and it returns a string, and that string neither begins nor
    ends with an equals sign, whatever the hash and the codec give. *)
Theorem create_filehash_outcome :
  forall (fs : string -> option (list byte)) (path : string),
    (fs path = None ->
     create_filehash hasher hash_update hash_digest encode_base64 fs path
     = Raise IOError)
    /\ (forall content, fs path = Some content ->
          exists h,
            create_filehash hasher hash_update hash_digest encode_base64 fs path
            = Ok h
            /\ (forall c t, h = String c t -> c <> "="%char)
            /\ (forall t c, h = String.append t (String c EmptyString) ->
                            c <> "="%char)).
Proof.
  intros fs path. split.
  - intros Hfs. unfold create_filehash. now rewrite Hfs.
  - intros content Hfs.
    destruct (create_filehash_readable hasher hash_update hash_digest encode_base64
                fs path Hfs) as [h [Hh Hc]].
    exists h. split; [exact Hc|].
    destruct (filehash_of_stripped content h Hh) as [x ->].
    destruct (strip_ends is_equals_sign x) as [H1 H2].
    split.
    + intros c t Heq Hc'. apply H1 in Heq. subst c. discriminate.
    + intros t c Heq Hc'. apply H2 in Heq. subst c. discriminate.
Qed.

(** X3. When the entry holds a digest, [approve_if_no_dbhash] plays no
    part: [check_file] gives the same with either value of the flag,
    and a file that cannot be read makes it raise [IOError] instead of
    approving. *)
Theorem check_file_flag_unused_with_digest :
  forall (fs : string -> option (list byte)) (self : ModInstance) (path : string),
    truthy (e_filehash (mod_ self)) = true ->
    check_file hasher hash_update hash_digest encode_base64 fs self path true
    = check_file hasher hash_update hash_digest encode_base64 fs self path false
    /\ (fs path = None ->
        forall flag,
          check_file hasher hash_update hash_digest encode_base64 fs self path flag
          = Raise IOError).
Proof.
  intros fs self path Ht. unfold check_file. rewrite Ht. split; [reflexivity|].
  intros Hfs flag. unfold create_filehash. now rewrite Hfs.
Qed.

End Outcome.

(* ================================================================= *)
(** ** Looking an entry up by name *)

(** X5. After a pass of [update_mods] that returns, on a table with
    unique ids, [get_module] finds an entry for the name of every
    object of the manifest. *)
Theorem get_module_after_update_mods :
  forall (self self' : ServiceUpdater) (modlist : list ModJson) (w w' : World),
    unique_ids (db w) ->
    update_mods self modlist w = (w', Ok self') ->
    forall m, In m modlist ->
      exists i, ModDb.get_module (db w') (name_of m) = Ok i
                /\ e_name (mod_ i) = name_of m.
Proof.
  intros self self' modlist w w' Hnd H m Hin.
  pose proof (update_mods_ok_readable _ _ _ H) as Hall.
  rewrite (update_mods_run modlist self w Hall) in H.
  injection H as Hw _. subst w'. cbn [with_db db].
  destruct (sync_all_self_provided (svc_id (service self)) modlist m Hnd Hin)
    as [e [Hf [Hn _]]].
  apply find_some in Hf as [He _].
  unfold ModDb.get_module, get_entry_by_name.
  destruct (find (fun e0 => e_name e0 =? name_of m) _) as [e'|] eqn:E.
  - exists {| mod_ := e' |}. split; [reflexivity|].
    apply find_some in E as [_ E]. now apply String.eqb_eq in E.
  - apply (find_none _ _ E) in He. simpl in He.
    rewrite Hn, String.eqb_refl in He. discriminate.
Qed.

(* ================================================================= *)
(** ** What a refresh writes, and what it leaves *)

Lemma update_mods_app (self : ServiceUpdater) (l1 l2 : list ModJson) (w : World) :
  update_mods self (l1 ++ l2) w
  = match update_mods self l1 w with
    | (w1, Ok self1) => update_mods self1 l2 w1
    | (w1, Raise e) => (w1, Raise e)
    end.
Proof. unfold update_mods. apply for_each_app. Qed.

Lemma save_mod_instance_raises (self : ServiceUpdater) (m : ModJson) (w : World) :
  readable m = false ->
  let s := svc_id (service self) in
  exists k,
    snd (save_mod_instance self m w) = Raise (KeyError k)
    /\ moddependencies (db (fst (save_mod_instance self m w))) = moddependencies (db w)
    /\ modservices (db (fst (save_mod_instance self m w))) = modservices (db w)
    /\ logged (fst (save_mod_instance self m w)) = logged w
    /\ modentries (db (fst (save_mod_instance self m w)))
       = match j_name m with
         | None => modentries (db w)
         | Some n => snd (found_or_new n s (modentries (db w)))
         end.
Proof.
  intros Hr s. unfold readable in Hr. unfold save_mod_instance, found_or_new.
  destruct (j_name m) as [n|] eqn:En.
  - destruct (j_version m) as [v|] eqn:Ev.
    + destruct (j_filename m) as [f|] eqn:Ef; [discriminate|].
      exists "filename". run_db. fold s.
      destruct (find (entry_matches n s) (modentries (db w))); simpl; auto.
    + exists "version". run_db. fold s.
      destruct (find (entry_matches n s) (modentries (db w))); simpl; auto.
  - exists "name". simpl. auto.
Qed.

Lemma upsert_length (s : nat) (m : ModJson) (tbl : list ModEntry) :
  List.length (upsert s m tbl)
  = List.length tbl
    + (if snd (fst (found_or_new (name_of m) s tbl)) then 1 else 0).
Proof.
  unfold upsert, replace_entry. rewrite length_map. unfold found_or_new.
  destruct (find (entry_matches (name_of m) s) tbl); simpl;
    [lia | now rewrite length_app].
Qed.

Lemma count_all_sums (s : nat) (modlist : list ModJson) :
  forall st self,
    let self' := count_all s modlist st self in
    new self' + updated self' = new self + updated self + List.length modlist
    /\ new self <= new self'
    /\ updated self <= updated self'
    /\ List.length (modentries (sync_all s modlist st))
       = List.length (modentries st) + (new self' - new self).
Proof.
  induction modlist as [|m ml IH]; intros st self; simpl.
  - repeat split; lia.
  - destruct (IH (sync_one s m st) (count_one s m st self)) as (H1 & H2 & H3 & H4).
    rewrite H1, H4. rewrite modentries_sync_one, upsert_length.
    unfold count_one in *.
    destruct (snd (fst (found_or_new (name_of m) s (modentries st))));
      simpl in *; repeat split; lia.
Qed.

(** X6. When a pass of [update_mods] returns, the two counters have
    grown, together by the number of objects of the list; [new] has
    grown by the number of rows the entry table has gained, no row
    having been removed; the service of the updater is the same. *)
Theorem update_mods_counts :
  forall (self self' : ServiceUpdater) (modlist : list ModJson) (w w' : World),
    update_mods self modlist w = (w', Ok self') ->
    new self' + updated self' = new self + updated self + List.length modlist
    /\ new self <= new self' /\ updated self <= updated self'
    /\ List.length (modentries (db w'))
       = List.length (modentries (db w)) + (new self' - new self)
    /\ service self' = service self.
Proof.
  intros self self' modlist w w' H.
  pose proof (update_mods_ok_readable _ _ _ H) as Hall.
  rewrite (update_mods_run modlist self w Hall) in H.
  injection H as Hw Hs. subst w' self'. cbn [with_db db].
  destruct (count_all_sums (svc_id (service self)) modlist (db w) self)
    as (H1 & H2 & H3 & H4).
  repeat split; try assumption. apply count_all_service.
Qed.

Lemma update_mods_cons_raise (self : ServiceUpdater) (m : ModJson)
    (modlist : list ModJson) (w : World) (e : exn) :
  snd (save_mod_instance self m w) = Raise e ->
  update_mods self (m :: modlist) w = (fst (save_mod_instance self m w), Raise e).
Proof.
  intros H. unfold update_mods. cbn [for_each]. unfold bind at 1. unfold bind at 1.
  destruct (save_mod_instance self m w) as [w2 [r|x]]; simpl in *;
    [discriminate | now inversion H].
Qed.

(** X7. A pass that meets an object without one of the keys ["name"],
    ["version"], ["filename"] raises [KeyError] and leaves behind what
    it wrote until then: the objects before it are synchronized, and
    the entry of the failing object, when it has a name, is in the
    table as found or as just created, without its relations; nothing
    is undone. *)
Theorem update_mods_stops_at_unreadable :
  forall (self : ServiceUpdater) (pre post : list ModJson) (m : ModJson) (w : World),
    forallb readable pre = true ->
    readable m = false ->
    let s := svc_id (service self) in
    let done := sync_all s pre (db w) in
    let w' := fst (update_mods self (pre ++ m :: post) w) in
    (exists k, snd (update_mods self (pre ++ m :: post) w) = Raise (KeyError k))
    /\ moddependencies (db w') = moddependencies done
    /\ modservices (db w') = modservices (db w)
    /\ logged w' = logged w
    /\ modentries (db w')
       = match j_name m with
         | None => modentries done
         | Some n => snd (found_or_new n s (modentries done))
         end.
Proof.
  intros self pre post m w Hpre Hm s done w'. subst w'.
  rewrite update_mods_app, (update_mods_run pre self w Hpre). fold s. fold done.
  set (self1 := count_all s pre (db w) self).
  set (w1 := with_db w done).
  assert (Hs1 : svc_id (service self1) = s).
  { unfold self1. now rewrite count_all_service. }
  destruct (save_mod_instance_raises self1 m w1 Hm) as (k & Hk & Hd & Hsv & Hl & He).
  rewrite Hs1 in He.
  rewrite (update_mods_cons_raise self1 m post w1 (KeyError k) Hk).
  cbn [fst snd]. rewrite Hd, Hsv, Hl, He. unfold w1, done. cbn [with_db db logged].
  split; [now exists k|]. repeat split. now rewrite modservices_sync_all.
Qed.

(* ================================================================= *)
(** ** What is logged *)

Section Keeps.

Variable X : Type.
Variable f : World -> X.

Lemma keeps_ret {A} (a : A) : keeps f (ret a).
Proof. intros w. reflexivity. Qed.

Lemma keeps_throw {A} (e : exn) : keeps f (@throw A e).
Proof. intros w. reflexivity. Qed.

Lemma keeps_item {A} (k : string) (o : option A) : keeps f (item k o).
Proof. destruct o; [apply keeps_ret | apply keeps_throw]. Qed.

Lemma keeps_bind {A B} (c : M A) (k : A -> M B) :
  keeps f c -> (forall a, keeps f (k a)) -> keeps f (bind c k).
Proof.
  intros Hc Hk w. unfold bind. specialize (Hc w).
  destruct (c w) as [w1 [a|e]]; simpl in *; [|assumption].
  now rewrite Hk.
Qed.

Lemma keeps_for_each {A S} (body : S -> A -> M S) (l : list A) :
  (forall s a, keeps f (body s a)) -> forall s, keeps f (for_each body l s).
Proof.
  intros Hb. induction l as [|a l IH]; intros s; simpl.
  - apply keeps_ret.
  - apply keeps_bind; [apply Hb | exact IH].
Qed.

End Keeps.

Ltac keeps_step :=
  first
    [ apply keeps_ret | apply keeps_throw | apply keeps_item
    | apply keeps_for_each; intros
    | apply keeps_bind; [|intros] ].

Lemma keeps_logged_get_db : keeps logged get_db.
Proof. intros w. reflexivity. Qed.

Lemma keeps_logged_put_db (st : Store) : keeps logged (put_db st).
Proof. intros w. reflexivity. Qed.

Lemma keeps_logged_save_entry (e : ModEntry) : keeps logged (save_entry e).
Proof. intros w. reflexivity. Qed.

Lemma keeps_logged_save_service (s : ModService) : keeps logged (save_service s).
Proof. intros w. reflexivity. Qed.

Lemma keeps_logged_get_or_create (n : string) (s : nat) :
  keeps logged (get_or_create n s).
Proof. intros w. unfold get_or_create. now destruct (find _ _). Qed.

Lemma keeps_logged_set_dependency_relation (e : ModEntry) (ks : list string) (r : Z) :
  keeps logged (set_dependency_relation e ks r).
Proof. intros w. now rewrite set_dependency_relation_run. Qed.

Lemma keeps_logged_save_mod_instance (self : ServiceUpdater) (m : ModJson) :
  keeps logged (save_mod_instance self m).
Proof.
  unfold save_mod_instance.
  repeat first [ apply keeps_logged_get_or_create | apply keeps_logged_save_entry
               | keeps_step ].
Qed.

Lemma keeps_logged_update_mods (modlist : list ModJson) (self : ServiceUpdater) :
  keeps logged (update_mods self modlist).
Proof.
  unfold update_mods.
  repeat first [ apply keeps_logged_save_mod_instance
               | apply keeps_logged_set_dependency_relation | keeps_step ].
Qed.

Lemma keeps_logged_update_service_data (self : ServiceUpdater) (data : Manifest) :
  keeps logged (update_service_data self data).
Proof.
  unfold update_service_data.
  repeat first [ apply keeps_logged_save_service | keeps_step ].
Qed.

(** The refresh of one service logs nothing, whether it returns or
    raises. *)
Lemma keeps_logged_update (get_json : string -> result Manifest)
    (self : ServiceUpdater) :
  keeps logged (update get_json self).
Proof.
  unfold update.
  apply keeps_bind; [intros w; reflexivity | intros data].
  repeat first [ apply keeps_logged_update_service_data
               | apply keeps_logged_update_mods | keeps_step ].
Qed.

Lemma update_reports (get_json : string -> result Manifest) (s : ModService)
    (w w' : World) (u : ServiceUpdater) :
  update get_json (ServiceUpdater_init s) w = (w', Ok u) ->
  reports get_json s (LInfo (svc_name (service u)) (new u) (updated u)).
Proof.
  intros H.
  destruct (update_ok get_json (ServiceUpdater_init s) u w w' H)
    as (data & sj & n & fl & modlist & Hj & H1 & H2 & H3 & H4 & Hmods).
  pose proof (update_mods_ok_readable _ _ _ Hmods) as Hall.
  rewrite (update_mods_run modlist _ _ Hall) in Hmods.
  injection Hmods as _ Hu.
  exists data, sj, n, modlist, (new u), (updated u).
  repeat split; try assumption.
  - rewrite <- Hu. now rewrite count_all_service.
  - rewrite <- Hu.
    match goal with
    | |- new (count_all ?s0 ?ml ?st ?self) + _ = _ =>
        destruct (count_all_sums s0 ml st self) as (Hsum & _)
    end.
    simpl in Hsum. exact Hsum.
Qed.

(** One round of the loop, when the refresh returns. *)
Lemma update_one_ok (get_json : string -> result Manifest) (s : ModService)
    (w w1 : World) (u : ServiceUpdater) :
  update get_json (ServiceUpdater_init s) w = (w1, Ok u) ->
  update_one get_json tt s w
  = ({| db := db w1;
        logged := logged w1 ++ [LInfo (svc_name (service u)) (new u) (updated u)] |},
     Ok tt).
Proof.
  intros Hup. unfold update_one, bind. now rewrite Hup.
Qed.

Lemma update_one_raise (get_json : string -> result Manifest) (s : ModService)
    (w w1 : World) (e : exn) :
  update get_json (ServiceUpdater_init s) w = (w1, Raise e) ->
  update_one get_json tt s w = (w1, Raise e).
Proof.
  intros Hup. unfold update_one, bind. now rewrite Hup.
Qed.

Lemma for_each_cons_ok {A S} (body : S -> A -> M S) (x : A) (l : list A)
    (s s1 : S) (w w1 : World) :
  body s x w = (w1, Ok s1) ->
  for_each body (x :: l) s w = for_each body l s1 w1.
Proof.
  intros H. cbn [for_each]. unfold bind. now rewrite H.
Qed.

Lemma for_each_cons_raise {A S} (body : S -> A -> M S) (x : A) (l : list A)
    (s : S) (w w1 : World) (e : exn) :
  body s x w = (w1, Raise e) ->
  for_each body (x :: l) s w = (w1, Raise e).
Proof.
  intros H. cbn [for_each]. unfold bind. now rewrite H.
Qed.

(** The loop of [update_services]: one line per service refreshed, in
    order, after what was logged before; the loop stops at the first
    service whose refresh raises, the ones before it having been
    refreshed one after the other. *)
Lemma update_loop_log (get_json : string -> result Manifest)
    (svcs : list ModService) :
  forall (w w' : World) (r : result unit),
    for_each (update_one get_json) svcs tt w = (w', r) ->
    exists refreshed_ lines,
      logged w' = logged w ++ lines
      /\ Forall2 (reports get_json) refreshed_ lines
      /\ (r = Ok tt -> refreshed_ = svcs)
      /\ (forall e, r = Raise e ->
            exists s rest w1,
              svcs = refreshed_ ++ s :: rest
              /\ for_each (update_one get_json) refreshed_ tt w = (w1, Ok tt)
              /\ snd (update get_json (ServiceUpdater_init s) w1) = Raise e).
Proof.
  induction svcs as [|s svcs IH]; intros w w' r Hrun.
  - simpl in Hrun. injection Hrun as <- <-.
    exists [], []. rewrite app_nil_r.
    split; [reflexivity|]. split; [constructor|]. split; [reflexivity|].
    intros e He. discriminate.
  - pose proof (keeps_logged_update get_json (ServiceUpdater_init s) w) as Hquiet.
    destruct (update get_json (ServiceUpdater_init s) w) as [w1 [u|e]] eqn:Hup.
    + pose proof (update_one_ok get_json s w w1 u Hup) as Hone.
      rewrite (for_each_cons_ok (update_one get_json) s svcs tt tt w _ Hone) in Hrun.
      cbn [fst] in Hquiet.
      destruct (IH _ _ _ Hrun) as (done & lines & Hlog & Hrep & Hok & Hraise).
      exists (s :: done), (LInfo (svc_name (service u)) (new u) (updated u) :: lines).
      cbn [logged] in Hlog. rewrite Hquiet, <- app_assoc in Hlog.
      split; [exact Hlog|]. split.
      * constructor; [|assumption]. now apply update_reports with (w := w) (w' := w1).
      * split; [intros Hr; now rewrite (Hok Hr)|].
        intros e He. destruct (Hraise e He) as (s' & rest & w2 & Hs & Hdone & Hfail).
        exists s', rest, w2. split; [simpl; now rewrite Hs|].
        split; [|exact Hfail].
        now rewrite (for_each_cons_ok (update_one get_json) s done tt tt w _ Hone).
    + pose proof (update_one_raise get_json s w w1 e Hup) as Hone.
      rewrite (for_each_cons_raise (update_one get_json) s svcs tt w w1 e Hone) in Hrun.
      injection Hrun as <- <-. cbn [fst] in Hquiet.
      exists [], []. rewrite app_nil_r.
      split; [assumption|]. split; [constructor|].
      split; [discriminate|].
      intros e' He'. injection He' as <-.
      exists s, svcs, w. split; [reflexivity|]. split; [reflexivity|].
      now rewrite Hup.
Qed.

(** X8. The log of a batch is not rolled back. [update_services] adds
    to the log one line per service refreshed before the batch ended,
    in order, each with the name the service's manifest gives and
    counts that add up to the manifest's objects, and nothing else.
    When it returns these are all the services. When it raises they are
    the services before the one whose refresh raised: run one after the
    other from the world the batch started in, their refreshes return,
    and in the world they leave the refresh of the next service raises
    the exception of the batch. *)
Theorem update_services_log :
  forall (get_json : string -> result Manifest) (w : World),
    exists refreshed_ lines,
      logged (fst (ModDb.update_services get_json w)) = logged w ++ lines
      /\ Forall2 (reports get_json) refreshed_ lines
      /\ (snd (ModDb.update_services get_json w) = Ok tt ->
          refreshed_ = modservices (db w))
      /\ (forall e, snd (ModDb.update_services get_json w) = Raise e ->
            exists s rest w1,
              modservices (db w) = refreshed_ ++ s :: rest
              /\ for_each (update_one get_json) refreshed_ tt w = (w1, Ok tt)
              /\ snd (update get_json (ServiceUpdater_init s) w1) = Raise e).
Proof.
  intros get_json w. rewrite update_services_unfold.
  destruct (for_each (update_one get_json) (modservices (db w)) tt w)
    as [w' r] eqn:Hrun.
  destruct (update_loop_log get_json _ _ _ _ Hrun)
    as (done & lines & Hlog & Hrep & Hok & Hraise).
  exists done, lines. destruct r as [[]|e]; cbn [fst snd logged].
  - split; [assumption|]. split; [assumption|]. split; [auto|].
    intros e He. discriminate.
  - split; [assumption|]. split; [assumption|]. split; [discriminate|].
    intros e' He'. injection He' as <-.
    exact (Hraise e eq_refl).
Qed.

(** On the two services of [world_start]: the first is refreshed and
    its line stays, the second cannot be fetched. *)
Example update_services_log_a :
  logged (fst (ModDb.update_services get_json_a world_start)) = [LInfo "A" 2 0]
  /\ snd (ModDb.update_services get_json_a world_start) = Raise IOError
  /\ for_each (update_one get_json_a) [service_a] tt world_start
     = ({| db := db world_a; logged := [LInfo "A" 2 0] |}, Ok tt)
  /\ snd (update get_json_a (ServiceUpdater_init service_b)
                 {| db := db world_a; logged := [LInfo "A" 2 0] |})
     = Raise IOError.
Proof. vm_compute. repeat split. Qed.

(* ================================================================= *)
(** ** How a refresh fails *)

(** X9. What [update] leaves when it raises. A fetch that raises, or a
    manifest whose ["service"] block lacks ["name"] or
    ["filelocations"], leaves the world as it was, the exception being
    the fetch's or a [KeyError]. A manifest without ["mods"] raises
    [KeyError] after the service's row was saved with its new name and
    mirrors. When [update] returns, the service table is the old one
    with the rows of that id replaced by the updater's service, whose
    id and URL are the old ones. *)
Theorem update_failures :
  forall (get_json : string -> result Manifest) (self : ServiceUpdater) (w : World),
    (forall e, get_json (svc_url (service self)) = Raise e ->
       update get_json self w = (w, Raise e))
    /\ (forall data,
          get_json (svc_url (service self)) = Ok data ->
          (j_service data = None
           \/ exists sj, j_service data = Some sj
                         /\ (j_service_name sj = None \/ j_filelocations sj = None)) ->
          exists k, update get_json self w = (w, Raise (KeyError k)))
    /\ (forall data sj n fl,
          get_json (svc_url (service self)) = Ok data ->
          j_service data = Some sj -> j_service_name sj = Some n ->
          j_filelocations sj = Some fl -> j_mods data = None ->
          update get_json self w
          = (with_db w (with_service (db w) (refreshed (service self) n fl)),
             Raise (KeyError "mods")))
    /\ (forall w' self',
          update get_json self w = (w', Ok self') ->
          modservices (db w') = replace_service (service self') (modservices (db w))
          /\ svc_id (service self') = svc_id (service self)
          /\ svc_url (service self') = svc_url (service self)).
Proof.
  intros get_json self w. split; [|split; [|split]].
  - intros e He. unfold update. unfold bind at 1. now rewrite He.
  - intros data Hj Hbad. unfold update. unfold bind at 1. rewrite Hj.
    unfold bind at 1. unfold update_service_data.
    destruct Hbad as [H1|(sj & H1 & [H2|H3])]; rewrite H1.
    + exists "service". reflexivity.
    + exists "name". run_db. now rewrite H2.
    + run_db. destruct (j_service_name sj) as [n|].
      * exists "filelocations". simpl. now rewrite H3.
      * exists "name". reflexivity.
  - intros data sj n fl Hj H1 H2 H3 H4. unfold update. unfold bind at 1.
    rewrite Hj. unfold bind at 1.
    rewrite (update_service_data_run self data sj n fl w H1 H2 H3).
    unfold bind at 1. now rewrite H4.
  - intros w' self' H.
    destruct (update_ok get_json self self' w w' H)
      as (data & sj & n & fl & modlist & Hj & H1 & H2 & H3 & H4 & Hmods).
    pose proof (update_mods_ok_readable _ _ _ Hmods) as Hall.
    rewrite (update_mods_run modlist _ _ Hall) in Hmods.
    injection Hmods as Hw Hs. subst w' self'.
    cbn [with_db db]. rewrite modservices_sync_all, count_all_service.
    cbn [service with_service modservices refreshed svc_id svc_url].
    auto.
Qed.

(* ================================================================= *)
(** ** What a pass keeps *)

Lemma row_key_rowstep (s : nat) (tbl : list ModEntry) (m : ModJson) (e : ModEntry) :
  NoDup (map e_id tbl) ->
  find (entry_matches (name_of m) s) tbl = Some e ->
  forall r, In r tbl ->
    row_key (rowstep s (id_in s tbl) m r) = row_key r
    /\ (e_service r <> s -> rowstep s (id_in s tbl) m r = r).
Proof.
  intros Hnd E r Hr.
  pose proof (find_some _ _ E) as [Hin Hm].
  unfold rowstep, id_in. rewrite E.
  destruct (Nat.eqb_spec (e_id r) (e_id e)) as [Heq|Hne]; [|now split].
  rewrite (same_id_same_row _ _ _ Hnd Hr Hin Heq) in *.
  unfold entry_matches in Hm. apply andb_prop in Hm as [_ Hs].
  apply Nat.eqb_eq in Hs. split.
  - unfold row_key.
    now rewrite updated_entry_id, updated_entry_name, updated_entry_service, Hs.
  - intros Hns. now elim Hns.
Qed.

Lemma filter_map_frame {A} (p : A -> bool) (g : A -> A) (l : list A) :
  (forall r, In r l -> p (g r) = p r /\ (p r = true -> g r = r)) ->
  filter p (map g l) = filter p l.
Proof.
  induction l as [|a l IH]; intros H; [reflexivity|].
  cbn [map filter]. destruct (H a (or_introl eq_refl)) as [Hp Hg]. rewrite Hp.
  rewrite IH by (intros r Hr; apply H; now right).
  destruct (p a); [now rewrite Hg | reflexivity].
Qed.

(** One round on the entry table: the old rows keep their place, id,
    name and service; at most one row is added, for the object's name
    and the updater's service, and then no old row had that name and
    service; rows of other services are not written to. *)
Lemma upsert_rows (s : nat) (m : ModJson) (tbl : list ModEntry) :
  NoDup (map e_id tbl) ->
  exists added,
    map row_key (upsert s m tbl) = map row_key tbl ++ added
    /\ (forall k, In k added ->
          k = (next_id tbl, name_of m, s)
          /\ ~ In (name_of m, s) (map upsert_key tbl))
    /\ filter (fun e => negb (e_service e =? s)%nat) (upsert s m tbl)
       = filter (fun e => negb (e_service e =? s)%nat) tbl.
Proof.
  intros Hnd.
  destruct (find (entry_matches (name_of m) s) tbl) as [e|] eqn:E.
  - exists []. rewrite app_nil_r, (upsert_in_place s m tbl e Hnd E).
    split; [|split].
    + rewrite map_map. apply map_ext_in. intros r Hr.
      apply (row_key_rowstep s tbl m e Hnd E r Hr).
    + intros k [].
    + apply filter_map_frame. intros r Hr.
      destruct (row_key_rowstep s tbl m e Hnd E r Hr) as [Hkey Hsame].
      unfold row_key in Hkey. injection Hkey as _ _ Hsvc. rewrite Hsvc.
      split; [reflexivity|]. intros Hp. apply Hsame.
      intros Heq. rewrite Heq, Nat.eqb_refl in Hp. discriminate.
  - exists [(next_id tbl, name_of m, s)].
    assert (Hup : upsert s m tbl
                  = tbl ++ [updated_entry m s (new_entry (next_id tbl) (name_of m) s)]).
    { unfold upsert, found_or_new. rewrite E. cbn [fst snd].
      apply replace_entry_new. apply updated_entry_id. }
    rewrite Hup. split; [|split].
    + rewrite map_app. cbn [map]. do 2 f_equal. unfold row_key.
      now rewrite updated_entry_id, updated_entry_name, updated_entry_service.
    + intros k [<-|[]]. split; [reflexivity|].
      intros Hin. apply in_map_iff in Hin as [r [Hk Hr]].
      apply (find_none _ _ E) in Hr. unfold upsert_key in Hk.
      injection Hk as Hn Hs. unfold entry_matches in Hr.
      now rewrite Hn, Hs, String.eqb_refl, Nat.eqb_refl in Hr.
    + rewrite filter_app. cbn [filter].
      rewrite updated_entry_service, Nat.eqb_refl. cbn [negb].
      now rewrite app_nil_r.
Qed.

Lemma upsert_key_of_row_key (tbl : list ModEntry) :
  map upsert_key tbl = map (fun k : nat * string * nat => (snd (fst k), snd k))
                           (map row_key tbl).
Proof. rewrite map_map. reflexivity. Qed.

Lemma upsert_unique_keys (s : nat) (m : ModJson) (tbl : list ModEntry) :
  NoDup (map e_id tbl) ->
  NoDup (map upsert_key tbl) -> NoDup (map upsert_key (upsert s m tbl)).
Proof.
  intros Hnd Hk. destruct (upsert_rows s m tbl Hnd) as (added & Hrows & Hadded & _).
  rewrite upsert_key_of_row_key, Hrows, map_app, <- upsert_key_of_row_key.
  destruct added as [|k added]; [now rewrite app_nil_r|].
  destruct (Hadded k (or_introl eq_refl)) as [-> Hfresh].
  destruct added as [|k' added].
  - simpl. apply NoDup_app; [assumption | repeat constructor; simpl; tauto|].
    intros x Hx [<-|[]]. contradiction.
  - exfalso. destruct (Hadded k' (or_intror (or_introl eq_refl))) as [-> _].
    assert (Hlen : List.length (map row_key (upsert s m tbl))
                   = List.length tbl + S (S (List.length added))).
    { rewrite Hrows, length_app, length_map. reflexivity. }
    rewrite length_map, upsert_length in Hlen.
    destruct (snd (fst (found_or_new (name_of m) s tbl))); lia.
Qed.

(** A pass on the entry table. *)
Lemma upsert_all_rows (s : nat) (modlist : list ModJson) :
  forall tbl,
    NoDup (map e_id tbl) ->
    (exists added,
       map row_key (upsert_all s modlist tbl) = map row_key tbl ++ added
       /\ forall k, In k added -> snd k = s)
    /\ filter (fun e => negb (e_service e =? s)%nat) (upsert_all s modlist tbl)
       = filter (fun e => negb (e_service e =? s)%nat) tbl
    /\ (NoDup (map upsert_key tbl) ->
        NoDup (map upsert_key (upsert_all s modlist tbl))).
Proof.
  induction modlist as [|m ml IH]; intros tbl Hnd.
  - simpl. split; [|split; [reflexivity | trivial]].
    exists []. now rewrite app_nil_r.
  - cbn [upsert_all fold_left]. fold (upsert_all s ml (upsert s m tbl)).
    destruct (upsert_rows s m tbl Hnd) as (added1 & Hrows1 & Hadded1 & Hother1).
    destruct (IH (upsert s m tbl) (upsert_unique_ids s m tbl Hnd))
      as ((added2 & Hrows2 & Hadded2) & Hother2 & Hkeys2).
    split; [|split].
    + exists (added1 ++ added2). rewrite Hrows2, Hrows1, app_assoc.
      split; [reflexivity|]. intros k Hk. apply in_app_or in Hk as [Hk|Hk].
      * now destruct (Hadded1 k Hk) as [-> _].
      * now apply Hadded2.
    + now rewrite Hother2.
    + intros Hk. apply Hkeys2. now apply upsert_unique_keys.
Qed.

(** X10. A pass of [update_mods] that returns, on a table with unique
    ids, removes no entry and moves none: every row that was there is
    still at its place with its id, name and service, the rows added
    come after them and are of the updater's service, and the rows of
    the other services are not changed at all. *)
Theorem update_mods_keeps_rows :
  forall (self self' : ServiceUpdater) (modlist : list ModJson) (w w' : World),
    unique_ids (db w) ->
    update_mods self modlist w = (w', Ok self') ->
    (exists added,
       map row_key (modentries (db w')) = map row_key (modentries (db w)) ++ added
       /\ forall k, In k added -> snd k = svc_id (service self))
    /\ filter (fun e => negb (e_service e =? svc_id (service self))%nat)
              (modentries (db w'))
       = filter (fun e => negb (e_service e =? svc_id (service self))%nat)
                (modentries (db w)).
Proof.
  intros self self' modlist w w' Hnd H.
  pose proof (update_mods_ok_readable _ _ _ H) as Hall.
  rewrite (update_mods_run modlist self w Hall) in H.
  injection H as Hw _. subst w'. cbn [with_db db]. rewrite modentries_sync_all.
  destruct (upsert_all_rows (svc_id (service self)) modlist (modentries (db w)) Hnd)
    as (Hrows & Hother & _).
  now split.
Qed.

(** X11. A pass of [update_mods] keeps the keys of the entry table:
    when the ids are unique they still are after the pass, and when
    moreover no two rows have the same name and service, none have
    after it. *)
Theorem update_mods_keeps_keys :
  forall (self self' : ServiceUpdater) (modlist : list ModJson) (w w' : World),
    unique_ids (db w) ->
    update_mods self modlist w = (w', Ok self') ->
    unique_ids (db w') /\ (unique_keys (db w) -> unique_keys (db w')).
Proof.
  intros self self' modlist w w' Hnd H.
  pose proof (update_mods_ok_readable _ _ _ H) as Hall.
  rewrite (update_mods_run modlist self w Hall) in H.
  injection H as Hw _. subst w'. cbn [with_db db]. split.
  - now apply sync_all_unique_ids.
  - unfold unique_keys. rewrite modentries_sync_all.
    apply (upsert_all_rows (svc_id (service self)) modlist (modentries (db w)) Hnd).
Qed.

(** *** The dependency rows *)

Lemma entry_mod_exists (st : Store) (c : ModDependency) :
  (exists m, entry_mod st c = Ok m) <-> In (dep_mod c) (map e_id (modentries st)).
Proof.
  unfold entry_mod, get_entry. split.
  - intros [m Hm]. destruct (find _ _) as [e|] eqn:E; [|discriminate].
    apply find_some in E as [Hin E]. apply Nat.eqb_eq in E.
    rewrite <- E. now apply in_map.
  - intros Hin. apply in_map_iff in Hin as [e [He Hin]].
    destruct (find _ _) as [e'|] eqn:E; [eauto|].
    apply (find_none _ _ E) in Hin. simpl in Hin.
    rewrite He, Nat.eqb_refl in Hin. discriminate.
Qed.

Lemma in_resync (i : nat) (r : Z) (ks : list string) (tbl : list ModDependency)
    (d : ModDependency) :
  In d (resync i r ks tbl) -> In d tbl \/ dep_mod d = i.
Proof.
  unfold resync, delete_owned. intros H. apply in_app_or in H as [H|H].
  - apply filter_In in H. tauto.
  - unfold edges_of in H. apply in_map_iff in H as [k [<- _]]. now right.
Qed.

Lemma in_resync_all (i : nat) (n : string) (m : ModJson) (tbl : list ModDependency)
    (d : ModDependency) :
  In d (resync_all i n m tbl) -> In d tbl \/ dep_mod d = i.
Proof.
  unfold resync_all. intros H.
  repeat (apply in_resync in H as [H|H]; [|now right]). now left.
Qed.

Lemma found_or_new_in (n : string) (s : nat) (tbl : list ModEntry) :
  In (fst (fst (found_or_new n s tbl))) (snd (found_or_new n s tbl))
  /\ incl tbl (snd (found_or_new n s tbl)).
Proof.
  unfold found_or_new. destruct (find (entry_matches n s) tbl) as [e|] eqn:E; simpl.
  - split; [now apply find_some in E | apply incl_refl].
  - split; [apply in_or_app; right; now left | now apply incl_appl, incl_refl].
Qed.

Lemma sync_one_ids (s : nat) (m : ModJson) (st : Store) :
  let e := updated_entry m s (fst (fst (found_or_new (name_of m) s (modentries st)))) in
  In (e_id e) (map e_id (modentries (sync_one s m st)))
  /\ incl (map e_id (modentries st)) (map e_id (modentries (sync_one s m st))).
Proof.
  cbv zeta. unfold sync_one. cbn [modentries]. rewrite ids_replace_entry.
  destruct (found_or_new_in (name_of m) s (modentries st)) as [Hin Hincl].
  rewrite updated_entry_id. split.
  - now apply in_map.
  - intros i Hi. apply in_map_iff in Hi as [e [<- He]]. apply in_map. now apply Hincl.
Qed.

Lemma sync_one_referential (s : nat) (m : ModJson) (st : Store) :
  referential st -> referential (sync_one s m st).
Proof.
  intros Href c Hc. apply entry_mod_exists.
  destruct (sync_one_ids s m st) as [Hid Hincl]. cbv zeta in Hid.
  unfold sync_one in Hc. cbn [moddependencies] in Hc.
  apply in_resync_all in Hc as [Hc| ->]; [|exact Hid].
  apply Hincl. apply entry_mod_exists. now apply Href.
Qed.

(** X12. A pass of [update_mods] keeps the dependency rows attached:
    if every row belonged to a stored entry before the pass, every row
    does after it. *)
Theorem update_mods_keeps_referential :
  forall (self self' : ServiceUpdater) (modlist : list ModJson) (w w' : World),
    referential (db w) ->
    update_mods self modlist w = (w', Ok self') ->
    referential (db w').
Proof.
  intros self self' modlist w w' Href H.
  pose proof (update_mods_ok_readable _ _ _ H) as Hall.
  rewrite (update_mods_run modlist self w Hall) in H.
  injection H as Hw _. subst w'. cbn [with_db db].
  revert Href. generalize (db w). clear Hall.
  induction modlist as [|m ml IH]; intros st Href; [assumption|].
  simpl. apply IH. now apply sync_one_referential.
Qed.

Lemma in_resync_iff (i : nat) (r : Z) (ks : list string) (tbl : list ModDependency)
    (d : ModDependency) :
  dep_mod d <> i -> (In d (resync i r ks tbl) <-> In d tbl).
Proof.
  intros Hne. split.
  - intros H. apply in_resync in H as [H|H]; [assumption | contradiction].
  - intros H. now apply in_resync_other.
Qed.

Lemma in_resync_all_iff (i : nat) (n : string) (m : ModJson)
    (tbl : list ModDependency) (d : ModDependency) :
  dep_mod d <> i -> (In d (resync_all i n m tbl) <-> In d tbl).
Proof.
  intros Hne. unfold resync_all. now rewrite !in_resync_iff.
Qed.

Lemma sync_all_other_rows (s : nat) (modlist : list ModJson) (d : ModDependency) :
  forall st,
    unique_ids st ->
    (forall e, In e (modentries (sync_all s modlist st)) ->
               e_service e = s -> e_id e <> dep_mod d) ->
    (In d (moddependencies (sync_all s modlist st)) <-> In d (moddependencies st)).
Proof.
  induction modlist as [|m ml IH]; intros st Hnd Hother; [reflexivity|].
  cbn [sync_all fold_left] in *. fold (sync_all s ml (sync_one s m st)) in *.
  rewrite IH by (try assumption; now apply (@sync_one_unique_ids s m st)).
  unfold sync_one at 1. cbn [moddependencies].
  apply in_resync_all_iff.
  set (e := updated_entry m s
              (fst (fst (found_or_new (name_of m) s (modentries st))))).
  assert (He : In e (modentries (sync_one s m st))).
  { pose proof (stored_after_upsert m (name_of m) s (modentries st)) as Hf.
    cbv zeta in Hf. apply find_some in Hf as [Hf _]. exact Hf. }
  destruct (upsert_all_rows s ml (modentries (sync_one s m st))
              (@sync_one_unique_ids s m st Hnd)) as ((added & Hrows & _) & _ & _).
  rewrite <- modentries_sync_all in Hrows.
  assert (Hk : In (row_key e) (map row_key (modentries (sync_all s ml (sync_one s m st))))).
  { rewrite Hrows. apply in_or_app. left. now apply in_map. }
  apply in_map_iff in Hk as [e' [Hkey He']].
  unfold row_key in Hkey. injection Hkey as Hid _ Hsvc.
  intros Heq. apply (Hother e' He').
  - rewrite Hsvc. apply updated_entry_service.
  - now rewrite Hid.
Qed.

(** X13. A pass of [update_mods] writes only dependency rows of entries
    of the updater's service: a row whose owner is not an entry of that
    service after the pass is in the table after the pass exactly when
    it was before. *)
Theorem update_mods_other_dependency_rows :
  forall (self self' : ServiceUpdater) (modlist : list ModJson) (w w' : World)
         (d : ModDependency),
    unique_ids (db w) ->
    update_mods self modlist w = (w', Ok self') ->
    (forall e, In e (modentries (db w')) ->
               e_service e = svc_id (service self) -> e_id e <> dep_mod d) ->
    (In d (moddependencies (db w')) <-> In d (moddependencies (db w))).
Proof.
  intros self self' modlist w w' d Hnd H Hother.
  pose proof (update_mods_ok_readable _ _ _ H) as Hall.
  rewrite (update_mods_run modlist self w Hall) in H.
  injection H as Hw _. subst w'. cbn [with_db db] in *.
  now apply sync_all_other_rows.
Qed.

(* ================================================================= *)
(** ** Objects listed more than once *)

Lemma owned_by_resync_all_other (i i' : nat) (n : string) (m : ModJson)
    (tbl : list ModDependency) (r : Z) :
  i' <> i ->
  filter (owned_by i' r) (resync_all i n m tbl) = filter (owned_by i' r) tbl.
Proof.
  intros Hne. unfold resync_all.
  now rewrite !owned_by_resync_other by (intros H; inversion H; contradiction).
Qed.

(** Rounds for objects of other names leave an entry and its rows. *)
Lemma sync_all_keeps_entry (s : nat) (n : string) (e : ModEntry)
    (post : list ModJson) :
  forall st,
    unique_ids st ->
    find (entry_matches n s) (modentries st) = Some e ->
    (forall m', In m' post -> name_of m' <> n) ->
    find (entry_matches n s) (modentries (sync_all s post st)) = Some e
    /\ forall r, select_owned (sync_all s post st) (e_id e) r
                 = select_owned st (e_id e) r.
Proof.
  induction post as [|m ml IH]; intros st Hnd Hfind Hpost; [now split|].
  cbn [sync_all fold_left]. fold (sync_all s ml (sync_one s m st)).
  assert (Hne : n <> name_of m).
  { intros Heq. apply (Hpost m); [now left | now symmetry]. }
  destruct (@upsert_keeps_other n s m _ e Hnd Hfind Hne) as [Hfind' Hid].
  cbv zeta in Hfind', Hid.
  destruct (IH (sync_one s m st)) as [Hf Hrows].
  - now apply (@sync_one_unique_ids s m st).
  - exact Hfind'.
  - intros m' Hm'. apply Hpost. now right.
  - split; [exact Hf|]. intros r. rewrite Hrows.
    unfold select_owned, sync_one. cbn [moddependencies].
    now apply owned_by_resync_all_other.
Qed.

Lemma sync_all_app (s : nat) (l1 l2 : list ModJson) (st : Store) :
  sync_all s (l1 ++ l2) st = sync_all s l2 (sync_all s l1 st).
Proof. unfold sync_all. apply fold_left_app. Qed.

(** X14. When a manifest lists an object of some name and no object
    after it has that name, the entry stored under that name after the
    pass of [update_mods] has this object's version and filename, this
    object's value for every optional field it carries, and, kind by
    kind, this object's keyword lists (the entry's own name first among
    those it provides), whatever the earlier objects of that name
    held. *)
Theorem update_mods_last_listing_wins :
  forall (self self' : ServiceUpdater) (before after : list ModJson) (m : ModJson)
         (w w' : World),
    unique_ids (db w) ->
    (forall m', In m' after -> name_of m' <> name_of m) ->
    update_mods self (before ++ m :: after) w = (w', Ok self') ->
    exists e,
      find (entry_matches (name_of m) (svc_id (service self)))
           (modentries (db w')) = Some e
      /\ j_version m = Some (e_version e)
      /\ j_filename m = Some (e_filename e)
      /\ (forall f : Field, truthy (mod_get m f) = true -> getattr e f = mod_get m f)
      /\ get_dependency_info (db w') {| mod_ := e |} Requires
         = get_or_empty (j_depends m)
      /\ get_dependency_info (db w') {| mod_ := e |} Provides
         = e_name e :: get_or_empty (j_provides m)
      /\ get_dependency_info (db w') {| mod_ := e |} Conflicts
         = get_or_empty (j_conflict m)
      /\ get_dependency_info (db w') {| mod_ := e |} Recommends
         = get_or_empty (j_recommends m).
Proof.
  intros self self' before after m w w' Hnd Hafter H.
  pose proof (update_mods_ok_readable _ _ _ H) as Hall.
  rewrite (update_mods_run (before ++ m :: after) self w Hall) in H.
  injection H as Hw _. subst w'. cbn [with_db db].
  rewrite forallb_app in Hall. apply andb_prop in Hall as [_ Hall].
  cbn [forallb] in Hall. apply andb_prop in Hall as [Hm _].
  set (s := svc_id (service self)).
  rewrite sync_all_app. cbn [sync_all fold_left].
  fold (sync_all s before (db w)).
  set (st := sync_all s before (db w)).
  fold (sync_all s after (sync_one s m st)).
  assert (Hst : unique_ids st) by now apply sync_all_unique_ids.
  set (e := updated_entry m s
              (fst (fst (found_or_new (name_of m) s (modentries st))))).
  assert (Hfind : find (entry_matches (name_of m) s) (modentries (sync_one s m st))
                  = Some e) by apply stored_after_upsert.
  destruct (sync_all_keeps_entry s (name_of m) e after (sync_one s m st)
              (@sync_one_unique_ids s m st Hst) Hfind Hafter) as [Hf Hrows].
  exists e. split; [exact Hf|].
  split; [now apply updated_entry_version|].
  split; [now apply updated_entry_filename|].
  split.
  { intros f Hf'. unfold e. now rewrite updated_entry_getattr, Hf'. }
  unfold get_dependency_info. cbn [mod_]. rewrite !Hrows.
  unfold select_owned, sync_one. cbn [moddependencies]. fold e.
  destruct (owned_by_resync_all (e_id e) (e_name e) m (moddependencies st))
    as (H0 & H1 & H2 & H3).
  unfold Requires, Provides, Conflicts, Recommends.
  rewrite H0, H1, H2, H3, !keywords_edges_of. auto.
Qed.

(* ================================================================= *)
(** ** The resolver: failures, cycles, other kinds *)

Section Expansion.

Variable st : Store.
Variable expand : ModInstance -> rstate -> fueled rstate.

Hypothesis expand_no_raise : forall p s x, expand p s <> Some (Raise x).

Lemma expand_candidates_no_raise (root : ModInstance) (relation : Z) (k : string)
    (candidates : list ModDependency) :
  (forall c, In c candidates -> exists m, entry_mod st c = Ok m) ->
  forall s x,
    expand_candidates expand st root relation k candidates s <> Some (Raise x).
Proof.
  induction candidates as [|c cs IH]; intros Href s x; simpl; [discriminate|].
  destruct (Href c (or_introl eq_refl)) as [m ->].
  destruct (expand _ _) as [[s1|x1]|] eqn:E.
  - apply IH. intros c' Hc'. apply Href. now right.
  - now elim (expand_no_raise _ _ _ E).
  - discriminate.
Qed.

Lemma expand_keywords_no_raise (root : ModInstance) (relation : Z)
    (keywords : list string) :
  referential st ->
  forall s x,
    expand_keywords expand st root relation keywords s <> Some (Raise x).
Proof.
  intros Href. induction keywords as [|k ks IH]; intros s x; simpl; [discriminate|].
  destruct (expand_candidates _ _ _ _ _ _ _) as [[s1|x1]|] eqn:E.
  - apply IH.
  - exfalso. revert E. apply expand_candidates_no_raise.
    intros c Hc. apply Href. apply filter_In in Hc. tauto.
  - discriminate.
Qed.

Lemma expand_candidates_stuck (root : ModInstance) (relation : Z) (k : string)
    (candidates : list ModDependency) :
  (forall c, In c candidates -> exists m, entry_mod st c = Ok m) ->
  (exists c m, In c candidates /\ entry_mod st c = Ok m
               /\ forall s, expand {| mod_ := m |} s = None) ->
  forall s, expand_candidates expand st root relation k candidates s = None.
Proof.
  induction candidates as [|c cs IH]; intros Href (c0 & m0 & Hin & Hm0 & Hstuck) s.
  - contradiction.
  - simpl. destruct (Href c (or_introl eq_refl)) as [m Hm]. rewrite Hm.
    destruct Hin as [<-|Hin].
    + rewrite Hm in Hm0. injection Hm0 as ->. now rewrite Hstuck.
    + destruct (expand _ _) as [[s1|x1]|] eqn:E.
      * apply IH; [intros c' Hc'; apply Href; now right|].
        exists c0, m0. auto.
      * now elim (expand_no_raise _ _ _ E).
      * reflexivity.
Qed.

Lemma expand_keywords_stuck (root : ModInstance) (relation : Z)
    (keywords : list string) :
  referential st ->
  (exists k c m, In k keywords /\ In c (providers st k) /\ entry_mod st c = Ok m
                 /\ forall s, expand {| mod_ := m |} s = None) ->
  forall s, expand_keywords expand st root relation keywords s = None.
Proof.
  intros Href.
  assert (Hall : forall k c, In c (select_by_keyword st Provides k) ->
                             exists m, entry_mod st c = Ok m).
  { intros k c Hc. apply Href. apply filter_In in Hc. tauto. }
  induction keywords as [|k ks IH];
    intros (k0 & c0 & m0 & Hin & Hc0 & Hm0 & Hstuck) s; [contradiction|].
  simpl. destruct Hin as [<-|Hin].
  - rewrite expand_candidates_stuck; [reflexivity | apply Hall|].
    exists c0, m0. auto.
  - destruct (expand_candidates _ _ _ _ _ _ _) as [[s1|x1]|] eqn:E.
    + apply IH. exists k0, c0, m0. auto.
    + exfalso. revert E. apply expand_candidates_no_raise. apply Hall.
    + reflexivity.
Qed.

End Expansion.

Lemma resolve_requires_no_raise (st : Store) :
  referential st ->
  forall (fuel : nat) (a : ModInstance) (relation : Z) (s : rstate) (x : exn),
    resolve_requires fuel st a relation s <> Some (Raise x).
Proof.
  intros Href. unfold resolve_requires.
  induction fuel as [|fuel IH]; intros a relation s x; [discriminate|].
  cbn [resolve_as_specified].
  apply expand_keywords_no_raise; [|assumption].
  intros p s0 x0. apply IH.
Qed.

(** *** What the resolver raises *)

Lemma entry_mod_raise (st : Store) (c : ModDependency) (x : exn) :
  entry_mod st c = Raise x -> x = DoesNotExist.
Proof.
  unfold entry_mod, get_entry. destruct (find _ _); [discriminate|].
  intros H. now injection H as <-.
Qed.

Section Raising.

Variable st : Store.
Variable expand : ModInstance -> rstate -> fueled rstate.

Hypothesis expand_raise :
  forall p s x, expand p s = Some (Raise x) -> x = DoesNotExist /\ dangling st.

Lemma expand_candidates_raise (root : ModInstance) (relation : Z) (k : string)
    (candidates : list ModDependency) :
  (forall c, In c candidates -> In c (providers st k)) ->
  forall s x,
    expand_candidates expand st root relation k candidates s = Some (Raise x) ->
    x = DoesNotExist /\ dangling st.
Proof.
  induction candidates as [|c cs IH]; intros Hsub s x Hrun; [discriminate|].
  cbn [expand_candidates] in Hrun.
  destruct (entry_mod st c) as [m|x0] eqn:Hm.
  - destruct (expand _ _) as [[s1|x1]|] eqn:E; try discriminate.
    + apply (IH (fun c' H => Hsub c' (or_intror H)) s1 x Hrun).
    + injection Hrun as <-. exact (expand_raise _ _ _ E).
  - injection Hrun as <-.
    pose proof (entry_mod_raise st c x0 Hm) as ->.
    split; [reflexivity|]. exists k, c. split; [apply Hsub; now left | exact Hm].
Qed.

Lemma expand_keywords_raise (root : ModInstance) (relation : Z)
    (keywords : list string) :
  forall s x,
    expand_keywords expand st root relation keywords s = Some (Raise x) ->
    x = DoesNotExist /\ dangling st.
Proof.
  induction keywords as [|k ks IH]; intros s x Hrun; [discriminate|].
  cbn [expand_keywords] in Hrun.
  destruct (expand_candidates _ _ _ _ _ _ _) as [[s1|x1]|] eqn:E;
    try discriminate.
  - exact (IH s1 x Hrun).
  - injection Hrun as <-.
    exact (expand_candidates_raise root relation k _ (fun c H => H) _ _ E).
Qed.

End Raising.

Lemma resolve_requires_raise (st : Store) :
  forall (fuel : nat) (a : ModInstance) (relation : Z) (s : rstate) (x : exn),
    resolve_requires fuel st a relation s = Some (Raise x) ->
    x = DoesNotExist /\ dangling st.
Proof.
  unfold resolve_requires.
  induction fuel as [|fuel IH]; intros a relation s x Hrun; [discriminate|].
  cbn [resolve_as_specified] in Hrun.
  refine (expand_keywords_raise st _ _ a relation _ s x Hrun).
  intros p s0 x0. apply IH.
Qed.

(** X15. What the resolver raises. Apart from running out of recursion
    depth, [resolve_dependencies] and [get_dependency_mods] raise only
    when the lookup of a row's entry does: the exception is then
    [DoesNotExist], and the store holds a row that provides a keyword
    and whose entry is missing. *)
Theorem resolve_dependencies_raises_only_dangling :
  forall (iter_keys : list string -> list string) (st : Store) (fuel : nat)
         (self : ModInstance) (relation : Z)
         (depsObject : option ModDependencies) (log : list LogRecord) (x : exn),
    resolve_dependencies fuel st self relation depsObject log = Some (Raise x)
    \/ get_dependency_mods iter_keys fuel st self log = Some (Raise x) ->
    x = DoesNotExist
    /\ exists k c, In c (providers st k) /\ entry_mod st c = Raise DoesNotExist.
Proof.
  intros iter_keys st fuel self relation depsObject log x [Hrun|Hrun].
  - rewrite resolve_dependencies_requires in Hrun.
    exact (resolve_requires_raise st _ _ _ _ x Hrun).
  - unfold get_dependency_mods in Hrun.
    destruct (resolve_dependencies fuel st self 0 None log) as [[[d l]|x1]|] eqn:E;
      try discriminate.
    injection Hrun as <-. rewrite resolve_dependencies_requires in E.
    exact (resolve_requires_raise st _ _ _ _ x1 E).
Qed.

Lemma loops_step (st : Store) (a : nat) :
  loops st a -> exists a', depends_on st a a' /\ loops st a'.
Proof.
  intros (b & Hab & Hbb). inversion Hab as [a0 b0 Hd|a0 a' b0 Hd Hch]; subst.
  - exists b. split; [assumption|]. exists b. auto.
  - exists a'. split; [assumption|]. exists b. auto.
Qed.

Lemma resolve_requires_loops (st : Store) :
  referential st ->
  forall (fuel : nat) (a : ModInstance) (s : rstate),
    loops st (e_id (mod_ a)) ->
    resolve_requires fuel st a Requires s = None.
Proof.
  intros Href. unfold resolve_requires.
  induction fuel as [|fuel IH]; intros a s Hloop; [reflexivity|].
  cbn [resolve_as_specified].
  apply loops_step in Hloop as (a' & (k & c & Hk & Hc & Hid) & Hloop').
  apply expand_keywords_stuck; [|assumption|].
  - intros p s0 x. apply (resolve_requires_no_raise st Href).
  - destruct (Href c) as [m Hm]; [now apply providers_in in Hc|].
    exists k, c, m. repeat split; try assumption.
    intros s0. apply IH. cbn [mod_].
    destruct (@entry_mod_id st c m Hm) as [-> _]. now rewrite Hid.
Qed.

(** X16. Nothing in the resolver guards against a cycle: when the
    require-provide steps from the root lead into a cycle, and every
    dependency row belongs to a stored entry, the resolution for
    Requires never returns, however deep the recursion may go, and so
    neither does [get_dependency_mods]. *)
Theorem resolve_dependencies_cycle_never_returns :
  forall (st : Store) (self : ModInstance) (b : nat),
    referential st ->
    chain st (e_id (mod_ self)) b ->
    chain st b b ->
    forall (iter_keys : list string -> list string) (fuel : nat)
           (depsObject : option ModDependencies) (log : list LogRecord),
      resolve_dependencies fuel st self Requires depsObject log = None
      /\ get_dependency_mods iter_keys fuel st self log = None.
Proof.
  intros st self b Href Hab Hbb iter_keys fuel depsObject log.
  assert (Hloop : loops st (e_id (mod_ self))) by (exists b; auto).
  split.
  - rewrite resolve_dependencies_requires. now apply resolve_requires_loops.
  - unfold get_dependency_mods. change 0%Z with Requires.
    rewrite resolve_dependencies_requires.
    now rewrite resolve_requires_loops.
Qed.

(** *** What goes into the record *)

Lemma record_ok_append (P : string -> triple -> Prop) (d : ModDependencies)
    (k : string) (t : triple) :
  P k t -> record_ok P d ->
  record_ok P {| depmap := dd_append k t (depmap d) |}.
Proof.
  intros Ht Hd k' l Hin. cbn [depmap] in Hin.
  apply dd_append_in in Hin as [Hin|[-> [->|[l0 [Hin ->]]]]].
  - now apply Hd.
  - repeat constructor. assumption.
  - apply Forall_app. split; [now apply (Hd k)|]. repeat constructor. assumption.
Qed.

Section Records.

Variable st : Store.
Variable P : string -> triple -> Prop.
Variable expand : ModInstance -> rstate -> fueled rstate.

Hypothesis expand_keeps :
  forall p s s', expand p s = Some (Ok s') ->
                 record_ok P (fst s) -> record_ok P (fst s').

Lemma expand_candidates_records (root : ModInstance) (relation : Z) (k : string)
    (candidates : list ModDependency) :
  (forall p, provider_of st k p -> P k (p, root, relation)) ->
  (forall c, In c candidates -> In c (providers st k)) ->
  forall s s',
    expand_candidates expand st root relation k candidates s = Some (Ok s') ->
    record_ok P (fst s) -> record_ok P (fst s').
Proof.
  intros HP. induction candidates as [|c cs IH]; intros Hsub s s' Hrun Hs.
  - simpl in Hrun. now injection Hrun as <-.
  - cbn [expand_candidates] in Hrun.
    destruct (entry_mod st c) as [m|x] eqn:Hm; [|discriminate].
    destruct (expand _ _) as [[s1|x]|] eqn:E; try discriminate.
    apply (IH (fun c' H => Hsub c' (or_intror H)) s1 s' Hrun).
    apply (expand_keeps _ _ _ E). cbn [fst]. unfold add_dependency.
    apply record_ok_append; [|assumption].
    apply HP. exists c. split; [apply Hsub; now left | exact Hm].
Qed.

Lemma expand_keywords_records (root : ModInstance) (relation : Z)
    (keywords : list string) :
  (forall k p, In k keywords -> provider_of st k p -> P k (p, root, relation)) ->
  forall s s',
    expand_keywords expand st root relation keywords s = Some (Ok s') ->
    record_ok P (fst s) -> record_ok P (fst s').
Proof.
  induction keywords as [|k ks IH]; intros HP s s' Hrun Hs.
  - simpl in Hrun. now injection Hrun as <-.
  - cbn [expand_keywords] in Hrun.
    destruct (expand_candidates _ _ _ _ _ _ _) as [[s1|x]|] eqn:E;
      try discriminate.
    apply (IH (fun k' p H => HP k' p (or_intror H)) s1 s' Hrun).
    apply (expand_candidates_records root relation k _
             (fun p => HP k p (or_introl eq_refl)) (fun c H => H) _ _ E).
    now destruct (select_by_keyword st Provides k).
Qed.

End Records.

Lemma resolve_requires_records (st : Store) (P : string -> triple -> Prop) :
  (forall k p src, In k (get_dependency_info st src Requires) ->
                   provider_of st k p -> P k (p, src, Requires)) ->
  forall (fuel : nat) (a : ModInstance) (relation : Z) (s s' : rstate),
    (forall k p, In k (get_dependency_info st a relation) ->
                 provider_of st k p -> P k (p, a, relation)) ->
    resolve_requires fuel st a relation s = Some (Ok s') ->
    record_ok P (fst s) -> record_ok P (fst s').
Proof.
  intros Hreq. unfold resolve_requires.
  induction fuel as [|fuel IH]; intros a relation s s' Ha Hrun; [discriminate|].
  cbn [resolve_as_specified] in Hrun.
  refine (expand_keywords_records st P _ _ a relation _ Ha s s' Hrun).
  intros p s0 s0' Hp. apply (IH p Requires s0 s0'); [|exact Hp].
  intros k p0. apply Hreq.
Qed.

Lemma dd_get_in (d : list (string * list triple)) (k : string) (t : triple) :
  In t (dd_get k d) -> In (k, dd_get k d) d.
Proof.
  induction d as [|[k0 l0] d IH]; simpl; [contradiction|].
  destruct (String.eqb_spec k0 k) as [->|Hne]; [now left|].
  intros H. right. now apply IH.
Qed.

Lemma _filter_In (l : list triple) (relation : Z) (t : triple) :
  In t (_filter l relation) <-> In t l /\ snd t = relation.
Proof.
  induction l as [|t0 l IH]; simpl; [tauto|].
  destruct (Z.eqb_spec (snd t0) relation) as [He|Hne]; simpl; rewrite IH.
  - split; [intros [->|[H1 H2]]; auto | intros [[H|H] H2]; auto].
  - split; [tauto|]. intros [[->|H] H2]; [contradiction | auto].
Qed.

(** X17. What a resolution leaves in its record, for any kind. When
    [resolve_dependencies], started without a record, returns, every
    triple stored under a keyword has a provider of that keyword and a
    source that lists the keyword under the triple's kind; the kind is
    the one asked for only where the source is the root, and Requires
    everywhere else. So for a kind other than Requires,
    [simple_get_mods] for that kind gives only providers of the root's
    own keywords of that kind, in whatever order the dict hands out its
    keys: what the providers themselves list under that kind is never
    followed. *)
Theorem resolve_dependencies_record :
  forall (iter_keys : list string -> list string)
         (st : Store) (fuel : nat) (self : ModInstance) (relation : Z)
         (log log' : list LogRecord) (depsObject : ModDependencies),
    resolve_dependencies fuel st self relation None log
    = Some (Ok (depsObject, log')) ->
    record_ok (recorded_ok st self relation) depsObject
    /\ (relation <> Requires ->
        Forall (fun p => exists k, In k (get_dependency_info st self relation)
                                   /\ provider_of st k p)
               (simple_get_mods iter_keys depsObject relation)).
Proof.
  intros iter_keys st fuel self relation log log' d Hrun.
  rewrite resolve_dependencies_requires in Hrun. cbn [record_or_new] in Hrun.
  assert (Hrec : record_ok (recorded_ok st self relation) d).
  { apply (resolve_requires_records st (recorded_ok st self relation))
      with (fuel := fuel) (a := self) (relation := relation)
           (s := (ModDependencies_init, log)) (s' := (d, log')).
    - intros k p src Hk Hp. unfold recorded_ok. cbn [fst snd]. auto.
    - intros k p Hk Hp. unfold recorded_ok. cbn [fst snd]. auto.
    - exact Hrun.
    - intros k l []. }
  split; [exact Hrec|].
  intros Hne. unfold simple_get_mods. rewrite simple_get_mods_loop. simpl.
  apply Forall_forall. intros p Hp.
  apply in_flat_map in Hp as (k & Hk & Hp).
  destruct (_filter (dd_get k (depmap d)) relation) as [|t l] eqn:E; [contradiction|].
  destruct Hp as [<-|[]].
  assert (Ht : In t (_filter (dd_get k (depmap d)) relation))
    by (rewrite E; now left).
  apply _filter_In in Ht as [Ht Hr].
  pose proof (Hrec k _ (dd_get_in _ _ _ Ht)) as Hall.
  rewrite Forall_forall in Hall. destruct (Hall t Ht) as (Hprov & Hlist & Hkind).
  exists k. split; [|exact Hprov].
  destruct Hkind as [[_ Hsrc]|Hreq]; [|congruence].
  now rewrite Hsrc, Hr in Hlist.
Qed.

(* ================================================================= *)
(** ** These properties on the small catalog *)

Lemma create_filehash_whole_content_witness :
  files "Core.zip" = Some [x01; x02; x03]
  /\ create_filehash 0 toy_update toy_digest toy_base64 files "Core.zip"
     = Ok (strip is_equals_sign
             (strip is_whitespace
                (toy_base64 (toy_digest (toy_update 0 [x01; x02; x03]))))).
Proof.
  split; [reflexivity|].
  apply (@create_filehash_whole_content nat 0 toy_update toy_digest toy_base64).
  - intros h a b. unfold toy_update. rewrite length_app. lia.
  - intros h. unfold toy_update. simpl. lia.
  - reflexivity.
Defined.

Lemma check_file_verifies_witness :
  (forall h a b, toy_update (toy_update h a) b = toy_update h (a ++ b))
  /\ (forall h, toy_update h [] = h)
  /\ (truthy (e_filehash (mod_ {| mod_ := with_filehash core_entry (VStr "AAA") |}))
      = true ->
      forall content, files "Core.zip" = Some content ->
        exists b,
          check_file 0 toy_update toy_digest toy_base64 files
                     {| mod_ := with_filehash core_entry (VStr "AAA") |}
                     "Core.zip" false = Ok b
          /\ (b = true <->
              e_filehash (mod_ {| mod_ := with_filehash core_entry (VStr "AAA") |})
              = VStr (strip is_equals_sign
                        (strip is_whitespace
                           (toy_base64 (toy_digest (toy_update 0 content)))))))
  /\ (truthy (e_filehash (mod_ {| mod_ := with_filehash core_entry (VStr "AAA") |}))
      = false ->
      check_file 0 toy_update toy_digest toy_base64 files
                 {| mod_ := with_filehash core_entry (VStr "AAA") |}
                 "Core.zip" false = Ok false).
Proof.
  assert (Happ : forall h a b, toy_update (toy_update h a) b = toy_update h (a ++ b)).
  { intros h a b. unfold toy_update. rewrite length_app. lia. }
  assert (Hnil : forall h, toy_update h [] = h).
  { intros h. unfold toy_update. simpl. lia. }
  split; [exact Happ|]. split; [exact Hnil|].
  exact (@check_file_verifies nat 0 toy_update toy_digest toy_base64 Happ Hnil
           files {| mod_ := with_filehash core_entry (VStr "AAA") |} "Core.zip" false).
Defined.

Lemma check_file_flag_unused_with_digest_witness :
  truthy (e_filehash (mod_ {| mod_ := with_filehash core_entry (VStr "AAA") |})) = true
  /\ check_file 0 toy_update toy_digest toy_base64 files
                {| mod_ := with_filehash core_entry (VStr "AAA") |} "gone.zip" true
     = check_file 0 toy_update toy_digest toy_base64 files
                  {| mod_ := with_filehash core_entry (VStr "AAA") |} "gone.zip" false
  /\ (files "gone.zip" = None ->
      forall flag,
        check_file 0 toy_update toy_digest toy_base64 files
                   {| mod_ := with_filehash core_entry (VStr "AAA") |} "gone.zip" flag
        = Raise IOError).
Proof.
  split; [reflexivity|].
  apply (@check_file_flag_unused_with_digest nat 0 toy_update toy_digest toy_base64
           files {| mod_ := with_filehash core_entry (VStr "AAA") |} "gone.zip").
  reflexivity.
Defined.

Lemma pass_a_runs :
  update_mods updater_a [core_json; addon_json] world_start
  = (world_pass, Ok updater_pass_done).
Proof. vm_compute. reflexivity. Qed.

Lemma get_module_after_update_mods_witness :
  unique_ids (db world_start)
  /\ update_mods updater_a [core_json; addon_json] world_start
     = (world_pass, Ok updater_pass_done)
  /\ exists i, ModDb.get_module (db world_pass) "AddonX" = Ok i
               /\ e_name (mod_ i) = "AddonX".
Proof.
  assert (Hids : unique_ids (db world_start)) by constructor.
  split; [exact Hids|]. split; [exact pass_a_runs|].
  apply (get_module_after_update_mods updater_a updater_pass_done
           [core_json; addon_json] world_start world_pass Hids pass_a_runs addon_json).
  simpl. auto.
Defined.

Lemma update_mods_counts_witness :
  update_mods updater_a [core_json; addon_json] world_start
  = (world_pass, Ok updater_pass_done)
  /\ new updater_pass_done + updated updater_pass_done
     = new updater_a + updated updater_a + List.length [core_json; addon_json]
  /\ new updater_a <= new updater_pass_done
  /\ updated updater_a <= updated updater_pass_done
  /\ List.length (modentries (db world_pass))
     = List.length (modentries (db world_start))
       + (new updater_pass_done - new updater_a)
  /\ service updater_pass_done = service updater_a.
Proof.
  split; [exact pass_a_runs|].
  exact (update_mods_counts updater_a updater_pass_done [core_json; addon_json]
           world_start world_pass pass_a_runs).
Defined.

Lemma update_mods_stops_at_unreadable_witness :
  forallb readable [core_json] = true
  /\ readable half_json = false
  /\ (exists k,
        snd (update_mods updater_a ([core_json] ++ half_json :: [addon_json]) world_start)
        = Raise (KeyError k))
  /\ modentries
       (db (fst (update_mods updater_a ([core_json] ++ half_json :: [addon_json])
                             world_start)))
     = [core_entry; new_entry 2 "Half" 1].
Proof.
  split; [reflexivity|]. split; [reflexivity|].
  destruct (update_mods_stops_at_unreadable updater_a [core_json] [addon_json]
              half_json world_start eq_refl eq_refl)
    as (Hraise & _ & _ & _ & Hentries).
  split; [exact Hraise|].
  rewrite Hentries. vm_compute. reflexivity.
Defined.

Lemma update_mods_keeps_rows_witness :
  unique_ids (db world_pass)
  /\ update_mods updater_b [needs_ab] world_pass = (world_b, Ok updater_b_done)
  /\ (exists added,
        map row_key (modentries (db world_b))
        = map row_key (modentries (db world_pass)) ++ added
        /\ forall k, In k added -> snd k = 2)
  /\ filter (fun e => negb (e_service e =? 2)%nat) (modentries (db world_b))
     = filter (fun e => negb (e_service e =? 2)%nat) (modentries (db world_pass)).
Proof.
  assert (Hids : unique_ids (db world_pass)).
  { unfold unique_ids. vm_compute. repeat constructor; simpl; intuition discriminate. }
  assert (Hrun : update_mods updater_b [needs_ab] world_pass
                 = (world_b, Ok updater_b_done)) by (vm_compute; reflexivity).
  split; [exact Hids|]. split; [exact Hrun|].
  exact (update_mods_keeps_rows updater_b updater_b_done [needs_ab]
           world_pass world_b Hids Hrun).
Defined.

Lemma update_mods_keeps_keys_witness :
  unique_ids (db world_start)
  /\ update_mods updater_a [core_json; addon_json] world_start
     = (world_pass, Ok updater_pass_done)
  /\ unique_ids (db world_pass)
  /\ (unique_keys (db world_start) -> unique_keys (db world_pass)).
Proof.
  assert (Hids : unique_ids (db world_start)) by constructor.
  split; [exact Hids|]. split; [exact pass_a_runs|].
  exact (update_mods_keeps_keys updater_a updater_pass_done [core_json; addon_json]
           world_start world_pass Hids pass_a_runs).
Defined.

Lemma update_mods_keeps_referential_witness :
  referential (db world_start)
  /\ update_mods updater_a [core_json; addon_json] world_start
     = (world_pass, Ok updater_pass_done)
  /\ referential (db world_pass).
Proof.
  assert (Href : referential (db world_start)) by (intros c []).
  split; [exact Href|]. split; [exact pass_a_runs|].
  exact (update_mods_keeps_referential updater_a updater_pass_done
           [core_json; addon_json] world_start world_pass Href pass_a_runs).
Defined.

Lemma update_mods_other_dependency_rows_witness :
  unique_ids (db world_pass)
  /\ update_mods updater_b [needs_ab] world_pass = (world_b, Ok updater_b_done)
  /\ (forall e, In e (modentries (db world_b)) ->
                e_service e = svc_id (service updater_b) ->
                e_id e <> dep_mod (edge 2 Requires "extras"))
  /\ (In (edge 2 Requires "extras") (moddependencies (db world_b))
      <-> In (edge 2 Requires "extras") (moddependencies (db world_pass))).
Proof.
  assert (Hids : unique_ids (db world_pass)).
  { unfold unique_ids. vm_compute. repeat constructor; simpl; intuition discriminate. }
  assert (Hrun : update_mods updater_b [needs_ab] world_pass
                 = (world_b, Ok updater_b_done)) by (vm_compute; reflexivity).
  assert (Hother : forall e, In e (modentries (db world_b)) ->
                             e_service e = svc_id (service updater_b) ->
                             e_id e <> dep_mod (edge 2 Requires "extras")).
  { intros e He. vm_compute in He.
    destruct He as [<-|[<-|[<-|[]]]]; simpl; intros H; discriminate. }
  split; [exact Hids|]. split; [exact Hrun|]. split; [exact Hother|].
  exact (update_mods_other_dependency_rows updater_b updater_b_done [needs_ab]
           world_pass world_b (edge 2 Requires "extras") Hids Hrun Hother).
Defined.

Lemma update_mods_last_listing_wins_witness :
  unique_ids (db world_start)
  /\ (forall m', In m' [core_json] -> name_of m' <> name_of needs_b)
  /\ update_mods updater_a ([needs_ab] ++ needs_b :: [core_json]) world_start
     = (world_twice, Ok updater_twice_done)
  /\ exists e,
       find (entry_matches "P" 1) (modentries (db world_twice)) = Some e
       /\ e_version e = VStr "2"
       /\ get_dependency_info (db world_twice) {| mod_ := e |} Requires = ["B"].
Proof.
  assert (Hids : unique_ids (db world_start)) by constructor.
  assert (Hafter : forall m', In m' [core_json] -> name_of m' <> name_of needs_b).
  { intros m' [<-|[]]. vm_compute. intros H. discriminate. }
  assert (Hrun : update_mods updater_a ([needs_ab] ++ needs_b :: [core_json]) world_start
                 = (world_twice, Ok updater_twice_done)) by (vm_compute; reflexivity).
  split; [exact Hids|]. split; [exact Hafter|]. split; [exact Hrun|].
  destruct (update_mods_last_listing_wins updater_a updater_twice_done
              [needs_ab] [core_json] needs_b world_start world_twice
              Hids Hafter Hrun)
    as (e & Hfind & Hversion & _ & _ & Hreq & _).
  exists e. split; [exact Hfind|]. split; [|exact Hreq].
  change (Some (VStr "2") = Some (e_version e)) in Hversion.
  now injection Hversion as <-.
Defined.

Lemma resolve_dependencies_raises_only_dangling_witness :
  (resolve_dependencies 3 catalog_dangling {| mod_ := entry_A |} Requires None []
   = Some (Raise DoesNotExist)
   \/ get_dependency_mods Py2Dict.keys 3 catalog_dangling {| mod_ := entry_A |} []
      = Some (Raise DoesNotExist))
  /\ DoesNotExist = DoesNotExist
  /\ exists k c, In c (providers catalog_dangling k)
                 /\ entry_mod catalog_dangling c = Raise DoesNotExist.
Proof.
  assert (Hrun : resolve_dependencies 3 catalog_dangling {| mod_ := entry_A |}
                                     Requires None []
                 = Some (Raise DoesNotExist)
                 \/ get_dependency_mods Py2Dict.keys 3 catalog_dangling
                                        {| mod_ := entry_A |} []
                    = Some (Raise DoesNotExist))
    by (left; vm_compute; reflexivity).
  split; [exact Hrun|].
  exact (resolve_dependencies_raises_only_dangling Py2Dict.keys catalog_dangling 3
           {| mod_ := entry_A |} Requires None [] DoesNotExist Hrun).
Defined.

Lemma catalog_cycle_chain :
  chain catalog_cycle 1 2 /\ chain catalog_cycle 2 2.
Proof.
  assert (H12 : depends_on catalog_cycle 1 2).
  { exists "b", (edge 2 Provides "b"). vm_compute. auto. }
  assert (H21 : depends_on catalog_cycle 2 1).
  { exists "A", (edge 1 Provides "A"). vm_compute. auto. }
  split.
  - now apply chain_step.
  - eapply chain_more; [exact H21 | now apply chain_step].
Qed.

Lemma resolve_dependencies_cycle_never_returns_witness :
  referential catalog_cycle
  /\ chain catalog_cycle (e_id (mod_ {| mod_ := entry_A |})) 2
  /\ chain catalog_cycle 2 2
  /\ resolve_dependencies 1000 catalog_cycle {| mod_ := entry_A |} Requires None []
     = None
  /\ get_dependency_mods Py2Dict.keys 1000 catalog_cycle {| mod_ := entry_A |} []
     = None.
Proof.
  assert (Href : referential catalog_cycle).
  { apply referentialb_referential. vm_compute. reflexivity. }
  split; [exact Href|].
  split; [exact (proj1 catalog_cycle_chain)|].
  split; [exact (proj2 catalog_cycle_chain)|].
  exact (resolve_dependencies_cycle_never_returns catalog_cycle {| mod_ := entry_A |} 2
           Href (proj1 catalog_cycle_chain) (proj2 catalog_cycle_chain)
           Py2Dict.keys 1000 None []).
Defined.

Lemma resolve_dependencies_record_witness :
  resolve_dependencies 6 catalog_recommends {| mod_ := entry_A |} Recommends None []
  = Some (Ok (record_recommends_A, []))
  /\ record_ok (recorded_ok catalog_recommends {| mod_ := entry_A |} Recommends)
               record_recommends_A
  /\ (Recommends <> Requires ->
      Forall (fun p => exists k,
                  In k (get_dependency_info catalog_recommends {| mod_ := entry_A |}
                                            Recommends)
                  /\ provider_of catalog_recommends k p)
             (simple_get_mods Py2Dict.keys record_recommends_A Recommends)).
Proof.
  assert (Hrun : resolve_dependencies 6 catalog_recommends {| mod_ := entry_A |}
                                     Recommends None []
                 = Some (Ok (record_recommends_A, [])))
    by (vm_compute; reflexivity).
  split; [exact Hrun|].
  exact (resolve_dependencies_record Py2Dict.keys catalog_recommends 6
           {| mod_ := entry_A |} Recommends [] [] record_recommends_A Hrun).
Defined.
